(** * PSO-BADINIT: the particle-swarm H initialiser of [src/libs/pso_nmf.cpp]

    A shallow embedding of [PSO::fit] and of the [eval_cost] lambda it
    defines, followed by the properties of the optimiser.

    Numbers.  The program computes on C++ [double].  The embedding is
    parametric in the number type: class [Arith] lists the operations the
    source applies to doubles ([+], [-], [*], [<], the literals it uses and
    [numeric_limits<double>::infinity()]), and nothing is assumed about them
    except where a theorem names a law as a hypothesis.  Results stated
    without such a hypothesis therefore hold for every interpretation of the
    operations, IEEE binary64 included.  Instance [binary64] interprets the
    class by Rocq's primitive floats; the laws that the theorems on doubles
    assume are proved for it, and the examples run on it.

    Random numbers.  [std::mt19937] and [std::uniform_real_distribution] are
    library code; class [Rng] takes the seeding function and one draw of the
    distribution as parameters.  Instance [mt_rng] is the Mersenne twister
    with the distribution as the GNU C++ library computes it.

    Integers.  The narrowing casts [(int)buf.shape[n]] are modelled with their
    wrap-around ([to_int]).  Where a dimension is negative as an [int], or
    the product [k * s] does not fit an [int], the call is [Undefined]
    ([int_dims]); elsewhere the dimensions and indices are [nat]s. *)

From Stdlib Require Import ZArith List Bool Lia String Sorted Floats Uint63.
From stdpp Require Import base list.
Import ListNotations.

Open Scope nat_scope.

(** ** Counted loops *)

(** [for (int i = 0; i < n; ++i) body(i)] on an explicit state. *)
Fixpoint for_loop {S : Type} (n : nat) (body : nat -> S -> S) (st : S) : S :=
  match n with
  | O => st
  | Datatypes.S m => body m (for_loop m body st)
  end.

(** ** Numbers and random draws *)

Class Arith (num : Type) := {
  zero : num;                     (* 0.0 *)
  one : num;                      (* 1.0 *)
  tenth : num;                    (* 0.1 *)
  infinity : num;                 (* numeric_limits<double>::infinity() *)
  add : num -> num -> num;
  sub : num -> num -> num;
  mul : num -> num -> num;
  ltb : num -> num -> bool        (* x < y;  x > y is  ltb y x *)
}.

Class Rng (num rng : Type) := {
  mt19937 : Z -> rng;                         (* std::mt19937 rng(seed) *)
  uniform : num -> num -> rng -> num * rng    (* uniform_real_distribution(a,b)(rng) *)
}.

#[global] Instance num_inhabited {num : Type} `{Arith num} : Inhabited num :=
  populate zero.

(** [(int)z] for a 64-bit [ssize_t] [z]: reduction to the signed 32-bit range. *)
Definition to_int (z : Z) : Z := ((z + 2 ^ 31) mod 2 ^ 32 - 2 ^ 31)%Z.

(** [static_cast<unsigned>(z)] *)
Definition to_unsigned (z : Z) : Z := (z mod 2 ^ 32)%Z.

(** ** Errors *)

Inductive exn : Type :=
| runtime_error (msg : string).

(** The outcome of a call: a value, one of the exceptions that the source
    throws, or [Undefined] where the source leaves the rules of C++ or of
    its libraries (see [int_dims] below) and the model says nothing. *)
Inductive result (A : Type) : Type :=
| Ok (a : A)
| Throw (e : exn)
| Undefined.
Arguments Ok {A} a.
Arguments Throw {A} e.
Arguments Undefined {A}.

(** The call throws one of the exceptions of the source. *)
Definition raises {A : Type} (r : result A) : Prop :=
  match r with Throw _ => True | _ => False end.

(** The dimensions for which the rest of [fit] is defined: the [int]s [g],
    [k] and [s] that lines 49-52 read are not negative and [k * s] fits an
    [int].  A negative dimension breaks the precondition of [Eigen::Map]
    (an assertion when assertions are compiled in; without them the run
    goes on to [std::vector<double>(dim)], which throws [std::length_error]
    for a negative [dim], or to a failed allocation), and the product
    [k * s] of line 64 is a signed overflow when it does not fit. *)
Definition int_dims (g k s : Z) : bool :=
  ((0 <=? g) && (0 <=? k) && (0 <=? s) && (k * s <? 2 ^ 31))%Z.

Section Model.
Context {num : Type} {AR : Arith num} {rng : Type} {RG : Rng num rng}.

(** ** Data *)

Record PSOConfig : Type := {
  population : Z;
  max_iters : Z;
  inertia : num;
  c1 : num;
  c2 : num;
  lb : num;
  ub : num;
  verbose : bool;
  seed : Z
}.

Definition with_seed (cfg : PSOConfig) (s : Z) : PSOConfig :=
  {| population := population cfg; max_iters := max_iters cfg;
     inertia := inertia cfg; c1 := c1 cfg; c2 := c2 cfg;
     lb := lb cfg; ub := ub cfg; verbose := verbose cfg; seed := s |}.

(** [void set_population(int p)] *)
Definition set_population (cfg : PSOConfig) (p : Z) : PSOConfig :=
  {| population := p; max_iters := max_iters cfg;
     inertia := inertia cfg; c1 := c1 cfg; c2 := c2 cfg;
     lb := lb cfg; ub := ub cfg; verbose := verbose cfg; seed := seed cfg |}.

(** [void set_max_iters(int m)] *)
Definition set_max_iters (cfg : PSOConfig) (m : Z) : PSOConfig :=
  {| population := population cfg; max_iters := m;
     inertia := inertia cfg; c1 := c1 cfg; c2 := c2 cfg;
     lb := lb cfg; ub := ub cfg; verbose := verbose cfg; seed := seed cfg |}.

(** [void set_verbose(bool v)] *)
Definition set_verbose (cfg : PSOConfig) (v : bool) : PSOConfig :=
  {| population := population cfg; max_iters := max_iters cfg;
     inertia := inertia cfg; c1 := c1 cfg; c2 := c2 cfg;
     lb := lb cfg; ub := ub cfg; verbose := v; seed := seed cfg |}.

(** [void set_bounds(double lb, double ub)] *)
Definition set_bounds (cfg : PSOConfig) (lo hi : num) : PSOConfig :=
  {| population := population cfg; max_iters := max_iters cfg;
     inertia := inertia cfg; c1 := c1 cfg; c2 := c2 cfg;
     lb := lo; ub := hi; verbose := verbose cfg; seed := seed cfg |}.

(** [void set_seed(unsigned s)] *)
Definition set_seed (cfg : PSOConfig) (s : Z) : PSOConfig := with_seed cfg s.

(** [PSO(const PSOConfig &cfg)]: a zero seed is replaced by the reading
    [clock] of the high-resolution clock, cast to [unsigned]. *)
Definition PSO_new (cfg : PSOConfig) (clock : Z) : PSOConfig :=
  if (seed cfg =? 0)%Z then with_seed cfg (to_unsigned clock) else cfg.

(** A numpy array as [fit] receives and returns it: its shape and its
    C-contiguous buffer of doubles ([py::array::c_style | forcecast] on the
    way in; [py::array_t<double>(shape)] allocates C-contiguous on the way
    out). *)
Record ndarray : Type := {
  shape : list Z;
  buf : list num
}.

Definition ndim (a : ndarray) : nat := length (shape a).

(** Element [a[i, j]] of a two-dimensional C-contiguous array. *)
Definition np_at (a : ndarray) (i j : nat) : num :=
  buf a !!! (i * Z.to_nat (shape a !!! 1) + j).

(** [Eigen::MatrixXd]: column-major storage. *)
Record Matrix : Type := {
  rows : nat;
  cols : nat;
  coeffs : list num
}.

(** [M(i,j)] *)
Definition coeff (M : Matrix) (i j : nat) : num :=
  coeffs M !!! (j * rows M + i).

(** [M(i,j) = v] *)
Definition set_coeff (M : Matrix) (i j : nat) (v : num) : Matrix :=
  {| rows := rows M; cols := cols M;
     coeffs := <[j * rows M + i := v]> (coeffs M) |}.

(** [Matrix::Zero(r, c)] *)
Definition Matrix_Zero (r c : nat) : Matrix :=
  {| rows := r; cols := c; coeffs := replicate (r * c) zero |}.

(** [Eigen::Map<const Matrix>(ptr, r, c)] copied into a [Matrix]: the first
    [r*c] doubles of the buffer, read column-major. *)
Definition Matrix_Map (ptr : list num) (r c : nat) : Matrix :=
  {| rows := r; cols := c; coeffs := take (r * c) ptr |}.

(** Entry [(a, j)] of the product [A * B], accumulated left to right. *)
Definition dot_row_col (A B : Matrix) (a j : nat) : num :=
  for_loop (cols A) (fun i acc => add acc (mul (coeff A a i) (coeff B i j))) zero.

(** [A * B] *)
Definition mat_mul (A B : Matrix) : Matrix :=
  {| rows := rows A; cols := cols B;
     coeffs := flat_map (fun j => map (fun a => dot_row_col A B a j) (seq 0 (rows A)))
                        (seq 0 (cols B)) |}.

(** [A - B] *)
Definition mat_sub (A B : Matrix) : Matrix :=
  {| rows := rows A; cols := cols A;
     coeffs := zip_with sub (coeffs A) (coeffs B) |}.

(** Sum of the squares of a list of entries, accumulated left to right. *)
Definition sum_squares (l : list num) : num :=
  fold_left (fun acc x => add acc (mul x x)) l zero.

(** [M.squaredNorm()] *)
Definition squaredNorm (M : Matrix) : num := sum_squares (coeffs M).

(** ** The objective evaluator *)

(** The body of the inner loop of [eval_cost]. *)
Definition eval_cost_entry (lo : num) (k : nat) (flatH : list num)
    (j i : nat) (H : Matrix) : Matrix :=
  let v := flatH !!! (j * k + i) in
  let v := if ltb v lo then lo else v in
  set_coeff H i j v.

(** The matrix [H] that [eval_cost] builds from the flat vector. *)
Definition eval_cost_H (lo : num) (k s : nat) (flatH : list num) : Matrix :=
  for_loop s (fun j H => for_loop k (eval_cost_entry lo k flatH j) H)
           (Matrix_Zero k s).

(** The lambda [eval_cost]; [lo] is [config_.lb], and [W], [X], [k], [s]
    are the variables of [fit] it captures. *)
Definition eval_cost (lo : num) (W X : Matrix) (k s : nat) (flatH : list num) : num :=
  let H := eval_cost_H lo k s flatH in
  let R := mat_sub X (mat_mul W H) in
  squaredNorm R.

(** ** The swarm *)

Record swarm : Type := {
  rng_st : rng;
  pos : list (list num);
  vel : list (list num);
  pbest_pos : list (list num);
  pbest_cost : list num;
  cost : list num;
  global_best_cost : num;
  gbest_pos : list num
}.

(** [m[i][d]] and [m[i][d] = v] on a vector of vectors. *)
Definition get2 (m : list (list num)) (i d : nat) : num := (m !!! i) !!! d.
Definition set2 (m : list (list num)) (i d : nat) (v : num) : list (list num) :=
  <[i := <[d := v]> (m !!! i)]> m.

(** The local variables of [fit] before the initialisation loop. *)
Definition fresh_swarm (sd : Z) (pop dim : nat) : swarm :=
  {| rng_st := mt19937 sd;
     pos := replicate pop (replicate dim zero);
     vel := replicate pop (replicate dim zero);
     pbest_pos := replicate pop (replicate dim zero);
     pbest_cost := replicate pop zero;
     cost := replicate pop zero;
     global_best_cost := infinity;
     gbest_pos := replicate dim zero |}.

Section Run.
Variable cfg : PSOConfig.
Variables W X : Matrix.
Variables k s : nat.

(** The two distributions of lines 70 and 71. *)
Definition unif01 (g : rng) : num * rng := uniform zero one g.
Definition initDist (g : rng) : num * rng := uniform (lb cfg) (ub cfg) g.

(** [eval_cost] with its captures filled in. *)
Definition cost_of (flatH : list num) : num := eval_cost (lb cfg) W X k s flatH.

(** Lines 103-105: one dimension of one particle is initialised.  The two
    draws of the velocity are taken left operand first. *)
Definition init_dim (i d : nat) (st : swarm) : swarm :=
  let '(x, g1) := initDist (rng_st st) in
  let '(a, g2) := initDist g1 in
  let '(b, g3) := initDist g2 in
  let pos' := set2 (pos st) i d x in
  let vel' := set2 (vel st) i d (mul (sub a b) tenth) in
  let pbest_pos' := set2 (pbest_pos st) i d (get2 pos' i d) in
  {| rng_st := g3; pos := pos'; vel := vel'; pbest_pos := pbest_pos';
     pbest_cost := pbest_cost st; cost := cost st;
     global_best_cost := global_best_cost st; gbest_pos := gbest_pos st |}.

(** Lines 107-112: the particle is evaluated and the global best updated. *)
Definition init_eval (i : nat) (st : swarm) : swarm :=
  let pbest_cost' := <[i := cost_of (pos st !!! i)]> (pbest_cost st) in
  let cost' := <[i := pbest_cost' !!! i]> (cost st) in
  let better := ltb (pbest_cost' !!! i) (global_best_cost st) in
  {| rng_st := rng_st st; pos := pos st; vel := vel st;
     pbest_pos := pbest_pos st;
     pbest_cost := pbest_cost'; cost := cost';
     global_best_cost :=
       if better then pbest_cost' !!! i else global_best_cost st;
     gbest_pos :=
       if better then pbest_pos st !!! i else gbest_pos st |}.

(** Lines 101-113, the body of the loop over particles. *)
Definition init_particle (dim : nat) (i : nat) (st : swarm) : swarm :=
  init_eval i (for_loop dim (init_dim i) st).

(** Lines 127 and 129: the projection onto the box. *)
Definition project (p : num) : num :=
  let p := if ltb p (lb cfg) then lb cfg else p in
  if ltb (ub cfg) p then ub cfg else p.

(** Lines 122-124: the new velocity, from the two draws and the old
    velocity, the position, the personal and the global best. *)
Definition new_velocity (r1 r2 v p pb gb : num) : num :=
  add (add (mul (inertia cfg) v)
           (mul (mul (c1 cfg) r1) (sub pb p)))
      (mul (mul (c2 cfg) r2) (sub gb p)).

(** Lines 120-129: one dimension of one particle is moved. *)
Definition update_dim (i d : nat) (st : swarm) : swarm :=
  let '(r1, g1) := unif01 (rng_st st) in
  let '(r2, g2) := unif01 g1 in
  let v := new_velocity r1 r2 (get2 (vel st) i d) (get2 (pos st) i d)
             (get2 (pbest_pos st) i d) (gbest_pos st !!! d) in
  let vel' := set2 (vel st) i d v in
  let p := add (get2 (pos st) i d) (get2 vel' i d) in
  {| rng_st := g2; pos := set2 (pos st) i d (project p); vel := vel';
     pbest_pos := pbest_pos st;
     pbest_cost := pbest_cost st; cost := cost st;
     global_best_cost := global_best_cost st; gbest_pos := gbest_pos st |}.

(** Lines 133-142: the moved particle is evaluated, and the personal and
    the global best are updated. *)
Definition update_eval (i : nat) (st : swarm) : swarm :=
  let f := cost_of (pos st !!! i) in
  let cost' := <[i := f]> (cost st) in
  if ltb f (pbest_cost st !!! i) then
    let better := ltb f (global_best_cost st) in
    {| rng_st := rng_st st; pos := pos st; vel := vel st;
       pbest_pos := <[i := pos st !!! i]> (pbest_pos st);
       pbest_cost := <[i := f]> (pbest_cost st);
       cost := cost';
       global_best_cost := if better then f else global_best_cost st;
       gbest_pos := if better then pos st !!! i else gbest_pos st |}
  else
    {| rng_st := rng_st st; pos := pos st; vel := vel st;
       pbest_pos := pbest_pos st; pbest_cost := pbest_cost st;
       cost := cost';
       global_best_cost := global_best_cost st; gbest_pos := gbest_pos st |}.

(** Lines 117-143, the body of the loop over particles. *)
Definition update_particle (dim : nat) (i : nat) (st : swarm) : swarm :=
  update_eval i (for_loop dim (update_dim i) st).

(** Line 145: does iteration [iter] print? *)
Definition prints (iter : nat) : bool :=
  verbose cfg &&
  ((Z.of_nat iter mod 50 =? 0)%Z || (Z.of_nat iter =? max_iters cfg - 1)%Z).

(** Lines 116-148, the body of the loop over iterations; the second
    component is what [py::print] has written so far, as pairs
    [(iter, best_cost)]. *)
Definition iteration (pop dim : nat) (iter : nat)
    (so : swarm * list (nat * num)) : swarm * list (nat * num) :=
  let st := for_loop pop (update_particle dim) (fst so) in
  (st, if prints iter then snd so ++ [(iter, global_best_cost st)] else snd so).

(** The effective population of line 66. *)
Definition effective_pop : nat :=
  Z.to_nat (if (population cfg <? 2)%Z then 2%Z else population cfg).

(** Lines 64-148: the swarm when the loops are over, and the output. *)
Definition fit_loops : swarm * list (nat * num) :=
  let dim := k * s in
  let pop := effective_pop in
  let st := for_loop pop (init_particle dim) (fresh_swarm (seed cfg) pop dim) in
  for_loop (Z.to_nat (max_iters cfg)) (iteration pop dim) (st, []).

(** Lines 152-159: the array [H_out] of shape [{k, s}] and the loop that
    fills its buffer. *)
Definition build_H (g : list num) : ndarray :=
  {| shape := [Z.of_nat k; Z.of_nat s];
     buf := for_loop s (fun j ptrH =>
              for_loop k (fun i ptrH => <[j * k + i := g !!! (j * k + i)]> ptrH) ptrH)
              (replicate (k * s) zero) |}.
End Run.

(** ** [PSO::fit] *)

(** The state at the end of the loops, or the exception of lines 47 and 54;
    the dimensions are [nat]s once [int_dims] has passed. *)
Definition fit_run (cfg : PSOConfig) (W_np X_np : ndarray)
    : result (swarm * list (nat * num)) :=
  if negb (ndim W_np =? 2) || negb (ndim X_np =? 2) then
    Throw (runtime_error "W and X must be 2-D arrays")
  else
    let gW := to_int (shape W_np !!! 0) in
    let k := to_int (shape W_np !!! 1) in
    let gX := to_int (shape X_np !!! 0) in
    let s := to_int (shape X_np !!! 1) in
    if negb (gW =? gX)%Z then
      Throw (runtime_error "W and X must have same number of rows (features)")
    else if negb (int_dims gW k s) then Undefined
    else
      let W := Matrix_Map (buf W_np) (Z.to_nat gW) (Z.to_nat k) in
      let X := Matrix_Map (buf X_np) (Z.to_nat gX) (Z.to_nat s) in
      Ok (fit_loops cfg W X (Z.to_nat k) (Z.to_nat s)).

(** The dimensions [k] and [s] that [fit] reads from the shapes. *)
Definition dim_k (W_np : ndarray) : nat := Z.to_nat (to_int (shape W_np !!! 1)).
Definition dim_s (X_np : ndarray) : nat := Z.to_nat (to_int (shape X_np !!! 1)).

(** The value [fit] returns. *)
Definition fit (cfg : PSOConfig) (W_np X_np : ndarray) : result ndarray :=
  match fit_run cfg W_np X_np with
  | Throw e => Throw e
  | Undefined => Undefined
  | Ok (st, _) => Ok (build_H (dim_k W_np) (dim_s X_np) (gbest_pos st))
  end.

(** ** Vocabulary of the properties *)

(** [x <= y] and membership of the closed box, from the program's [<]. *)
Definition leq (x y : num) : Prop := ltb x y = true \/ x = y.

(** [<] is a strict total order. *)
Record OrderLaws : Prop := {
  ltb_irrefl : forall x, ltb x x = false;
  ltb_trans : forall x y z, ltb x y = true -> ltb y z = true -> ltb x z = true;
  ltb_total : forall x y, ltb x y = true \/ x = y \/ ltb y x = true
}.

(** The generator after [n] draws of [unif01], and the value of draw [n]. *)
Fixpoint rng_after (n : nat) (g : rng) : rng :=
  match n with
  | O => g
  | S m => snd (uniform zero one (rng_after m g))
  end.
Definition draw (n : nat) (g : rng) : num :=
  fst (uniform zero one (rng_after n g)).

(** The generator after [n] draws of [initDist], and the value of draw [n]. *)
Fixpoint init_rng_after (lo hi : num) (n : nat) (g : rng) : rng :=
  match n with
  | O => g
  | S m => snd (uniform lo hi (init_rng_after lo hi m g))
  end.
Definition init_draw (lo hi : num) (n : nat) (g : rng) : num :=
  fst (uniform lo hi (init_rng_after lo hi n g)).

(** The vectors of the swarm have the sizes they were allocated with. *)
Record sized (pop dim : nat) (st : swarm) : Prop := {
  sized_pos : length (pos st) = pop;
  sized_pos_rows : forall i, i < pop -> length (pos st !!! i) = dim;
  sized_vel : length (vel st) = pop;
  sized_vel_rows : forall i, i < pop -> length (vel st !!! i) = dim;
  sized_pbest_pos : length (pbest_pos st) = pop;
  sized_pbest_pos_rows : forall i, i < pop -> length (pbest_pos st !!! i) = dim;
  sized_pbest_cost : length (pbest_cost st) = pop;
  sized_cost : length (cost st) = pop;
  sized_gbest_pos : length (gbest_pos st) = dim
}.

(** The particle evaluations of one run, in the order the loops make them:
    [Init i] is the body of the initialisation loop for particle [i],
    [Update i] the body of the loop over particles inside one iteration. *)
Inductive event : Type :=
| Init (i : nat)
| Update (i : nat).

Definition evaluations (pop iters : nat) : list event :=
  map Init (seq 0 pop) ++ concat (replicate iters (map Update (seq 0 pop))).

Definition exec (cfg : PSOConfig) (W X : Matrix) (k s : nat)
    (e : event) (st : swarm) : swarm :=
  match e with
  | Init i => init_particle cfg W X k s (k * s) i st
  | Update i => update_particle cfg W X k s (k * s) i st
  end.

(** The swarm after the evaluations [evs], started from the fresh swarm. *)
Definition swarm_after (cfg : PSOConfig) (W X : Matrix) (k s : nat)
    (evs : list event) : swarm :=
  fold_left (fun st e => exec cfg W X k s e st) evs
    (fresh_swarm (seed cfg) (effective_pop cfg) (k * s)).

(** The swarm when the initialisation loop is over. *)
Definition init_swarm (cfg : PSOConfig) (W X : Matrix) (k s : nat) : swarm :=
  for_loop (effective_pop cfg) (init_particle cfg W X k s (k * s))
    (fresh_swarm (seed cfg) (effective_pop cfg) (k * s)).

(** The matrices, the dimensions and the result of a call that passes the
    checks of lines 47 and 54. *)
Definition eigen_W (W_np : ndarray) : Matrix :=
  Matrix_Map (buf W_np) (Z.to_nat (to_int (shape W_np !!! 0))) (dim_k W_np).
Definition eigen_X (X_np : ndarray) : Matrix :=
  Matrix_Map (buf X_np) (Z.to_nat (to_int (shape X_np !!! 0))) (dim_s X_np).

(** The state that lines 133-142 leave, from the moved row [p], its
    velocity [v] and the generator [g]. *)
Definition tracked (cfg : PSOConfig) (W X : Matrix) (k s : nat) (i : nat)
    (p v : list num) (g : rng) (st : swarm) : swarm :=
  let f := cost_of cfg W X k s p in
  if ltb f (pbest_cost st !!! i) then
    {| rng_st := g;
       pos := <[i := p]> (pos st);
       vel := <[i := v]> (vel st);
       pbest_pos := <[i := p]> (pbest_pos st);
       pbest_cost := <[i := f]> (pbest_cost st);
       cost := <[i := f]> (cost st);
       global_best_cost :=
         if ltb f (global_best_cost st) then f else global_best_cost st;
       gbest_pos :=
         if ltb f (global_best_cost st) then p else gbest_pos st |}
  else
    {| rng_st := g;
       pos := <[i := p]> (pos st);
       vel := <[i := v]> (vel st);
       pbest_pos := pbest_pos st;
       pbest_cost := pbest_cost st;
       cost := <[i := f]> (cost st);
       global_best_cost := global_best_cost st;
       gbest_pos := gbest_pos st |}.

Definition event_index (e : event) : nat :=
  match e with Init i => i | Update i => i end.

(** The evaluations of the initialisation, and those of the iterations. *)
Definition init_evaluations (pop : nat) : list event := map Init (seq 0 pop).
Definition round_evaluations (pop iters : nat) : list event :=
  concat (replicate iters (map Update (seq 0 pop))).

(** The array [fit] returns when the checks of lines 47 and 54 pass. *)
Definition fit_result (cfg : PSOConfig) (W X : Matrix) (k s : nat) : ndarray :=
  build_H k s (gbest_pos (fst (fit_loops cfg W X k s))).

(** A value that some draw of [initDist] returns. *)
Definition init_value (cfg : PSOConfig) (x : num) : Prop :=
  exists g : rng, x = fst (uniform (lb cfg) (ub cfg) g).

(** What holds in the initialisation loop when particles [0 .. n-1] are
    done: their personal best is their position and its cost, the global
    best cost is at most their costs, and the global best is either
    untouched or the first of the particles of least cost. *)
Record initialised (cfg : PSOConfig) (W X : Matrix) (k s : nat)
    (n : nat) (st : swarm) : Prop := {
  ini_sized : sized (effective_pop cfg) (k * s) st;
  ini_rows : forall i, i < n ->
    pbest_pos st !!! i = pos st !!! i
    /\ pbest_cost st !!! i = cost_of cfg W X k s (pbest_pos st !!! i)
    /\ Forall (init_value cfg) (pos st !!! i);
  ini_le : forall j, j < n -> leq (global_best_cost st) (pbest_cost st !!! j);
  ini_best :
    (global_best_cost st = infinity /\ gbest_pos st = replicate (k * s) zero)
    \/ exists m, m < n
         /\ global_best_cost st = pbest_cost st !!! m
         /\ gbest_pos st = pbest_pos st !!! m
         /\ forall j, j < m -> ltb (pbest_cost st !!! m) (pbest_cost st !!! j) = true
}.

End Model.

(** ** A concrete arithmetic and generator, for running the model

    Decimal fixed point with three fractional digits ([Fin m] stands for
    [m / 1000]) and a point at infinity, and a linear congruential generator
    whose draw is the interpolation between the two bounds. *)

Inductive fixed : Type :=
| Fin (m : Z)
| PInf.

Definition fixed_add (x y : fixed) : fixed :=
  match x, y with Fin a, Fin b => Fin (a + b) | _, _ => PInf end.

Definition fixed_sub (x y : fixed) : fixed :=
  match x, y with Fin a, Fin b => Fin (a - b) | _, _ => PInf end.

Definition fixed_mul (x y : fixed) : fixed :=
  match x, y with Fin a, Fin b => Fin (a * b / 1000) | _, _ => PInf end.

Definition fixed_ltb (x y : fixed) : bool :=
  match x, y with
  | Fin a, Fin b => (a <? b)%Z
  | Fin _, PInf => true
  | PInf, _ => false
  end.

#[global] Instance fixed_arith : Arith fixed := {|
  zero := Fin 0; one := Fin 1000; tenth := Fin 100; infinity := PInf;
  add := fixed_add; sub := fixed_sub; mul := fixed_mul; ltb := fixed_ltb |}.

Definition lcg_next (g : Z) : Z := ((g * 1103515245 + 12345) mod 2 ^ 31)%Z.

Definition lcg_uniform (a b : fixed) (g : Z) : fixed * Z :=
  let g' := lcg_next g in
  let u := ((g' / 65536) mod 1000)%Z in
  (match a, b with
   | Fin x, Fin y => Fin (x + (y - x) * u / 1000)
   | _, _ => a
   end, g').

#[global] Instance lcg_rng : Rng fixed Z := {|
  mt19937 := fun sd => sd; uniform := lcg_uniform |}.

(** The configuration of the examples: the defaults of [PSOConfig] for the
    coefficients, three particles, two rounds, seed 42. *)
Definition cfg0 : PSOConfig :=
  {| population := 3; max_iters := 2;
     inertia := Fin 729; c1 := Fin 1494; c2 := Fin 1494;
     lb := Fin 0; ub := Fin 10000; verbose := true; seed := 42 |}.

(** [W = [[1, 0], [0, 1]]] and [X = [[1, 2], [3, 4]]], both 2 by 2. *)
Definition W0 : ndarray :=
  {| shape := [2; 2]%Z; buf := [Fin 1000; Fin 0; Fin 0; Fin 1000] |}.
Definition X0 : ndarray :=
  {| shape := [2; 2]%Z; buf := [Fin 1000; Fin 2000; Fin 3000; Fin 4000] |}.

(** The shapes of the last example: [W] has [2^32 + 5] rows and no column,
    [X] has 5 rows and one column. *)
Definition W_wide : @ndarray fixed :=
  {| shape := [4294967301; 0]%Z; buf := [] |}.
Definition X_five : ndarray :=
  {| shape := [5; 1]%Z;
     buf := [Fin 1000; Fin 1000; Fin 1000; Fin 1000; Fin 1000] |}.

(** ** Further vocabulary *)

Section Reach.
Context {num : Type} {AR : Arith num} {rng : Type} {RG : Rng num rng}.

(** Lines 90-91: a value raised to the lower bound. *)
Definition clamp_low (lo v : num) : num := if ltb v lo then lo else v.

(** An [int] that a cast of a shape entry leaves as it is. *)
Definition in_int_range (z : Z) : Prop := (0 <= z < 2 ^ 31)%Z.

(** The swarm after [t] complete iterations of the loop of line 116. *)
Definition rounds_swarm (cfg : PSOConfig) (W X : Matrix) (k s : nat) (t : nat)
    : @swarm num rng :=
  for_loop t
    (fun _ st => for_loop (effective_pop cfg) (update_particle cfg W X k s (k * s)) st)
    (init_swarm cfg W X k s).

(** The iterations at which line 145 prints, in order. *)
Definition printing_iterations (cfg : @PSOConfig num) : list nat :=
  List.filter (prints cfg) (seq 0 (Z.to_nat (max_iters cfg))).

(** [cost[i]] is the cost of [pos[i]] for the particles [0 .. n-1]. *)
Record evaluated (cfg : PSOConfig) (W X : Matrix) (k s : nat)
    (n : nat) (st : @swarm num rng) : Prop := {
  ev_sized : sized (effective_pop cfg) (k * s) st;
  ev_cost : forall i, i < n ->
    cost st !!! i = eval_cost (lb cfg) W X k s (pos st !!! i)
}.

(** The personal best cost of a particle is at most its current cost, and
    the global best cost is at most every personal best cost. *)
Record ranked (cfg : PSOConfig) (W X : Matrix) (k s : nat)
    (st : @swarm num rng) : Prop := {
  rk_evaluated : evaluated cfg W X k s (effective_pop cfg) st;
  rk_personal : forall i, i < effective_pop cfg ->
    leq (pbest_cost st !!! i) (cost st !!! i);
  rk_global : forall i, i < effective_pop cfg ->
    leq (global_best_cost st) (pbest_cost st !!! i)
}.

(** The draws that the initialisation has taken when it reaches dimension
    [d] of particle [i], for particles of [dim] dimensions. *)
Definition draws_before (dim i d : nat) : nat := 3 * (i * dim + d).

(** The generator and the rows of the first [n] particles while the
    initialisation loop runs. *)
Record drawn (cfg : PSOConfig) (k s : nat) (n : nat) (st : @swarm num rng) : Prop := {
  dr_sized : sized (effective_pop cfg) (k * s) st;
  dr_rng : rng_st st =
    init_rng_after (lb cfg) (ub cfg) (3 * (n * (k * s))) (mt19937 (seed cfg));
  dr_rows : forall i d, i < n -> d < k * s ->
    get2 (pos st) i d =
      init_draw (lb cfg) (ub cfg) (draws_before (k * s) i d) (mt19937 (seed cfg))
    /\ get2 (vel st) i d =
         mul (sub (init_draw (lb cfg) (ub cfg) (draws_before (k * s) i d + 1)
                     (mt19937 (seed cfg)))
                  (init_draw (lb cfg) (ub cfg) (draws_before (k * s) i d + 2)
                     (mt19937 (seed cfg))))
             tenth
}.

(** ** The order of doubles

    On doubles [<] is false whenever an operand is NaN, so it is not total.
    The properties below are therefore stated with the comparisons the
    source makes: [ltb x lo = false] is "[x] is not below [lo]", which for
    doubles reads "[x >= lo] or [x] is NaN". *)

(** [x] is not below [lo] and not above [hi]: for doubles, [x] is in
    [[lo, hi]] or [x] is NaN. *)
Definition within (lo hi x : num) : Prop :=
  ltb x lo = false /\ ltb hi x = false.

(** [<] is irreflexive and transitive.  Both hold of [<] on doubles, NaN
    and signed zeros included ([binary64_partial_order] below). *)
Record PartialOrder : Prop := {
  lt_irreflexive : forall x : num, ltb x x = false;
  lt_transitive : forall x y z : num,
    ltb x y = true -> ltb y z = true -> ltb x z = true
}.

(** Zero is not below zero, no square is below zero, and no sum of two
    numbers that are not below zero is.  These hold on doubles, where such
    a square or sum may be NaN ([binary64_not_negative] below). *)
Record NotNegative : Prop := {
  zero_not_negative : ltb zero zero = false;
  square_not_negative : forall x : num, ltb (mul x x) zero = false;
  sum_not_negative : forall x y : num,
    ltb x zero = false -> ltb y zero = false -> ltb (add x y) zero = false
}.

(** The entry of the residual [X - W * H] at row [a], column [j], for the
    matrix [H] whose entries are [h i j]: the product is accumulated from
    zero over [i = 0 .. k-1]. *)
Definition residual_entry (W X : @Matrix num) (k : nat) (h : nat -> nat -> num)
    (a j : nat) : num :=
  sub (coeff X a j)
      (for_loop k (fun i acc => add acc (mul (coeff W a i) (h i j))) zero).

(** The sum of the squares of the entries of the residual, column after
    column, accumulated from zero. *)
Definition residual_cost (W X : @Matrix num) (k s : nat) (h : nat -> nat -> num) : num :=
  fold_left (fun acc r => add acc (mul r r))
    (flat_map (fun j => map (fun a => residual_entry W X k h a j) (seq 0 (rows W)))
              (seq 0 s))
    zero.

(** The bests of the particles [0 .. n-1] refer to each other: a personal
    best cost is the cost of the personal best position; the global best
    is either untouched (infinity and the zero vector, no personal best
    cost having been below infinity) or the personal best of a particle. *)
Record linked (cfg : PSOConfig) (W X : Matrix) (k s : nat)
    (n : nat) (st : @swarm num rng) : Prop := {
  lk_sized : sized (effective_pop cfg) (k * s) st;
  lk_personal : forall i, i < n ->
    pbest_cost st !!! i = eval_cost (lb cfg) W X k s (pbest_pos st !!! i);
  lk_global :
    (global_best_cost st = infinity
     /\ gbest_pos st = replicate (k * s) zero
     /\ forall i, i < n -> ltb (pbest_cost st !!! i) infinity = false)
    \/ exists m, m < n
         /\ global_best_cost st = pbest_cost st !!! m
         /\ gbest_pos st = pbest_pos st !!! m
}.

(** No personal best cost of the particles [0 .. n-1] is below the global
    best cost. *)
Definition lowest (n : nat) (st : @swarm num rng) : Prop :=
  forall j, j < n -> ltb (pbest_cost st !!! j) (global_best_cost st) = false.

(** The initialisation loop when the particles [0 .. n-1] are done: the
    personal best of each is its position and its cost; the global best is
    either untouched, no cost having been below infinity, or it is the
    first particle among those no cost is below. *)
Record started (cfg : PSOConfig) (W X : Matrix) (k s : nat)
    (n : nat) (st : @swarm num rng) : Prop := {
  sd_sized : sized (effective_pop cfg) (k * s) st;
  sd_rows : forall i, i < n ->
    pbest_pos st !!! i = pos st !!! i
    /\ pbest_cost st !!! i = eval_cost (lb cfg) W X k s (pos st !!! i)
    /\ cost st !!! i = pbest_cost st !!! i;
  sd_best :
    (global_best_cost st = infinity
     /\ gbest_pos st = replicate (k * s) zero
     /\ forall j, j < n -> ltb (pbest_cost st !!! j) infinity = false)
    \/ exists m, m < n
         /\ global_best_cost st = pbest_cost st !!! m
         /\ gbest_pos st = pos st !!! m
         /\ ltb (pbest_cost st !!! m) infinity = true
         /\ (forall j, j < n -> ltb (pbest_cost st !!! j) (pbest_cost st !!! m) = false)
         /\ (forall j, j < m -> pbest_cost st !!! j <> pbest_cost st !!! m)
}.

(** The positions of the particles [0 .. n-1] are within the bounds, and
    the global best position is untouched or within the bounds. *)
Record kept (cfg : PSOConfig) (k s : nat) (n : nat) (st : @swarm num rng) : Prop := {
  kp_sized : sized (effective_pop cfg) (k * s) st;
  kp_pos : forall i, i < n -> Forall (within (lb cfg) (ub cfg)) (pos st !!! i);
  kp_gbest :
    (global_best_cost st = infinity /\ gbest_pos st = replicate (k * s) zero)
    \/ Forall (within (lb cfg) (ub cfg)) (gbest_pos st)
}.

End Reach.

(** ** IEEE binary64 and the generator of the GNU C++ library

    The arithmetic of the program: Rocq's primitive floats are IEEE
    binary64 with round to nearest even, the [double] of the platforms the
    program is built for, without fused operations. *)

#[global] Instance binary64 : Arith float := {|
  zero := 0%float; one := 1%float; tenth := 0x1.999999999999ap-4%float;
  infinity := PrimFloat.infinity;
  add := PrimFloat.add; sub := PrimFloat.sub; mul := PrimFloat.mul;
  ltb := PrimFloat.ltb |}.

(** A decoded double that is not below zero: NaN, a zero, or a number of
    positive sign. *)
Definition SF_not_negative (x : spec_float) : Prop :=
  match x with
  | S754_nan | S754_zero _ => True
  | S754_infinity s | S754_finite s _ _ => s = false
  end.

(** [std::mt19937]: the 624 words of the state and the index of the next
    word to hand out. *)
Record mt_state : Type := {
  mt_words : list Z;
  mt_pos : nat
}.

Definition word32 (z : Z) : Z := (z mod 2 ^ 32)%Z.

(** Seeding: [x[0] = seed] and
    [x[i] = 1812433253 * (x[i-1] ^ (x[i-1] >> 30)) + i]. *)
Definition mt_seed_word (i : nat) (x : list Z) : list Z :=
  let prev := x !!! i in
  x ++ [word32 (1812433253 * Z.lxor prev (Z.shiftr prev 30) + Z.of_nat (S i))].

Definition mt_seed (sd : Z) : mt_state :=
  {| mt_words := for_loop 623 mt_seed_word [word32 sd]; mt_pos := 624 |}.

(** One word of the regeneration of the state, in place. *)
Definition mt_twist_word (k : nat) (x : list Z) : list Z :=
  let y := Z.lor (Z.land (x !!! k) 0x80000000)
                 (Z.land (x !!! ((k + 1) mod 624)) 0x7fffffff) in
  let v := Z.lxor (Z.lxor (x !!! ((k + 397) mod 624)) (Z.shiftr y 1))
                  (if Z.odd y then 0x9908b0df else 0)%Z in
  <[k := v]> x.

Definition mt_temper (y : Z) : Z :=
  let y := Z.lxor y (Z.land (Z.shiftr y 11) 0xffffffff) in
  let y := Z.lxor y (Z.land (Z.shiftl y 7) 0x9d2c5680) in
  let y := Z.lxor y (Z.land (Z.shiftl y 15) 0xefc60000) in
  Z.lxor y (Z.shiftr y 18).

(** [rng()] *)
Definition mt_next (g : mt_state) : Z * mt_state :=
  let g := if 624 <=? mt_pos g
           then {| mt_words := for_loop 624 mt_twist_word (mt_words g); mt_pos := 0 |}
           else g in
  (mt_temper (mt_words g !!! mt_pos g),
   {| mt_words := mt_words g; mt_pos := S (mt_pos g) |}).

Definition float_of_word (z : Z) : float := PrimFloat.of_uint63 (Uint63.of_Z z).

(** [std::generate_canonical<double, 53>(rng)] as the GNU library computes
    it: two words, [(x0 + x1 * 2^32) / 2^64], and the largest double below
    one when that rounds to one. *)
Definition mt_canonical (g : mt_state) : float * mt_state :=
  let '(x0, g1) := mt_next g in
  let '(x1, g2) := mt_next g1 in
  let sum := (0 + float_of_word x0 * 1)%float in
  let sum := (sum + float_of_word x1 * 0x1p32)%float in
  let ret := (sum / 0x1p64)%float in
  (if PrimFloat.leb 1 ret then 0x1.fffffffffffffp-1%float else ret, g2).

(** [std::uniform_real_distribution<double>(a, b)(rng)] of the GNU library. *)
Definition mt_uniform (a b : float) (g : mt_state) : float * mt_state :=
  let '(u, g') := mt_canonical g in
  ((u * (b - a) + a)%float, g').

#[global] Instance mt_rng : Rng float mt_state := {|
  mt19937 := mt_seed; uniform := mt_uniform |}.

(** The defaults of [PSOConfig] for the coefficients ([0.729], [1.49445])
    and the bounds, five particles, three iterations, seed 42. *)
Definition cfgD : @PSOConfig float :=
  {| population := 5; max_iters := 3;
     inertia := 0x1.753f7ced91687p-1%float;
     c1 := 0x1.7e94467381d7ep+0%float; c2 := 0x1.7e94467381d7ep+0%float;
     lb := 0%float; ub := 10%float; verbose := true; seed := 42 |}.

(** [W = [[1, 0], [0, 1]]] and [X = [[1, 2], [3, 4]]] in doubles. *)
Definition WD : @ndarray float :=
  {| shape := [2; 2]%Z; buf := [1; 0; 0; 1]%float |}.
Definition XD : @ndarray float :=
  {| shape := [2; 2]%Z; buf := [1; 2; 3; 4]%float |}.

(** [W = [[1]]] and [X = [[1e200]]]: every cost in the box [[1, 10]]
    overflows to infinity. *)
Definition W_one : @ndarray float := {| shape := [1; 1]%Z; buf := [1%float] |}.
Definition X_far : @ndarray float :=
  {| shape := [1; 1]%Z; buf := [0x1.4e718d7d7625ap+664%float] |}.

(** [W = [[1e308, -1e308]]] and [X = [[0]]]: with entries of [H] at least
    2 the product [W * H] is [inf - inf]. *)
Definition W_cancel : @ndarray float :=
  {| shape := [1; 2]%Z;
     buf := [0x1.1ccf385ebc8a0p+1023; -0x1.1ccf385ebc8a0p+1023]%float |}.
Definition X_zero : @ndarray float := {| shape := [1; 1]%Z; buf := [0%float] |}.

(** The bounds [[1, 10]], and the run without iterations. *)
Definition cfg_far : @PSOConfig float := set_bounds cfgD 1%float 10%float.
Definition cfg_far0 : @PSOConfig float := set_max_iters cfg_far 0.

(** The lower bound 2. *)
Definition cfg_two : @PSOConfig float := set_bounds cfgD 2%float 10%float.

(** [c1 = c2 = 1e308], seed 1, and [X = [[5]]]: velocities overflow. *)
Definition cfg_huge : @PSOConfig float :=
  {| population := 5; max_iters := 3;
     inertia := 0x1.753f7ced91687p-1%float;
     c1 := 0x1.1ccf385ebc8a0p+1023%float; c2 := 0x1.1ccf385ebc8a0p+1023%float;
     lb := 0%float; ub := 10%float; verbose := true; seed := 1 |}.
Definition X_near : @ndarray float := {| shape := [1; 1]%Z; buf := [5%float] |}.

(** The bounds crossed: [lb = 10] and [ub = 0]. *)
Definition cfg_crossed : @PSOConfig float := set_bounds cfgD 10%float 0%float.

(** * Properties *)

(** ** Counted loops *)

Lemma for_loop_S {S : Type} (n : nat) (body : nat -> S -> S) (st : S) :
  for_loop (Datatypes.S n) body st = body n (for_loop n body st).
Proof. reflexivity. Qed.

(** The invariant rule of a counted loop, with the counter visible. *)
Lemma for_loop_inv {S : Type} (P : nat -> S -> Prop) (n : nat)
    (body : nat -> S -> S) (st : S) :
  P 0 st ->
  (forall i s, i < n -> P i s -> P (Datatypes.S i) (body i s)) ->
  P n (for_loop n body st).
Proof.
  intros H0 Hstep. induction n as [|n IH]; [exact H0|].
  simpl. apply Hstep; [lia|]. apply IH. intros i s Hi. apply Hstep. lia.
Qed.

Lemma for_loop_fold {S : Type} (n : nat) (body : nat -> S -> S) (st : S) :
  for_loop n body st = fold_left (fun s i => body i s) (seq 0 n) st.
Proof.
  induction n as [|n IH]; [reflexivity|].
  rewrite seq_S, fold_left_app. simpl. now rewrite IH.
Qed.

Lemma fold_left_map_event {S A B : Type} (f : S -> B -> S) (g : A -> B)
    (l : list A) (st : S) :
  fold_left f (map g l) st = fold_left (fun s x => f s (g x)) l st.
Proof. revert st. induction l as [|x l IH]; intros st; simpl; [reflexivity|apply IH]. Qed.

Section Properties.
Context {num : Type} {AR : Arith num} {rng : Type} {RG : Rng num rng}.

Implicit Types (cfg cfgA cfgB : @PSOConfig num) (W X : @Matrix num) (k s : nat).
Implicit Types (st : @swarm num rng) (W_np X_np : @ndarray num).

(** ** The checks on the arguments *)

Lemma fit_run_raises cfg (W_np X_np : ndarray) :
  raises (fit_run cfg W_np X_np) <->
  ndim W_np <> 2 \/ ndim X_np <> 2 \/
  to_int (shape W_np !!! 0) <> to_int (shape X_np !!! 0).
Proof.
  unfold fit_run.
  destruct (Nat.eqb_spec (ndim W_np) 2) as [HW|HW]; simpl.
  2:{ split; [intros _; now left|intros _; exact I]. }
  destruct (Nat.eqb_spec (ndim X_np) 2) as [HX|HX]; simpl.
  2:{ split; [intros _; right; now left|intros _; exact I]. }
  destruct (Z.eqb_spec (to_int (shape W_np !!! 0)) (to_int (shape X_np !!! 0)))
    as [Hg|Hg]; simpl.
  - destruct (int_dims _ _ _); simpl;
      (split; [intros []|]; intros [H|[H|H]]; contradiction).
  - split; [intros _; right; now right|intros _; exact I].
Qed.

Lemma fit_raises cfg (W_np X_np : ndarray) :
  raises (fit cfg W_np X_np) <-> raises (fit_run cfg W_np X_np).
Proof.
  unfold fit. destruct (fit_run cfg W_np X_np) as [[st o]|e|]; simpl; tauto.
Qed.

(** [fit] raises exactly when an argument is not two-dimensional or the row
    counts, converted to [int], differ; the exception carries no swarm, no
    generator and no output. *)
Lemma fit_raises_iff cfg (W_np X_np : ndarray) :
  raises (fit cfg W_np X_np) <->
  ndim W_np <> 2 \/ ndim X_np <> 2 \/
  to_int (shape W_np !!! 0) <> to_int (shape X_np !!! 0).
Proof. rewrite fit_raises. apply fit_run_raises. Qed.

(** The three ways a call goes on after the checks of lines 47 and 54. *)
Lemma fit_run_cases cfg (W_np X_np : ndarray) :
  let dims := int_dims (to_int (shape W_np !!! 0)) (to_int (shape W_np !!! 1))
                       (to_int (shape X_np !!! 1)) in
  (raises (fit_run cfg W_np X_np))
  \/ (dims = false /\ fit_run cfg W_np X_np = Undefined)
  \/ (dims = true /\
      fit_run cfg W_np X_np =
        Ok (fit_loops cfg (eigen_W W_np) (eigen_X X_np) (dim_k W_np) (dim_s X_np))).
Proof.
  intros dims. unfold fit_run.
  destruct (negb (ndim W_np =? 2) || negb (ndim X_np =? 2)); [now left|].
  destruct (Z.eqb_spec (to_int (shape W_np !!! 0)) (to_int (shape X_np !!! 0)))
    as [Hg|Hg]; simpl; [|now left].
  fold dims. destruct dims; simpl; [|right; now left].
  right. right. split; [reflexivity|].
  unfold eigen_W, eigen_X, dim_k, dim_s. now rewrite Hg.
Qed.

(** What [fit] returns when the checks pass and the dimensions are those of
    [int_dims]. *)
Lemma fit_run_Ok cfg (W_np X_np : ndarray) :
  ~ raises (fit_run cfg W_np X_np) ->
  int_dims (to_int (shape W_np !!! 0)) (to_int (shape W_np !!! 1))
           (to_int (shape X_np !!! 1)) = true ->
  fit_run cfg W_np X_np =
    Ok (fit_loops cfg (eigen_W W_np) (eigen_X X_np) (dim_k W_np) (dim_s X_np)).
Proof.
  intros Hn Hd.
  destruct (fit_run_cases cfg W_np X_np) as [H|[[H _]|[_ H]]];
    [contradiction|congruence|exact H].
Qed.

Lemma fit_Ok cfg (W_np X_np : ndarray) :
  ~ raises (fit cfg W_np X_np) ->
  int_dims (to_int (shape W_np !!! 0)) (to_int (shape W_np !!! 1))
           (to_int (shape X_np !!! 1)) = true ->
  fit cfg W_np X_np =
    Ok (fit_result cfg (eigen_W W_np) (eigen_X X_np) (dim_k W_np) (dim_s X_np)).
Proof.
  intros Hn Hd. rewrite fit_raises in Hn. unfold fit, fit_result.
  rewrite (fit_run_Ok _ _ _ Hn Hd).
  now destruct (fit_loops cfg (eigen_W W_np) (eigen_X X_np) (dim_k W_np) (dim_s X_np)).
Qed.

(** When [fit] returns a value, it is the array built from the global best
    of the run. *)
Lemma fit_returns cfg (W_np X_np : ndarray) (H : ndarray) :
  fit cfg W_np X_np = Ok H ->
  H = fit_result cfg (eigen_W W_np) (eigen_X X_np) (dim_k W_np) (dim_s X_np).
Proof.
  intros Hfit. unfold fit in Hfit.
  destruct (fit_run_cases cfg W_np X_np) as [Hr|[[_ Hu]|[_ Ho]]].
  - destruct (fit_run cfg W_np X_np) as [[st o]|e|]; simpl in Hr;
      [contradiction|discriminate|contradiction].
  - rewrite Hu in Hfit. discriminate.
  - rewrite Ho in Hfit. unfold fit_result.
    destruct (fit_loops cfg (eigen_W W_np) (eigen_X X_np) (dim_k W_np) (dim_s X_np)).
    simpl. congruence.
Qed.

(** ** The loops as a sequence of evaluations *)

Lemma iteration_fst cfg W X k s (pop dim n : nat) (so : swarm * list (nat * num)) :
  fst (for_loop n (iteration cfg W X k s pop dim) so) =
  for_loop n (fun _ st => for_loop pop (update_particle cfg W X k s dim) st) (fst so).
Proof.
  induction n as [|n IH]; [reflexivity|].
  simpl. now rewrite IH.
Qed.

Lemma fit_loops_fst cfg W X k s :
  fst (fit_loops cfg W X k s) =
  for_loop (Z.to_nat (max_iters cfg))
    (fun _ st => for_loop (effective_pop cfg) (update_particle cfg W X k s (k * s)) st)
    (init_swarm cfg W X k s).
Proof. unfold fit_loops. now rewrite iteration_fst. Qed.

Lemma swarm_after_app cfg W X k s (evs1 evs2 : list event) :
  swarm_after cfg W X k s (evs1 ++ evs2) =
  fold_left (fun st e => exec cfg W X k s e st) evs2 (swarm_after cfg W X k s evs1).
Proof. unfold swarm_after. now rewrite fold_left_app. Qed.

Lemma swarm_after_init cfg W X k s :
  swarm_after cfg W X k s (map Init (seq 0 (effective_pop cfg))) = init_swarm cfg W X k s.
Proof.
  unfold swarm_after, init_swarm. rewrite fold_left_map_event.
  symmetry. apply (for_loop_fold _ (init_particle cfg W X k s (k * s))).
Qed.

Lemma rounds_fold cfg W X k s (pop n : nat) st :
  fold_left (fun st e => exec cfg W X k s e st)
    (concat (replicate n (map Update (seq 0 pop)))) st =
  for_loop n (fun _ st => for_loop pop (update_particle cfg W X k s (k * s)) st) st.
Proof.
  revert st. induction n as [|n IH]; intros st; [reflexivity|].
  replace (Datatypes.S n) with (n + 1) by lia.
  rewrite replicate_add, concat_app, fold_left_app, IH.
  replace (n + 1) with (Datatypes.S n) by lia.
  simpl. rewrite app_nil_r, fold_left_map_event.
  symmetry. apply (for_loop_fold pop (update_particle cfg W X k s (k * s))).
Qed.

(** The swarm the loops of [fit] end with is the swarm after all the
    evaluations of the run. *)
Lemma fit_loops_evaluations cfg W X k s :
  fst (fit_loops cfg W X k s) =
  swarm_after cfg W X k s
    (evaluations (effective_pop cfg) (Z.to_nat (max_iters cfg))).
Proof.
  rewrite fit_loops_fst. unfold evaluations.
  rewrite swarm_after_app, swarm_after_init. now rewrite rounds_fold.
Qed.

(** ** Vectors *)

Lemma list_eq_lookup_total (l1 l2 : list num) :
  length l1 = length l2 ->
  (forall i, i < length l1 -> l1 !!! i = l2 !!! i) ->
  l1 = l2.
Proof.
  intros Hlen H. apply (list_eq_same_length l1 l2 (length l1)); [congruence|reflexivity|].
  intros i x y Hi H1 H2.
  apply list_lookup_total_correct in H1, H2. rewrite <- H1, <- H2. now apply H.
Qed.

(** ** Result extraction *)

(** The two loops of lines 155-159 copy the first [k*s] entries of the
    global best into the buffer, index by index. *)
Lemma build_H_buf_inv k s (g : list num) :
  let ptrH := buf (build_H k s g) in
  length ptrH = k * s /\ forall n, n < s * k -> ptrH !!! n = g !!! n.
Proof.
  unfold build_H; simpl.
  apply (for_loop_inv
    (fun j (ptrH : list num) =>
       length ptrH = k * s /\ forall n, n < j * k -> ptrH !!! n = g !!! n)).
  - split; [apply length_replicate|]. intros n Hn. lia.
  - intros j ptrH Hj [Hlen Hcol].
    assert (Hin :
      length (for_loop k (fun i q => <[j * k + i := g !!! (j * k + i)]> q) ptrH) = k * s /\
      forall n, n < j * k + k ->
        for_loop k (fun i q => <[j * k + i := g !!! (j * k + i)]> q) ptrH !!! n = g !!! n).
    { apply (for_loop_inv
        (fun i (q : list num) =>
           length q = k * s /\ forall n, n < j * k + i -> q !!! n = g !!! n)).
      - split; [exact Hlen|]. intros n Hn. apply Hcol. lia.
      - intros i q Hi [Hq Hpre]. split; [now rewrite length_insert|].
        intros n Hn. destruct (Nat.eq_dec n (j * k + i)) as [->|Hne].
        + apply list_lookup_total_insert_eq. rewrite Hq. nia.
        + rewrite list_lookup_total_insert_ne by congruence. apply Hpre. lia. }
    destruct Hin as [Hl Hv]. split; [exact Hl|].
    intros n Hn. apply Hv. lia.
Qed.

Lemma build_H_buf k s (g : list num) :
  length g = k * s -> buf (build_H k s g) = g.
Proof.
  intros Hg. destruct (build_H_buf_inv k s g) as [Hlen Hv].
  apply list_eq_lookup_total; [congruence|].
  intros i Hi. apply Hv. rewrite Hlen in Hi. lia.
Qed.

Lemma build_H_shape k s (g : list num) :
  shape (build_H k s g) = [Z.of_nat k; Z.of_nat s].
Proof. reflexivity. Qed.

(** Read back as the [k] by [s] numpy array it is, the result has the entry
    of flat index [i*s + j] at row [i], column [j]. *)
Lemma np_at_build_H k s (g : list num) (i j : nat) :
  i < k -> j < s ->
  np_at (build_H k s g) i j = g !!! (i * s + j).
Proof.
  intros Hi Hj. destruct (build_H_buf_inv k s g) as [_ Hv].
  unfold np_at. rewrite build_H_shape.
  change ([Z.of_nat k; Z.of_nat s] !!! 1) with (Z.of_nat s).
  rewrite Nat2Z.id. apply Hv. nia.
Qed.

(** The returned array, for every call that passes the checks: row [i],
    column [j] holds the entry of flat index [i*s + j] of the global best
    position. *)
Lemma fit_result_row_major cfg W X k s (i j : nat) :
  i < k -> j < s ->
  np_at (fit_result cfg W X k s) i j
  = gbest_pos (fst (fit_loops cfg W X k s)) !!! (i * s + j).
Proof. intros Hi Hj. now apply np_at_build_H. Qed.

(** [Eigen::Map] reads the C-contiguous buffer of a numpy array column by
    column: entry [(a, b)] of the mapped [r] by [c] matrix is the entry of
    flat index [b*r + a] of the buffer. *)
Lemma coeff_Matrix_Map (ptr : list num) (r c a b : nat) :
  a < r -> b < c ->
  coeff (Matrix_Map ptr r c) a b = ptr !!! (b * r + a).
Proof.
  intros Ha Hb. unfold coeff, Matrix_Map. simpl.
  apply lookup_total_take_lt. nia.
Qed.

(** ** The population floor *)

Lemma fit_loops_population cfg (p : Z) W X k s :
  (p < 2)%Z ->
  fit_loops (set_population cfg p) W X k s = fit_loops (set_population cfg 2) W X k s.
Proof.
  intros Hp. unfold fit_loops, effective_pop. simpl population.
  destruct (Z.ltb_spec p 2) as [_|Hge]; [|lia].
  reflexivity.
Qed.

(** Claim C7.  With a population below 2 ([0], [1], or a negative number)
    a call of [fit] behaves as the call with population 2: the swarm at
    the end of the loops (generator included) and the printed lines are
    the same, the returned matrix is the same, and an exception is raised
    by the one exactly when it is raised by the other, which is decided by
    the shapes alone. *)
Theorem population_floor cfg (p : Z) W_np X_np :
  (p < 2)%Z ->
  fit_run (set_population cfg p) W_np X_np = fit_run (set_population cfg 2) W_np X_np
  /\ fit (set_population cfg p) W_np X_np = fit (set_population cfg 2) W_np X_np
  /\ (raises (fit (set_population cfg p) W_np X_np) <->
      ndim W_np <> 2 \/ ndim X_np <> 2 \/
      to_int (shape W_np !!! 0) <> to_int (shape X_np !!! 0)).
Proof.
  intros Hp.
  assert (Hrun : fit_run (set_population cfg p) W_np X_np
                 = fit_run (set_population cfg 2) W_np X_np).
  { unfold fit_run.
    destruct (negb (ndim W_np =? 2) || negb (ndim X_np =? 2)); [reflexivity|].
    destruct (negb (Z.eqb _ _)); [reflexivity|].
    destruct (negb (int_dims _ _ _)); [reflexivity|].
    now rewrite fit_loops_population. }
  split; [exact Hrun|]. split.
  - unfold fit. now rewrite Hrun.
  - rewrite fit_raises. apply fit_run_raises.
Qed.

(** ** Determinism *)

Lemma fit_loops_verbose cfg (v : bool) W X k s :
  fst (fit_loops (set_verbose cfg v) W X k s) = fst (fit_loops cfg W X k s).
Proof. rewrite !fit_loops_fst. reflexivity. Qed.

Lemma fit_verbose cfg (v : bool) W_np X_np :
  fit (set_verbose cfg v) W_np X_np = fit cfg W_np X_np.
Proof.
  unfold fit, fit_run.
  destruct (negb (ndim W_np =? 2) || negb (ndim X_np =? 2)); [reflexivity|].
  destruct (negb (Z.eqb _ _)); [reflexivity|].
  destruct (negb (int_dims _ _ _)); [reflexivity|].
  pose proof (fit_loops_verbose cfg v
    (Matrix_Map (buf W_np) (Z.to_nat (to_int (shape W_np !!! 0)))
                (Z.to_nat (to_int (shape W_np !!! 1))))
    (Matrix_Map (buf X_np) (Z.to_nat (to_int (shape X_np !!! 0)))
                (Z.to_nat (to_int (shape X_np !!! 1))))
    (Z.to_nat (to_int (shape W_np !!! 1)))
    (Z.to_nat (to_int (shape X_np !!! 1)))) as Hv.
  destruct (fit_loops (set_verbose cfg v) _ _ _ _) as [st1 o1].
  destruct (fit_loops cfg _ _ _ _) as [st2 o2].
  simpl in Hv. now subst.
Qed.

Lemma PSO_new_seeded cfg (clock : Z) :
  seed cfg <> 0%Z -> PSO_new cfg clock = cfg.
Proof.
  intros Hs. unfold PSO_new. destruct (Z.eqb_spec (seed cfg) 0); [contradiction|reflexivity].
Qed.

(** Claim C2.  Two [PSO] objects built from configurations with the same
    nonzero seed and the same population, max_iters, inertia, c1, c2, lb
    and ub, at whatever readings of the clock and whatever the verbose
    flags, return the same matrix for the same [W] and [X]; and the whole
    run is the same: after every sequence of evaluations the two swarms
    (generator, positions, velocities, bests) are equal. *)
Theorem fit_deterministic cfgA cfgB (clockA clockB : Z) W_np X_np :
  seed cfgA <> 0%Z ->
  seed cfgA = seed cfgB ->
  population cfgA = population cfgB ->
  max_iters cfgA = max_iters cfgB ->
  inertia cfgA = inertia cfgB ->
  c1 cfgA = c1 cfgB ->
  c2 cfgA = c2 cfgB ->
  lb cfgA = lb cfgB ->
  ub cfgA = ub cfgB ->
  fit (PSO_new cfgA clockA) W_np X_np = fit (PSO_new cfgB clockB) W_np X_np
  /\ forall W X k s (evs : list event),
       swarm_after (PSO_new cfgA clockA) W X k s evs
       = swarm_after (PSO_new cfgB clockB) W X k s evs.
Proof.
  intros Hnz Hseed Hpop Hit Hw Hc1 Hc2 Hlb Hub.
  rewrite (PSO_new_seeded cfgA clockA Hnz).
  rewrite (PSO_new_seeded cfgB clockB) by congruence.
  assert (HB : cfgB = set_verbose cfgA (verbose cfgB)).
  { destruct cfgA, cfgB; unfold set_verbose; simpl in *; congruence. }
  rewrite HB. split.
  - symmetry. apply fit_verbose.
  - reflexivity.
Qed.

Lemma Forall_entries (P : num -> Prop) (l : list num) :
  (forall d, d < length l -> P (l !!! d)) -> Forall P l.
Proof. intros H. rewrite Forall_lookup_total. exact H. Qed.

Lemma Forall_entry (P : num -> Prop) (l : list num) (d : nat) :
  Forall P l -> d < length l -> P (l !!! d).
Proof. intros H Hd. rewrite Forall_lookup_total in H. now apply H. Qed.

(** ** Vectors of vectors *)

Lemma insert_self (m : list (list num)) (i : nat) : <[i := m !!! i]> m = m.
Proof.
  apply list_insert_id'. intros Hi. now apply list_lookup_lookup_total_lt.
Qed.

Lemma set2_insert (m : list (list num)) (i d : nat) (v : num) (r : list num) :
  i < length m -> set2 (<[i := r]> m) i d v = <[i := <[d := v]> r]> m.
Proof.
  intros Hi. unfold set2. rewrite list_lookup_total_insert_eq by exact Hi.
  apply list_insert_insert_eq.
Qed.

Lemma get2_insert (m : list (list num)) (i d : nat) (r : list num) :
  i < length m -> get2 (<[i := r]> m) i d = r !!! d.
Proof. intros Hi. unfold get2. now rewrite list_lookup_total_insert_eq. Qed.

(** ** Initialisation of one particle *)

Lemma init_dim_fields cfg (i d : nat) st :
  let u1 := uniform (lb cfg) (ub cfg) (rng_st st) in
  let u2 := uniform (lb cfg) (ub cfg) (snd u1) in
  let u3 := uniform (lb cfg) (ub cfg) (snd u2) in
  init_dim cfg i d st =
  {| rng_st := snd u3;
     pos := set2 (pos st) i d (fst u1);
     vel := set2 (vel st) i d (mul (sub (fst u2) (fst u3)) tenth);
     pbest_pos := set2 (pbest_pos st) i d (get2 (set2 (pos st) i d (fst u1)) i d);
     pbest_cost := pbest_cost st; cost := cost st;
     global_best_cost := global_best_cost st; gbest_pos := gbest_pos st |}.
Proof.
  simpl. unfold init_dim, initDist.
  destruct (uniform (lb cfg) (ub cfg) (rng_st st)) as [x g1]. simpl.
  destruct (uniform (lb cfg) (ub cfg) g1) as [a g2]. simpl.
  destruct (uniform (lb cfg) (ub cfg) g2) as [b g3]. reflexivity.
Qed.

(** The inner loop of the initialisation, after [n] dimensions: row [i] of
    [pos], [vel] and [pbest_pos] holds the draws in its first [n] entries,
    three draws were taken per entry, and nothing else has changed. *)
Lemma init_dims cfg (i dim n : nat) st :
  i < length (pos st) -> i < length (vel st) -> i < length (pbest_pos st) ->
  length (pos st !!! i) = dim -> length (vel st !!! i) = dim ->
  length (pbest_pos st !!! i) = dim ->
  n <= dim ->
  exists p v pb : list num,
    for_loop n (init_dim cfg i) st =
      {| rng_st := init_rng_after (lb cfg) (ub cfg) (3 * n) (rng_st st);
         pos := <[i := p]> (pos st);
         vel := <[i := v]> (vel st);
         pbest_pos := <[i := pb]> (pbest_pos st);
         pbest_cost := pbest_cost st; cost := cost st;
         global_best_cost := global_best_cost st; gbest_pos := gbest_pos st |}
    /\ length p = dim /\ length v = dim /\ length pb = dim
    /\ (forall d, d < n ->
          p !!! d = init_draw (lb cfg) (ub cfg) (3 * d) (rng_st st)
          /\ v !!! d = mul (sub (init_draw (lb cfg) (ub cfg) (3 * d + 1) (rng_st st))
                                (init_draw (lb cfg) (ub cfg) (3 * d + 2) (rng_st st)))
                           tenth
          /\ pb !!! d = p !!! d)
    /\ (forall d, n <= d ->
          p !!! d = get2 (pos st) i d /\ v !!! d = get2 (vel st) i d
          /\ pb !!! d = get2 (pbest_pos st) i d).
Proof.
  intros Hip Hiv Hib Hlp Hlv Hlb Hn.
  induction n as [|n IH].
  - exists (pos st !!! i), (vel st !!! i), (pbest_pos st !!! i).
    split; [|repeat split; try assumption; lia].
    simpl. rewrite !insert_self. now destruct st.
  - destruct IH as (p & v & pb & Heq & Hp & Hv & Hb & Hlt & Hge); [lia|].
    rewrite for_loop_S, Heq, init_dim_fields.
    cbn [rng_st pos vel pbest_pos pbest_cost cost global_best_cost gbest_pos].
    rewrite !set2_insert by assumption.
    rewrite get2_insert by assumption.
    rewrite list_lookup_total_insert_eq by lia.
    set (g := init_rng_after (lb cfg) (ub cfg) (3 * n) (rng_st st)).
    set (x := fst (uniform (lb cfg) (ub cfg) g)).
    set (g1 := snd (uniform (lb cfg) (ub cfg) g)).
    set (a := fst (uniform (lb cfg) (ub cfg) g1)).
    set (g2 := snd (uniform (lb cfg) (ub cfg) g1)).
    set (b := fst (uniform (lb cfg) (ub cfg) g2)).
    exists (<[n := x]> p), (<[n := mul (sub a b) tenth]> v), (<[n := x]> pb).
    split.
    { f_equal. replace (3 * Datatypes.S n) with (Datatypes.S (Datatypes.S (Datatypes.S (3 * n)))) by lia.
      reflexivity. }
    rewrite !length_insert. repeat split; try assumption.
    + destruct (Nat.eq_dec d n) as [->|Hne].
      * rewrite list_lookup_total_insert_eq by lia. reflexivity.
      * rewrite list_lookup_total_insert_ne by congruence. apply Hlt. lia.
    + destruct (Nat.eq_dec d n) as [->|Hne].
      * rewrite list_lookup_total_insert_eq by lia.
        unfold init_draw.
        replace (3 * n + 1) with (Datatypes.S (3 * n)) by lia.
        replace (3 * n + 2) with (Datatypes.S (Datatypes.S (3 * n))) by lia.
        reflexivity.
      * rewrite list_lookup_total_insert_ne by congruence. apply Hlt. lia.
    + destruct (Nat.eq_dec d n) as [->|Hne].
      * now rewrite !list_lookup_total_insert_eq by lia.
      * rewrite !list_lookup_total_insert_ne by congruence. apply Hlt. lia.
    + rewrite list_lookup_total_insert_ne by lia. apply Hge. lia.
    + rewrite list_lookup_total_insert_ne by lia. apply Hge. lia.
    + rewrite list_lookup_total_insert_ne by lia. apply Hge. lia.
Qed.

(** Lines 101-113 for particle [i]: the row of draws [p] becomes its
    position and its personal best, the cost of [p] its personal best cost,
    and the global best is replaced when that cost is below it. *)
Lemma init_particle_summary cfg W X k s (pop dim i : nat) st :
  sized pop dim st -> i < pop ->
  exists p v : list num,
    init_particle cfg W X k s dim i st =
      (let c := cost_of cfg W X k s p in
       {| rng_st := init_rng_after (lb cfg) (ub cfg) (3 * dim) (rng_st st);
          pos := <[i := p]> (pos st);
          vel := <[i := v]> (vel st);
          pbest_pos := <[i := p]> (pbest_pos st);
          pbest_cost := <[i := c]> (pbest_cost st);
          cost := <[i := c]> (cost st);
          global_best_cost :=
            if ltb c (global_best_cost st) then c else global_best_cost st;
          gbest_pos :=
            if ltb c (global_best_cost st) then p else gbest_pos st |})
    /\ length p = dim /\ length v = dim
    /\ forall d, d < dim ->
         p !!! d = init_draw (lb cfg) (ub cfg) (3 * d) (rng_st st)
         /\ v !!! d = mul (sub (init_draw (lb cfg) (ub cfg) (3 * d + 1) (rng_st st))
                               (init_draw (lb cfg) (ub cfg) (3 * d + 2) (rng_st st)))
                          tenth.
Proof.
  intros Hsz Hi. destruct Hsz.
  destruct (init_dims cfg i dim dim st) as (p & v & pb & Heq & Hp & Hv & Hb & Hlt & _);
    try lia; auto.
  assert (Hpb : pb = p).
  { apply list_eq_lookup_total; [congruence|]. intros d Hd. apply Hlt. lia. }
  subst pb. exists p, v. split; [|repeat split; try assumption; apply Hlt; assumption].
  unfold init_particle. rewrite Heq. unfold init_eval.
  cbn [rng_st pos vel pbest_pos pbest_cost cost global_best_cost gbest_pos].
  rewrite !list_lookup_total_insert_eq by lia. reflexivity.
Qed.

(** ** The move of one particle *)

Lemma update_dim_fields cfg (i d : nat) st :
  let u1 := uniform zero one (rng_st st) in
  let u2 := uniform zero one (snd u1) in
  let v := new_velocity cfg (fst u1) (fst u2) (get2 (vel st) i d) (get2 (pos st) i d)
             (get2 (pbest_pos st) i d) (gbest_pos st !!! d) in
  update_dim cfg i d st =
  {| rng_st := snd u2;
     pos := set2 (pos st) i d
              (project cfg (add (get2 (pos st) i d) (get2 (set2 (vel st) i d v) i d)));
     vel := set2 (vel st) i d v;
     pbest_pos := pbest_pos st;
     pbest_cost := pbest_cost st; cost := cost st;
     global_best_cost := global_best_cost st; gbest_pos := gbest_pos st |}.
Proof.
  simpl. unfold update_dim, unif01.
  destruct (uniform zero one (rng_st st)) as [r1 g1]. simpl.
  destruct (uniform zero one g1) as [r2 g2]. reflexivity.
Qed.

(** The inner loop of the move, after [n] dimensions: two draws were taken
    per dimension, in the order [r1], [r2]; the first [n] entries of row
    [i] of [vel] and [pos] hold the new velocity and the projected new
    position, computed from the old entries of the row and from the
    personal and global best as they were when the loop started. *)
Lemma update_dims cfg (i dim n : nat) st :
  i < length (pos st) -> i < length (vel st) ->
  length (pos st !!! i) = dim -> length (vel st !!! i) = dim ->
  n <= dim ->
  exists p v : list num,
    for_loop n (update_dim cfg i) st =
      {| rng_st := rng_after (2 * n) (rng_st st);
         pos := <[i := p]> (pos st);
         vel := <[i := v]> (vel st);
         pbest_pos := pbest_pos st;
         pbest_cost := pbest_cost st; cost := cost st;
         global_best_cost := global_best_cost st; gbest_pos := gbest_pos st |}
    /\ length p = dim /\ length v = dim
    /\ (forall d, d < n ->
          v !!! d = new_velocity cfg (draw (2 * d) (rng_st st)) (draw (2 * d + 1) (rng_st st))
                      (get2 (vel st) i d) (get2 (pos st) i d)
                      (get2 (pbest_pos st) i d) (gbest_pos st !!! d)
          /\ p !!! d = project cfg (add (get2 (pos st) i d) (v !!! d)))
    /\ (forall d, n <= d ->
          p !!! d = get2 (pos st) i d /\ v !!! d = get2 (vel st) i d).
Proof.
  intros Hip Hiv Hlp Hlv Hn.
  induction n as [|n IH].
  - exists (pos st !!! i), (vel st !!! i).
    split; [|repeat split; try assumption; lia].
    simpl. rewrite !insert_self. now destruct st.
  - destruct IH as (p & v & Heq & Hp & Hv & Hlt & Hge); [lia|].
    rewrite for_loop_S, Heq, update_dim_fields.
    cbn [rng_st pos vel pbest_pos pbest_cost cost global_best_cost gbest_pos].
    rewrite !set2_insert by assumption.
    rewrite !get2_insert by assumption.
    rewrite list_lookup_total_insert_eq by lia.
    destruct (Hge n (Nat.le_refl n)) as [Hpn Hvn]. rewrite Hpn, Hvn.
    set (g := rng_after (2 * n) (rng_st st)).
    set (r1 := fst (uniform zero one g)).
    set (g1 := snd (uniform zero one g)).
    set (r2 := fst (uniform zero one g1)).
    set (vn := new_velocity cfg r1 r2 (get2 (vel st) i n) (get2 (pos st) i n)
                 (get2 (pbest_pos st) i n) (gbest_pos st !!! n)).
    exists (<[n := project cfg (add (get2 (pos st) i n) vn)]> p), (<[n := vn]> v).
    split.
    { f_equal. replace (2 * Datatypes.S n) with (Datatypes.S (Datatypes.S (2 * n))) by lia.
      reflexivity. }
    rewrite !length_insert. repeat split; try assumption.
    + destruct (Nat.eq_dec d n) as [->|Hne].
      * rewrite list_lookup_total_insert_eq by lia.
        unfold draw. replace (2 * n + 1) with (Datatypes.S (2 * n)) by lia.
        reflexivity.
      * rewrite list_lookup_total_insert_ne by congruence. apply Hlt. lia.
    + destruct (Nat.eq_dec d n) as [->|Hne].
      * now rewrite !list_lookup_total_insert_eq by lia.
      * rewrite !list_lookup_total_insert_ne by congruence. apply Hlt. lia.
    + rewrite list_lookup_total_insert_ne by lia. apply Hge. lia.
    + rewrite list_lookup_total_insert_ne by lia. apply Hge. lia.
Qed.

(** Lines 117-143 for particle [i]. *)
Lemma update_particle_summary cfg W X k s (pop dim i : nat) st :
  sized pop dim st -> i < pop ->
  exists p v : list num,
    update_particle cfg W X k s dim i st =
      tracked cfg W X k s i p v (rng_after (2 * dim) (rng_st st)) st
    /\ length p = dim /\ length v = dim
    /\ forall d, d < dim ->
         v !!! d = new_velocity cfg (draw (2 * d) (rng_st st)) (draw (2 * d + 1) (rng_st st))
                     (get2 (vel st) i d) (get2 (pos st) i d)
                     (get2 (pbest_pos st) i d) (gbest_pos st !!! d)
         /\ p !!! d = project cfg (add (get2 (pos st) i d) (v !!! d)).
Proof.
  intros Hsz Hi. destruct Hsz.
  destruct (update_dims cfg i dim dim st) as (p & v & Heq & Hp & Hv & Hlt & _);
    try lia; auto.
  exists p, v. split; [|repeat split; try assumption; apply Hlt; assumption].
  unfold update_particle. rewrite Heq. unfold update_eval, tracked.
  cbn [rng_st pos vel pbest_pos pbest_cost cost global_best_cost gbest_pos].
  rewrite !list_lookup_total_insert_eq by lia.
  destruct (ltb (cost_of cfg W X k s p) (pbest_cost st !!! i)); reflexivity.
Qed.

(** ** Sizes *)

Lemma insert_row_length (m : list (list num)) (pop dim i j : nat) (p : list num) :
  (forall j, j < pop -> length (m !!! j) = dim) ->
  length p = dim -> j < pop ->
  length (<[i := p]> m !!! j) = dim.
Proof.
  intros Hrows Hp Hj. rewrite list_lookup_total_insert.
  destruct (decide (i = j /\ i < length m)); [exact Hp|now apply Hrows].
Qed.

Lemma fresh_swarm_sized (sd : Z) (pop dim : nat) :
  sized pop dim (fresh_swarm (rng := rng) sd pop dim).
Proof.
  split; simpl; rewrite ?length_replicate; try reflexivity;
    intros i Hi; rewrite lookup_total_replicate_2 by exact Hi;
    apply length_replicate.
Qed.

Lemma init_particle_sized cfg W X k s (pop dim i : nat) st :
  sized pop dim st -> i < pop -> sized pop dim (init_particle cfg W X k s dim i st).
Proof.
  intros Hsz Hi.
  destruct (init_particle_summary cfg W X k s pop dim i st Hsz Hi)
    as (p & v & Heq & Hp & Hv & _).
  rewrite Heq. destruct Hsz. split; simpl; rewrite ?length_insert; try assumption;
    try (intros j Hj; eapply insert_row_length; eassumption).
  now destruct (ltb _ _).
Qed.

Lemma tracked_sized cfg W X k s (pop dim i : nat) (p v : list num) (g : rng) st :
  sized pop dim st -> length p = dim -> length v = dim ->
  sized pop dim (tracked cfg W X k s i p v g st).
Proof.
  intros Hsz Hp Hv. destruct Hsz. unfold tracked.
  destruct (ltb _ (pbest_cost st !!! i));
    split; simpl; rewrite ?length_insert; try assumption;
    try (intros j Hj; eapply insert_row_length; eassumption).
  now destruct (ltb _ _).
Qed.

Lemma update_particle_sized cfg W X k s (pop dim i : nat) st :
  sized pop dim st -> i < pop -> sized pop dim (update_particle cfg W X k s dim i st).
Proof.
  intros Hsz Hi.
  destruct (update_particle_summary cfg W X k s pop dim i st Hsz Hi)
    as (p & v & Heq & Hp & Hv & _).
  rewrite Heq. now apply tracked_sized.
Qed.

Lemma init_swarm_sized cfg W X k s :
  sized (effective_pop cfg) (k * s) (init_swarm cfg W X k s).
Proof.
  unfold init_swarm.
  apply (for_loop_inv (fun _ st => sized (effective_pop cfg) (k * s) st)).
  - apply fresh_swarm_sized.
  - intros i st Hi Hsz. now apply init_particle_sized.
Qed.

(** ** The evaluations of a run *)

Lemma evaluations_split (pop iters : nat) :
  evaluations pop iters = init_evaluations pop ++ round_evaluations pop iters.
Proof. reflexivity. Qed.

Lemma round_evaluations_index (pop iters : nat) :
  Forall (fun e => exists i, e = Update i /\ i < pop) (round_evaluations pop iters).
Proof.
  unfold round_evaluations. induction iters as [|n IH]; simpl; [constructor|].
  apply Forall_app. split; [|exact IH].
  apply Forall_forall. intros e He. apply list_elem_of_In, in_map_iff in He.
  destruct He as (i & <- & Hin). apply in_seq in Hin. exists i. split; [reflexivity|lia].
Qed.

(** An invariant of the moves holds after every prefix of the iterations
    when it holds at the end of the initialisation. *)
Lemma rounds_inv cfg W X k s (P : swarm -> Prop) (pre post : list event) :
  P (init_swarm cfg W X k s) ->
  (forall i st, i < effective_pop cfg -> P st ->
     P (update_particle cfg W X k s (k * s) i st)) ->
  round_evaluations (effective_pop cfg) (Z.to_nat (max_iters cfg)) = pre ++ post ->
  P (swarm_after cfg W X k s (init_evaluations (effective_pop cfg) ++ pre)).
Proof.
  intros H0 Hstep Hsplit.
  pose proof (round_evaluations_index (effective_pop cfg) (Z.to_nat (max_iters cfg))) as Hidx.
  rewrite Hsplit in Hidx. apply Forall_app in Hidx. destruct Hidx as [Hpre _].
  clear Hsplit post.
  rewrite swarm_after_app. unfold init_evaluations. rewrite swarm_after_init.
  induction pre as [|e pre IH] using rev_ind; [exact H0|].
  apply Forall_app in Hpre. destruct Hpre as [Hpre He].
  rewrite fold_left_app. simpl.
  apply Forall_inv in He. destruct He as (i & -> & Hi).
  simpl. apply Hstep; [exact Hi|]. now apply IH.
Qed.

Lemma evaluations_index (pop iters : nat) :
  Forall (fun e => event_index e < pop) (evaluations pop iters).
Proof.
  rewrite evaluations_split. apply Forall_app. split.
  - apply Forall_forall. intros e He. apply list_elem_of_In, in_map_iff in He.
    destruct He as (i & <- & Hin). apply in_seq in Hin. simpl. lia.
  - eapply Forall_impl; [apply round_evaluations_index|].
    intros e (i & -> & Hi). exact Hi.
Qed.

Lemma exec_sized cfg W X k s (pop : nat) (e : event) st :
  sized pop (k * s) st -> event_index e < pop ->
  sized pop (k * s) (exec cfg W X k s e st).
Proof.
  intros Hsz Hi. destruct e as [i|i]; simpl in *.
  - now apply init_particle_sized.
  - now apply update_particle_sized.
Qed.

Lemma run_sized cfg W X k s (pop : nat) (evs : list event) st :
  sized pop (k * s) st -> Forall (fun e => event_index e < pop) evs ->
  sized pop (k * s) (fold_left (fun st e => exec cfg W X k s e st) evs st).
Proof.
  revert st. induction evs as [|e evs IH]; intros st Hsz Hall; [exact Hsz|].
  simpl. apply IH; [|now apply Forall_inv_tail in Hall].
  apply exec_sized; [exact Hsz|]. now apply Forall_inv in Hall.
Qed.

(** ** The order *)

Lemma leq_refl (x : num) : leq x x.
Proof. now right. Qed.

Lemma lt_leq (x y : num) : ltb x y = true -> leq x y.
Proof. now left. Qed.

Section Transitive.
Hypothesis ltb_transitive :
  forall x y z : num, ltb x y = true -> ltb y z = true -> ltb x z = true.

Lemma leq_trans (x y z : num) : leq x y -> leq y z -> leq x z.
Proof.
  intros [Hxy| ->] [Hyz| ->]; try (now left); try (now right).
  left. eapply ltb_transitive; eassumption.
Qed.

Lemma lt_leq_trans (x y z : num) : ltb x y = true -> leq y z -> ltb x z = true.
Proof. intros Hxy [Hyz| ->]; [eapply ltb_transitive; eassumption|exact Hxy]. Qed.

(** No evaluation raises the global best cost. *)
Lemma exec_best_le cfg W X k s (pop : nat) (e : event) st :
  sized pop (k * s) st -> event_index e < pop ->
  leq (global_best_cost (exec cfg W X k s e st)) (global_best_cost st).
Proof.
  intros Hsz Hi. destruct e as [i|i]; cbn [exec event_index] in *.
  - destruct (init_particle_summary cfg W X k s pop (k * s) i st Hsz Hi)
      as (p & v & Heq & _).
    rewrite Heq. simpl.
    destruct (ltb _ (global_best_cost st)) eqn:Hlt; [now left|now right].
  - destruct (update_particle_summary cfg W X k s pop (k * s) i st Hsz Hi)
      as (p & v & Heq & _).
    rewrite Heq. unfold tracked.
    destruct (ltb _ (pbest_cost st !!! i)); simpl; [|now right].
    destruct (ltb _ (global_best_cost st)) eqn:Hlt; [now left|now right].
Qed.

Lemma run_best_le cfg W X k s (pop : nat) (evs : list event) st :
  sized pop (k * s) st -> Forall (fun e => event_index e < pop) evs ->
  leq (global_best_cost (fold_left (fun st e => exec cfg W X k s e st) evs st))
     (global_best_cost st).
Proof.
  revert st. induction evs as [|e evs IH]; intros st Hsz Hall; [apply leq_refl|].
  simpl. pose proof (Forall_inv Hall) as He. apply Forall_inv_tail in Hall.
  eapply leq_trans.
  - apply IH; [now apply exec_sized|exact Hall].
  - now apply (exec_best_le cfg W X k s pop).
Qed.

(** Claim C4.  Within one run the global best cost never goes up: for any
    two prefixes [p1] and [p1 ++ p2] of the sequence of particle
    evaluations of the run (initialisation included), the global best
    cost after the longer one is at most the one after the shorter one;
    in particular the cost the loops end with is at most the cost after
    any prefix.  Only the transitivity of [<] is used. *)
Theorem global_best_cost_non_increasing cfg W X k s (p1 p2 p3 : list event) :
  evaluations (effective_pop cfg) (Z.to_nat (max_iters cfg)) = p1 ++ p2 ++ p3 ->
  leq (global_best_cost (swarm_after cfg W X k s (p1 ++ p2)))
     (global_best_cost (swarm_after cfg W X k s p1))
  /\ leq (global_best_cost (fst (fit_loops cfg W X k s)))
        (global_best_cost (swarm_after cfg W X k s p1)).
Proof.
  intros Hsplit.
  pose proof (evaluations_index (effective_pop cfg) (Z.to_nat (max_iters cfg))) as Hidx.
  rewrite Hsplit in Hidx.
  apply Forall_app in Hidx. destruct Hidx as [H1 H23].
  pose proof H23 as H23'.
  apply Forall_app in H23. destruct H23 as [H2 H3].
  assert (Hsz : sized (effective_pop cfg) (k * s) (swarm_after cfg W X k s p1)).
  { unfold swarm_after. apply run_sized; [apply fresh_swarm_sized|exact H1]. }
  split.
  - rewrite swarm_after_app. now apply (run_best_le cfg W X k s (effective_pop cfg)).
  - rewrite fit_loops_evaluations, Hsplit, swarm_after_app.
    now apply (run_best_le cfg W X k s (effective_pop cfg)).
Qed.
End Transitive.

Section Ordered.
Hypothesis laws : OrderLaws.

Lemma not_lt_leq (x y : num) : ltb x y = false -> leq y x.
Proof.
  intros Hxy. destruct (ltb_total laws x y) as [H|[H|H]].
  - congruence.
  - right. now symmetry.
  - now left.
Qed.

Lemma lt_not_leq (x y : num) : ltb x y = true -> leq y x -> False.
Proof.
  intros Hxy [Hyx|Heq].
  - pose proof (ltb_trans laws _ _ _ Hxy Hyx) as H.
    rewrite (ltb_irrefl laws) in H. discriminate.
  - subst. rewrite (ltb_irrefl laws) in Hxy. discriminate.
Qed.

(** The invariant of the initialisation loop. *)
Lemma init_particle_initialised cfg W X k s (n : nat) st :
  n < effective_pop cfg ->
  initialised cfg W X k s n st ->
  initialised cfg W X k s (Datatypes.S n) (init_particle cfg W X k s (k * s) n st).
Proof.
  intros Hn [Hsz Hrows Hle Hbest].
  pose proof (init_particle_sized cfg W X k s _ _ n st Hsz Hn) as Hsz'.
  destruct (init_particle_summary cfg W X k s _ _ n st Hsz Hn)
    as (p & v & Heq & Hp & Hv & Hdraw).
  rewrite Heq in *. clear Heq.
  set (c := cost_of cfg W X k s p) in *.
  pose proof Hsz as [Lp _ _ _ Lb _ Lc _ _].
  assert (Hltc : ltb c (global_best_cost st) = true ->
                 forall j, j < n -> ltb c (pbest_cost st !!! j) = true).
  { intros Hlt j Hj. eapply lt_leq_trans; [apply (ltb_trans laws)|exact Hlt|now apply Hle]. }
  split; cbn [rng_st pos vel pbest_pos pbest_cost cost global_best_cost gbest_pos].
  - exact Hsz'.
  - intros i Hi. destruct (Nat.eq_dec i n) as [->|Hne].
    + rewrite !list_lookup_total_insert_eq by lia.
      repeat split. apply Forall_entries. intros d Hd.
      rewrite Hp in Hd. destruct (Hdraw d Hd) as [-> _].
      eexists. reflexivity.
    + rewrite !list_lookup_total_insert_ne by congruence. apply Hrows. lia.
  - intros j Hj. destruct (Nat.eq_dec j n) as [->|Hne].
    + rewrite list_lookup_total_insert_eq by lia.
      destruct (ltb c (global_best_cost st)) eqn:Hlt; [apply leq_refl|now apply not_lt_leq].
    + rewrite list_lookup_total_insert_ne by congruence.
      destruct (ltb c (global_best_cost st)) eqn:Hlt; [|apply Hle; lia].
      left. apply Hltc; [reflexivity|lia].
  - destruct (ltb c (global_best_cost st)) eqn:Hlt.
    + right. exists n. rewrite !list_lookup_total_insert_eq by lia.
      repeat split; [lia|].
      intros j Hj. rewrite list_lookup_total_insert_ne by lia. now apply Hltc.
    + destruct Hbest as [Hinf|(m & Hm & Hc & Hg & Hfirst)]; [now left|].
      right. exists m. rewrite !list_lookup_total_insert_ne by lia.
      repeat split; try assumption; [lia|].
      intros j Hj. rewrite list_lookup_total_insert_ne by lia. now apply Hfirst.
Qed.

Lemma init_swarm_initialised cfg W X k s :
  initialised cfg W X k s (effective_pop cfg) (init_swarm cfg W X k s).
Proof.
  unfold init_swarm.
  apply (for_loop_inv (fun n st => initialised cfg W X k s n st)).
  - split; [apply fresh_swarm_sized|intros; lia|intros; lia|].
    left. split; reflexivity.
  - intros i st Hi Hinv. now apply init_particle_initialised.
Qed.

End Ordered.

(** ** The objective evaluator *)

(** The two loops of lines 88-94 fill [H] column by column. *)
Lemma eval_cost_H_inv (lo : num) k s (flatH : list num) :
  let H := eval_cost_H lo k s flatH in
  rows H = k /\ cols H = s /\ length (coeffs H) = k * s
  /\ forall j i, j < s -> i < k ->
       coeffs H !!! (j * k + i) =
         (if ltb (flatH !!! (j * k + i)) lo then lo else flatH !!! (j * k + i)).
Proof.
  unfold eval_cost_H.
  apply (for_loop_inv
    (fun j0 (H : Matrix) =>
       rows H = k /\ cols H = s /\ length (coeffs H) = k * s
       /\ forall j i, j < j0 -> i < k ->
            coeffs H !!! (j * k + i) =
              (if ltb (flatH !!! (j * k + i)) lo then lo else flatH !!! (j * k + i)))).
  - simpl. rewrite length_replicate. repeat split. intros j i Hj. lia.
  - intros j0 H Hj0 (Hr & Hc & Hl & Hdone).
    set (Pin := fun i0 (H : Matrix) =>
         rows H = k /\ cols H = s /\ length (coeffs H) = k * s
         /\ forall j i, (j < j0 \/ (j = j0 /\ i < i0)) -> i < k ->
              coeffs H !!! (j * k + i) =
                (if ltb (flatH !!! (j * k + i)) lo then lo else flatH !!! (j * k + i))).
    assert (Hin : Pin k (for_loop k (eval_cost_entry lo k flatH j0) H)).
    { apply (for_loop_inv Pin); unfold Pin.
      + repeat split; try assumption. intros j i [Hj|[_ Hi]] Hik; [now apply Hdone|lia].
      + intros i0 H' Hi0 (Hr' & Hc' & Hl' & Hdone').
        unfold eval_cost_entry, set_coeff. simpl. rewrite length_insert, Hr'.
        repeat split; try assumption.
        intros j i Hji Hik.
        destruct (Nat.eq_dec (j * k + i) (j0 * k + i0)) as [Heq|Hne].
        * rewrite Heq. apply list_lookup_total_insert_eq. rewrite Hl'. nia.
        * rewrite list_lookup_total_insert_ne by congruence.
          apply Hdone'; [|exact Hik].
          destruct Hji as [Hj|[-> Hi]]; [now left|].
          right. split; [reflexivity|].
          assert (i <> i0) by (intros ->; now apply Hne). lia. }
    unfold Pin in Hin. destruct Hin as (Hr' & Hc' & Hl' & Hall).
    repeat split; try assumption.
    intros j i Hj Hik. apply Hall; [|exact Hik].
    destruct (Nat.eq_dec j j0) as [->|Hne]; [right; now split|left; lia].
Qed.

Lemma lookup_map_seq {A : Type} (f : nat -> A) (b r a : nat) :
  a < r -> map f (seq b r) !! a = Some (f (b + a)).
Proof.
  revert b a. induction r as [|r IH]; intros b a Ha; [lia|].
  destruct a as [|a]; simpl.
  - now rewrite Nat.add_0_r.
  - rewrite IH by lia. f_equal. f_equal. lia.
Qed.

Lemma length_blocks {A : Type} (f : nat -> nat -> A) (r c : nat) :
  length (flat_map (fun j => map (f j) (seq 0 r)) (seq 0 c)) = c * r.
Proof.
  induction c as [|c IH]; [reflexivity|].
  rewrite seq_S, flat_map_app, length_app, IH. simpl.
  rewrite app_nil_r, length_map, length_seq. lia.
Qed.

(** Column [j] of a column-major matrix built column by column starts at
    index [j * r]. *)
Lemma lookup_blocks {A : Type} (f : nat -> nat -> A) (r c j a : nat) :
  a < r -> j < c ->
  flat_map (fun j => map (f j) (seq 0 r)) (seq 0 c) !! (j * r + a) = Some (f j a).
Proof.
  intros Ha. induction c as [|c IH]; intros Hj; [lia|].
  rewrite seq_S, flat_map_app. simpl. rewrite app_nil_r.
  destruct (Nat.eq_dec j c) as [->|Hne].
  - rewrite lookup_app_r by (rewrite length_blocks; lia).
    rewrite length_blocks. replace (c * r + a - c * r) with a by lia.
    now rewrite lookup_map_seq.
  - rewrite lookup_app_l by (rewrite length_blocks; nia).
    apply IH. lia.
Qed.

(** The entries of the product are the dot products of a row of the left
    factor and a column of the right one. *)
Lemma coeff_mat_mul (A B : Matrix) (a j : nat) :
  a < rows A -> j < cols B ->
  coeff (mat_mul A B) a j = dot_row_col A B a j.
Proof.
  intros Ha Hj. unfold coeff, mat_mul. simpl.
  apply list_lookup_total_correct.
  apply (lookup_blocks (fun j a => dot_row_col A B a j)); assumption.
Qed.

Lemma coeff_mat_sub (A B : Matrix) (a j : nat) :
  rows A = rows B ->
  j * rows A + a < length (coeffs A) ->
  j * rows A + a < length (coeffs B) ->
  coeff (mat_sub A B) a j = sub (coeff A a j) (coeff B a j).
Proof.
  intros Hrows HA HB. unfold coeff, mat_sub. simpl. rewrite <- Hrows.
  apply list_lookup_total_correct. apply lookup_zip_with_Some.
  exists (coeffs A !!! (j * rows A + a)), (coeffs B !!! (j * rows A + a)).
  split; [reflexivity|].
  split; now apply list_lookup_lookup_total_lt.
Qed.

End Properties.

(** * The model at work on the concrete arithmetic *)

Lemma fixed_leq_Fin (a b : Z) : (a <= b)%Z -> leq (Fin a) (Fin b).
Proof.
  intros Hab. destruct (Z.eq_dec a b) as [->|Hne]; [now right|].
  left. simpl. apply Z.ltb_lt. lia.
Qed.

Lemma fixed_ltb_trans (x y z : fixed) :
  ltb x y = true -> ltb y z = true -> ltb x z = true.
Proof.
  destruct x as [a|], y as [b|], z as [c|]; simpl; intros Hxy Hyz;
    try discriminate; try reflexivity.
  apply Z.ltb_lt in Hxy, Hyz. apply Z.ltb_lt. lia.
Qed.

Lemma fixed_order_laws : OrderLaws (num := fixed).
Proof.
  split.
  - intros [a|]; simpl; [apply Z.ltb_irrefl|reflexivity].
  - exact fixed_ltb_trans.
  - intros [a|] [b|]; simpl; auto.
    destruct (Z.lt_trichotomy a b) as [H|[H|H]].
    + left. now apply Z.ltb_lt.
    + right. left. now subst.
    + right. right. now apply Z.ltb_lt.
Qed.

(** Claim C1, on the code: a counterexample.  For the 2 by 2 example the
    returned array has the buffer of the global best position, and read as
    the 2 by 2 numpy array it is, its entry at row 0, column 1 is the entry
    of flat index 1 of the global best position, not the entry of flat index
    [1*2 + 0] that the objective evaluator places at row 0, column 1. *)
Theorem extraction_is_row_major_example :
  exists st out H,
    fit_run cfg0 W0 X0 = Ok (st, out)
    /\ fit cfg0 W0 X0 = Ok H
    /\ shape H = [2; 2]%Z
    /\ buf H = gbest_pos st
    /\ np_at H 0 1 = gbest_pos st !!! 1
    /\ np_at H 0 1 <> gbest_pos st !!! (1 * 2 + 0)
    /\ coeff (eval_cost_H (lb cfg0) 2 2 (gbest_pos st)) 0 1 = gbest_pos st !!! (1 * 2 + 0).
Proof.
  eexists. eexists. eexists.
  split; [vm_compute; reflexivity|].
  split; [vm_compute; reflexivity|].
  repeat split; try (vm_compute; reflexivity).
  vm_compute. discriminate.
Qed.

(** Claim C6, on the code: a counterexample.  [W] of shape [(2^32 + 5, 0)]
    and [X] of shape [(5, 1)] are both two-dimensional and have different
    numbers of rows, yet [fit] raises nothing and returns an array of shape
    [(0, 1)]: the two row counts are compared after their conversion to
    [int]. *)
Theorem fit_accepts_rows_equal_modulo_2_32 :
  ndim W_wide = 2 /\ ndim X_five = 2
  /\ shape W_wide !!! 0 <> shape X_five !!! 0
  /\ to_int (shape W_wide !!! 0) = to_int (shape X_five !!! 0)
  /\ ~ raises (fit cfg0 W_wide X_five)
  /\ fit cfg0 W_wide X_five = Ok {| shape := [0; 1]%Z; buf := [] |}.
Proof.
  split; [reflexivity|]. split; [reflexivity|].
  split; [vm_compute; discriminate|].
  split; [vm_compute; reflexivity|].
  split; [vm_compute; tauto|].
  vm_compute. reflexivity.
Qed.

(** ** The theorems at the 2 by 2 example *)

Lemma fit_deterministic_witness :
  seed cfg0 <> 0%Z
  /\ fit (PSO_new cfg0 1) W0 X0 = fit (PSO_new (set_verbose cfg0 false) 2) W0 X0.
Proof.
  assert (Hs : seed cfg0 <> 0%Z) by (simpl; lia).
  split; [exact Hs|].
  exact (proj1 (fit_deterministic cfg0 (set_verbose cfg0 false) 1 2 W0 X0 Hs
                  eq_refl eq_refl eq_refl eq_refl eq_refl eq_refl eq_refl eq_refl)).
Defined.

Lemma global_best_cost_non_increasing_witness :
  leq (global_best_cost
        (swarm_after cfg0 (eigen_W W0) (eigen_X X0) 2 2
           ([Init 0; Init 1; Init 2] ++ [Update 0; Update 1])))
     (global_best_cost
        (swarm_after cfg0 (eigen_W W0) (eigen_X X0) 2 2 [Init 0; Init 1; Init 2])).
Proof.
  assert (Hsplit : evaluations (effective_pop cfg0) (Z.to_nat (max_iters cfg0))
                   = [Init 0; Init 1; Init 2] ++ [Update 0; Update 1]
                     ++ [Update 2; Update 0; Update 1; Update 2]) by reflexivity.
  exact (proj1 (global_best_cost_non_increasing fixed_ltb_trans cfg0
                  (eigen_W W0) (eigen_X X0) 2 2 _ _ _ Hsplit)).
Defined.

Lemma population_floor_witness :
  fit (set_population cfg0 1) W0 X0 = fit (set_population cfg0 2) W0 X0.
Proof.
  assert (Hp : (1 < 2)%Z) by lia.
  exact (proj1 (proj2 (population_floor cfg0 1 W0 X0 Hp))).
Defined.

(** * Further properties of the code *)

Lemma to_int_in_range (z : Z) : in_int_range z -> to_int z = z.
Proof.
  unfold in_int_range, to_int. intros Hz.
  rewrite Z.mod_small by lia. lia.
Qed.

Section MoreProperties.
Context {num : Type} {AR : Arith num} {rng : Type} {RG : Rng num rng}.

Implicit Types (cfg : @PSOConfig num) (W X : @Matrix num) (k s : nat).
Implicit Types (st : @swarm num rng) (W_np X_np : @ndarray num).

(** ** The checks, for row counts that fit an [int] *)

(** X1.  The outcomes of [fit].  It throws "W and X must be 2-D arrays"
    when an argument is not two-dimensional; it throws "W and X must have
    same number of rows (features)" when both are two-dimensional and the
    row counts, narrowed to [int], differ; otherwise it returns the array
    built from the global best of the run when the dimensions are those of
    [int_dims] (none negative as an [int], [k * s] within [int]), and is
    undefined when they are not.  Shape entries between 0 and [2^31 - 1]
    whose product [k * s] is below [2^31] are left as they are by the
    narrowing and are dimensions of [int_dims]. *)
Theorem fit_outcomes cfg W_np X_np :
  (ndim W_np <> 2 \/ ndim X_np <> 2 ->
     fit cfg W_np X_np = Throw (runtime_error "W and X must be 2-D arrays"))
  /\ (ndim W_np = 2 -> ndim X_np = 2 ->
      to_int (shape W_np !!! 0) <> to_int (shape X_np !!! 0) ->
        fit cfg W_np X_np =
          Throw (runtime_error "W and X must have same number of rows (features)"))
  /\ (ndim W_np = 2 -> ndim X_np = 2 ->
      to_int (shape W_np !!! 0) = to_int (shape X_np !!! 0) ->
        fit cfg W_np X_np =
          if int_dims (to_int (shape W_np !!! 0)) (to_int (shape W_np !!! 1))
                      (to_int (shape X_np !!! 1))
          then Ok (fit_result cfg (eigen_W W_np) (eigen_X X_np)
                     (dim_k W_np) (dim_s X_np))
          else Undefined)
  /\ (in_int_range (shape W_np !!! 0) -> in_int_range (shape W_np !!! 1) ->
      in_int_range (shape X_np !!! 1) ->
      Z.lt (Z.mul (shape W_np !!! 1) (shape X_np !!! 1)) (2 ^ 31)%Z ->
        to_int (shape W_np !!! 0) = shape W_np !!! 0
        /\ to_int (shape W_np !!! 1) = shape W_np !!! 1
        /\ to_int (shape X_np !!! 1) = shape X_np !!! 1
        /\ int_dims (to_int (shape W_np !!! 0)) (to_int (shape W_np !!! 1))
                    (to_int (shape X_np !!! 1)) = true).
Proof.
  split; [|split; [|split]].
  - intros Hnd. unfold fit, fit_run.
    destruct (Nat.eqb_spec (ndim W_np) 2) as [H1|H1]; simpl; [|reflexivity].
    destruct (Nat.eqb_spec (ndim X_np) 2) as [H2|H2]; simpl; [|reflexivity].
    tauto.
  - intros H1 H2 Hrows. unfold fit, fit_run. rewrite H1, H2. simpl.
    destruct (Z.eqb_spec (to_int (shape W_np !!! 0)) (to_int (shape X_np !!! 0)))
      as [He|He]; [contradiction|reflexivity].
  - intros H1 H2 Hrows.
    assert (Hn : ~ raises (fit cfg W_np X_np)).
    { rewrite fit_raises_iff. intros [H|[H|H]]; congruence. }
    destruct (int_dims _ _ _) eqn:Hd; [now apply fit_Ok|].
    rewrite fit_raises in Hn. unfold fit.
    destruct (fit_run_cases cfg W_np X_np) as [H|[[_ H]|[H _]]];
      [contradiction|now rewrite H|congruence].
  - intros Hg Hk Hs Hks.
    rewrite !to_int_in_range by assumption.
    repeat split. unfold int_dims, in_int_range in *.
    repeat (apply andb_true_intro; split); try (apply Z.leb_le; lia).
    apply Z.ltb_lt. exact Hks.
Qed.

(** X2.  When [fit] returns and the numbers of columns fit an [int], the
    result has the shape [(k, s)] of the columns of [W] and of [X], and its
    buffer has [k * s] entries. *)
Theorem fit_shape cfg W_np X_np (H : ndarray) :
  in_int_range (shape W_np !!! 1) -> in_int_range (shape X_np !!! 1) ->
  fit cfg W_np X_np = Ok H ->
  shape H = [shape W_np !!! 1; shape X_np !!! 1]
  /\ Z.of_nat (length (buf H)) = Z.mul (shape W_np !!! 1) (shape X_np !!! 1).
Proof.
  intros Hk Hs Hfit.
  rewrite (fit_returns _ _ _ _ Hfit).
  unfold fit_result.
  destruct (build_H_buf_inv (dim_k W_np) (dim_s X_np)
              (gbest_pos (fst (fit_loops cfg (eigen_W W_np) (eigen_X X_np)
                                 (dim_k W_np) (dim_s X_np))))) as [Hlen _].
  cbv zeta in Hlen. rewrite Hlen, build_H_shape.
  unfold dim_k, dim_s. rewrite !to_int_in_range by assumption.
  unfold in_int_range in *. rewrite Nat2Z.inj_mul, !Z2Nat.id by lia.
  split; reflexivity.
Qed.

(** X3.  The entry at row [i], column [j] of the returned [k] by [s] array is
    the entry of flat index [i*s + j] of the global best position; when
    [k = 1] or [s = 1] this is the entry of flat index [j*k + i], the one
    the objective evaluator puts at that row and column. *)
Theorem returned_entry cfg W X k s (i j : nat) :
  i < k -> j < s ->
  np_at (fit_result cfg W X k s) i j
  = gbest_pos (fst (fit_loops cfg W X k s)) !!! (i * s + j)
  /\ (k = 1 \/ s = 1 ->
      np_at (fit_result cfg W X k s) i j
      = gbest_pos (fst (fit_loops cfg W X k s)) !!! (j * k + i)).
Proof.
  intros Hi Hj. rewrite fit_result_row_major by assumption.
  split; [reflexivity|].
  intros [->| ->]; f_equal; lia.
Qed.

Lemma mapped_entry (A : ndarray) (r c a b : nat) :
  Z.to_nat (shape A !!! 1) = c -> a < r -> b < c ->
  coeff (Matrix_Map (buf A) r c) a b = buf A !!! (b * r + a)
  /\ (r = 1 \/ c = 1 -> coeff (Matrix_Map (buf A) r c) a b = np_at A a b).
Proof.
  intros Hc Ha Hb.
  rewrite coeff_Matrix_Map by assumption. split; [reflexivity|].
  unfold np_at. rewrite Hc. intros [->| ->]; f_equal; lia.
Qed.

(** X4.  The matrices [W] and [X] that the objective evaluator works on are
    the numpy buffers read column by column: the entry at row [a], column
    [b] is the entry of flat index [b*g + a] of the buffer, [g] being the
    number of rows.  It is the entry [[a, b]] of the numpy array when the
    array has one row or one column. *)
Theorem eigen_maps_read_by_columns W_np X_np (a b : nat) :
  in_int_range (shape W_np !!! 1) -> in_int_range (shape X_np !!! 1) ->
  (a < rows (eigen_W W_np) -> b < cols (eigen_W W_np) ->
     coeff (eigen_W W_np) a b = buf W_np !!! (b * rows (eigen_W W_np) + a)
     /\ (rows (eigen_W W_np) = 1 \/ cols (eigen_W W_np) = 1 ->
         coeff (eigen_W W_np) a b = np_at W_np a b))
  /\ (a < rows (eigen_X X_np) -> b < cols (eigen_X X_np) ->
        coeff (eigen_X X_np) a b = buf X_np !!! (b * rows (eigen_X X_np) + a)
        /\ (rows (eigen_X X_np) = 1 \/ cols (eigen_X X_np) = 1 ->
            coeff (eigen_X X_np) a b = np_at X_np a b)).
Proof.
  intros Hk Hs. split; intros Ha Hb.
  - unfold eigen_W in *. cbn [rows cols Matrix_Map] in *.
    apply mapped_entry; try assumption.
    unfold dim_k. now rewrite to_int_in_range.
  - unfold eigen_X in *. cbn [rows cols Matrix_Map] in *.
    apply mapped_entry; try assumption.
    unfold dim_s. now rewrite to_int_in_range.
Qed.

(** ** Iteration budget and construction *)

(** X5.  A [max_iters] that is zero or negative runs no iteration: the swarm
    at the end of the loops is the initial swarm, nothing is printed, and
    [fit] returns what it returns with [max_iters = 0]. *)
Theorem nonpositive_max_iters cfg (m : Z) W_np X_np :
  (m <= 0)%Z ->
  (forall W X k s,
     fit_loops (set_max_iters cfg m) W X k s
     = (init_swarm (set_max_iters cfg 0) W X k s, []))
  /\ fit_run (set_max_iters cfg m) W_np X_np = fit_run (set_max_iters cfg 0) W_np X_np
  /\ fit (set_max_iters cfg m) W_np X_np = fit (set_max_iters cfg 0) W_np X_np.
Proof.
  intros Hm.
  assert (Hloops : forall W X k s,
            fit_loops (set_max_iters cfg m) W X k s
            = (init_swarm (set_max_iters cfg 0) W X k s, [])).
  { intros W X k s. unfold fit_loops. simpl max_iters.
    replace (Z.to_nat m) with 0 by lia. reflexivity. }
  assert (Hrun : fit_run (set_max_iters cfg m) W_np X_np
                 = fit_run (set_max_iters cfg 0) W_np X_np).
  { unfold fit_run.
    destruct (negb (ndim W_np =? 2) || negb (ndim X_np =? 2)); [reflexivity|].
    destruct (negb (Z.eqb _ _)); [reflexivity|].
    rewrite Hloops. reflexivity. }
  split; [exact Hloops|]. split; [exact Hrun|].
  unfold fit. now rewrite Hrun.
Qed.

(** X6.  The constructor changes nothing but the seed, and the seed only
    when it is zero, to the clock reading reduced modulo [2^32] (which can
    be zero again); a seed set afterwards with [set_seed] is used by [fit]
    as it is, so that the run does not depend on the clock, for seed 0 as
    for any other. *)
Theorem constructor_and_seed cfg (clock clock' sd : Z) W_np X_np :
  set_seed (PSO_new cfg clock) (seed cfg) = cfg
  /\ (seed cfg <> 0%Z -> PSO_new cfg clock = cfg)
  /\ (seed cfg = 0%Z ->
      seed (PSO_new cfg clock) = (clock mod 2 ^ 32)%Z
      /\ (0 <= seed (PSO_new cfg clock) < 2 ^ 32)%Z)
  /\ fit (set_seed (PSO_new cfg clock) sd) W_np X_np
     = fit (set_seed (PSO_new cfg clock') sd) W_np X_np.
Proof.
  assert (Hset : forall c z, set_seed (PSO_new cfg c) z = set_seed cfg z).
  { intros c z. unfold PSO_new. destruct (seed cfg =? 0)%Z; reflexivity. }
  split; [|split; [|split]].
  - rewrite Hset. now destruct cfg.
  - apply PSO_new_seeded.
  - intros H0. unfold PSO_new. rewrite H0. simpl. unfold to_unsigned.
    split; [reflexivity|]. apply Z.mod_pos_bound. lia.
  - now rewrite !Hset.
Qed.

(** ** What is printed *)

Lemma iteration_loop cfg W X k s (n : nat) :
  for_loop n (iteration cfg W X k s (effective_pop cfg) (k * s))
           (init_swarm cfg W X k s, [])
  = (rounds_swarm cfg W X k s n,
     map (fun t => (t, global_best_cost (rounds_swarm cfg W X k s (Datatypes.S t))))
         (List.filter (prints cfg) (seq 0 n))).
Proof.
  induction n as [|n IH]; [reflexivity|].
  rewrite for_loop_S, IH. unfold iteration. cbn [fst snd].
  rewrite seq_S, List.filter_app, map_app. cbn [List.filter Nat.add].
  change (for_loop (effective_pop cfg) (update_particle cfg W X k s (k * s))
            (rounds_swarm cfg W X k s n))
    with (rounds_swarm cfg W X k s (Datatypes.S n)).
  destruct (prints cfg n); [reflexivity|].
  cbn [map]. now rewrite app_nil_r.
Qed.

(** X7.  What a run prints: one line for each iteration [t] below
    [max_iters] with [t mod 50 = 0] or [t = max_iters - 1], in increasing
    order of [t], and only when [verbose] is set; the line of iteration [t]
    carries [t] and the global best cost at the end of that iteration.  The
    swarm is the same whether [verbose] is set or not. *)
Theorem printed_lines cfg W X k s :
  fit_loops cfg W X k s
  = (rounds_swarm cfg W X k s (Z.to_nat (max_iters cfg)),
     map (fun t => (t, global_best_cost (rounds_swarm cfg W X k s (Datatypes.S t))))
         (printing_iterations cfg))
  /\ (forall t, In t (printing_iterations cfg) <->
        verbose cfg = true /\ (Z.of_nat t < max_iters cfg)%Z
        /\ ((Z.of_nat t mod 50 = 0)%Z \/ (Z.of_nat t = max_iters cfg - 1)%Z))
  /\ (verbose cfg = false -> snd (fit_loops cfg W X k s) = [])
  /\ (forall v t, rounds_swarm (set_verbose cfg v) W X k s t = rounds_swarm cfg W X k s t).
Proof.
  split; [apply iteration_loop|]. split; [|split].
  - intros t. unfold printing_iterations. rewrite List.filter_In, in_seq.
    unfold prints. rewrite andb_true_iff, orb_true_iff, !Z.eqb_eq.
    split.
    + intros [Hlt [Hv Hp]]. repeat split; try assumption. lia.
    + intros [Hv [Hlt Hp]]. repeat split; try assumption; lia.
  - intros Hv. unfold fit_loops. fold (init_swarm cfg W X k s).
    rewrite iteration_loop. cbn [snd].
    replace (List.filter (prints cfg) (seq 0 (Z.to_nat (max_iters cfg)))) with (@nil nat);
      [reflexivity|].
    symmetry. induction (seq 0 (Z.to_nat (max_iters cfg))) as [|t l IH]; [reflexivity|].
    simpl. unfold prints at 1. rewrite Hv. exact IH.
  - reflexivity.
Qed.

(** X8.  When [verbose] is set and [max_iters] is positive, the first line
    printed is that of iteration 0 and the last line is that of iteration
    [max_iters - 1]; the cost on the last line is the global best cost the
    run ends with. *)
Theorem first_and_last_line cfg W X k s :
  verbose cfg = true -> (0 < max_iters cfg)%Z ->
  (exists rest,
     snd (fit_loops cfg W X k s)
     = (0, global_best_cost (rounds_swarm cfg W X k s 1)) :: rest)
  /\ (exists before,
        snd (fit_loops cfg W X k s)
        = before ++ [(Z.to_nat (max_iters cfg) - 1,
                      global_best_cost (fst (fit_loops cfg W X k s)))]).
Proof.
  intros Hv Hpos.
  destruct (Z.to_nat (max_iters cfg)) as [|n] eqn:Hn; [lia|].
  unfold fit_loops. fold (init_swarm cfg W X k s). rewrite Hn. split.
  - rewrite iteration_loop. cbn [snd].
    change (seq 0 (Datatypes.S n)) with (0 :: seq 1 n).
    cbn [List.filter]. unfold prints at 1. rewrite Hv. simpl. eexists. reflexivity.
  - rewrite for_loop_S. unfold iteration at 1. cbn [fst snd].
    assert (Hp : prints cfg n = true).
    { unfold prints. rewrite Hv. simpl. apply orb_true_iff. right.
      apply Z.eqb_eq. lia. }
    rewrite Hp. replace (Datatypes.S n - 1) with n by lia.
    eexists. reflexivity.
Qed.

(** ** The draws of a run *)

Ltac same_count :=
  match goal with
  | |- init_rng_after _ _ ?a _ = init_rng_after _ _ ?b _ =>
      replace a with b by (simpl; lia); reflexivity
  | |- rng_after ?a _ = rng_after ?b _ =>
      replace a with b by (simpl; lia); reflexivity
  | |- init_draw _ _ ?a _ = init_draw _ _ ?b _ =>
      replace a with b by (simpl; lia); reflexivity
  end.

Lemma init_rng_after_add (lo hi : num) (a b : nat) (g : rng) :
  init_rng_after lo hi (a + b) g = init_rng_after lo hi b (init_rng_after lo hi a g).
Proof.
  induction b as [|b IH]; [now rewrite Nat.add_0_r|].
  replace (a + Datatypes.S b) with (Datatypes.S (a + b)) by lia.
  simpl. now rewrite IH.
Qed.

Lemma init_draw_shift (lo hi : num) (m n : nat) (g : rng) :
  init_draw lo hi n (init_rng_after lo hi m g) = init_draw lo hi (m + n) g.
Proof. unfold init_draw. now rewrite init_rng_after_add. Qed.

Lemma rng_after_add (a b : nat) (g : rng) :
  rng_after (a + b) g = rng_after b (rng_after a g).
Proof.
  induction b as [|b IH]; [now rewrite Nat.add_0_r|].
  replace (a + Datatypes.S b) with (Datatypes.S (a + b)) by lia.
  simpl. now rewrite IH.
Qed.

Lemma init_particle_drawn cfg W X k s (n : nat) st :
  n < effective_pop cfg ->
  drawn cfg k s n st ->
  drawn cfg k s (Datatypes.S n) (init_particle cfg W X k s (k * s) n st).
Proof.
  intros Hn [Hsz Hrng Hrows].
  pose proof (init_particle_sized cfg W X k s _ _ n st Hsz Hn) as Hsz'.
  destruct (init_particle_summary cfg W X k s _ _ n st Hsz Hn)
    as (p & v & Heq & Hp & Hv & Hdraw).
  rewrite Heq in *. clear Heq.
  pose proof Hsz as [Lp _ Lv _ _ _ _ _ _].
  split; cbn [rng_st pos vel].
  - exact Hsz'.
  - rewrite Hrng, <- init_rng_after_add. same_count.
  - intros i d Hi Hd. destruct (Nat.eq_dec i n) as [->|Hne].
    + rewrite !get2_insert by lia.
      destruct (Hdraw d Hd) as [-> ->].
      rewrite Hrng, !init_draw_shift. unfold draws_before.
      split; [same_count|]. f_equal. f_equal; same_count.
    + unfold get2 in *. rewrite !list_lookup_total_insert_ne by congruence.
      apply Hrows; [lia|exact Hd].
Qed.

Lemma init_swarm_drawn cfg W X k s :
  drawn cfg k s (effective_pop cfg) (init_swarm cfg W X k s).
Proof.
  unfold init_swarm.
  apply (for_loop_inv (fun n st => drawn cfg k s n st)).
  - split; [apply fresh_swarm_sized|reflexivity|intros; lia].
  - intros i st Hi Hd. now apply init_particle_drawn.
Qed.

(** X9.  The initial swarm is made of the draws of [initDist] alone, three
    per dimension in scan order: with [n = i*dim + d], the position of
    particle [i] in dimension [d] is draw [3n], and its velocity is draw
    [3n+1] minus draw [3n+2], times 0.1.  The initialisation takes
    [3 * population * dim] draws, and positions and velocities do not depend
    on [W] or [X]. *)
Theorem initial_swarm_draws cfg W X k s :
  let st := init_swarm cfg W X k s in
  let g := mt19937 (seed cfg) in
  (forall i d, i < effective_pop cfg -> d < k * s ->
     get2 (pos st) i d = init_draw (lb cfg) (ub cfg) (3 * (i * (k * s) + d)) g
     /\ get2 (vel st) i d =
          mul (sub (init_draw (lb cfg) (ub cfg) (3 * (i * (k * s) + d) + 1) g)
                   (init_draw (lb cfg) (ub cfg) (3 * (i * (k * s) + d) + 2) g))
              tenth)
  /\ rng_st st = init_rng_after (lb cfg) (ub cfg) (3 * (effective_pop cfg * (k * s))) g
  /\ (forall W' X', pos (init_swarm cfg W' X' k s) = pos st
                    /\ vel (init_swarm cfg W' X' k s) = vel st).
Proof.
  intros st g. subst st g.
  destruct (init_swarm_drawn cfg W X k s) as [Hsz Hrng Hrows].
  split; [exact Hrows|]. split; [exact Hrng|].
  intros W' X'.
  destruct (init_swarm_drawn cfg W' X' k s) as [Hsz' _ Hrows'].
  assert (Heq : forall (m m' : list (list num)),
            length m = effective_pop cfg -> length m' = effective_pop cfg ->
            (forall i, i < effective_pop cfg -> length (m !!! i) = k * s) ->
            (forall i, i < effective_pop cfg -> length (m' !!! i) = k * s) ->
            (forall i d, i < effective_pop cfg -> d < k * s -> get2 m' i d = get2 m i d) ->
            m' = m).
  { intros m m' Lm Lm' Rm Rm' Hget.
    apply (list_eq_same_length m' m (effective_pop cfg)); try assumption.
    intros i x y Hi Hx Hy.
    apply list_lookup_total_correct in Hx, Hy. subst x y.
    apply list_eq_lookup_total; [rewrite Rm, Rm' by assumption; reflexivity|].
    intros d Hd. rewrite Rm' in Hd by assumption. now apply Hget. }
  destruct Hsz, Hsz'.
  split; apply Heq; try assumption; intros i d Hi Hd.
  - destruct (Hrows i d Hi Hd) as [-> _]. now destruct (Hrows' i d Hi Hd) as [-> _].
  - destruct (Hrows i d Hi Hd) as [_ ->]. now destruct (Hrows' i d Hi Hd) as [_ ->].
Qed.

Lemma update_particle_rng cfg W X k s (pop i : nat) st :
  sized pop (k * s) st -> i < pop ->
  rng_st (update_particle cfg W X k s (k * s) i st)
  = rng_after (2 * (k * s)) (rng_st st).
Proof.
  intros Hsz Hi.
  destruct (update_particle_summary cfg W X k s pop (k * s) i st Hsz Hi)
    as (p & v & Heq & _).
  rewrite Heq. unfold tracked. now destruct (ltb _ (pbest_cost st !!! i)).
Qed.

Lemma round_rng cfg W X k s (pop n : nat) st :
  sized pop (k * s) st -> n <= pop ->
  sized pop (k * s) (for_loop n (update_particle cfg W X k s (k * s)) st)
  /\ rng_st (for_loop n (update_particle cfg W X k s (k * s)) st)
     = rng_after (2 * (n * (k * s))) (rng_st st).
Proof.
  intros Hsz. induction n as [|n IH]; intros Hn; [split; [exact Hsz|reflexivity]|].
  destruct IH as [Hs Hr]; [lia|].
  rewrite for_loop_S. split; [apply update_particle_sized; [exact Hs|lia]|].
  rewrite (update_particle_rng cfg W X k s pop) by (try exact Hs; lia).
  rewrite Hr, <- rng_after_add. same_count.
Qed.

Lemma rounds_swarm_rng cfg W X k s (t : nat) :
  sized (effective_pop cfg) (k * s) (rounds_swarm cfg W X k s t)
  /\ rng_st (rounds_swarm cfg W X k s t)
     = rng_after (2 * (t * (effective_pop cfg * (k * s))))
         (rng_st (init_swarm cfg W X k s)).
Proof.
  induction t as [|t [Hs Hr]]; [split; [apply init_swarm_sized|reflexivity]|].
  unfold rounds_swarm. rewrite for_loop_S. fold (rounds_swarm cfg W X k s t).
  destruct (round_rng cfg W X k s (effective_pop cfg) (effective_pop cfg)
              (rounds_swarm cfg W X k s t) Hs (Nat.le_refl _)) as [Hs' Hr'].
  split; [exact Hs'|]. rewrite Hr', Hr, <- rng_after_add. same_count.
Qed.

Lemma final_rng cfg W X k s :
  rng_st (fst (fit_loops cfg W X k s))
  = rng_after (2 * (Z.to_nat (max_iters cfg) * (effective_pop cfg * (k * s))))
      (init_rng_after (lb cfg) (ub cfg) (3 * (effective_pop cfg * (k * s)))
         (mt19937 (seed cfg))).
Proof.
  rewrite fit_loops_fst.
  fold (rounds_swarm cfg W X k s (Z.to_nat (max_iters cfg))).
  destruct (rounds_swarm_rng cfg W X k s (Z.to_nat (max_iters cfg))) as [_ ->].
  now destruct (init_swarm_drawn cfg W X k s) as [_ -> _].
Qed.

(** X10.  The number of draws of a run is fixed by the configuration and the
    dimensions: the generator the run ends with is the seeded generator
    after [3 * population * dim] draws of [initDist] and then
    [2 * population * dim] draws of [unif01] for each iteration.  It is the
    same for all [W] and [X]. *)
Theorem draws_consumed cfg W X k s :
  rng_st (fst (fit_loops cfg W X k s))
  = rng_after (2 * (Z.to_nat (max_iters cfg) * (effective_pop cfg * (k * s))))
      (init_rng_after (lb cfg) (ub cfg) (3 * (effective_pop cfg * (k * s)))
         (mt19937 (seed cfg)))
  /\ forall W' X',
       rng_st (fst (fit_loops cfg W' X' k s)) = rng_st (fst (fit_loops cfg W X k s)).
Proof.
  split; [apply final_rng|]. intros W' X'. now rewrite !final_rng.
Qed.

(** X11.  When [W] has no column or [X] has no column, the particles have no
    dimension: the run takes no draw from the generator and the returned
    buffer is empty. *)
Theorem no_dimension cfg W X k s :
  k = 0 \/ s = 0 ->
  rng_st (fst (fit_loops cfg W X k s)) = mt19937 (seed cfg)
  /\ buf (fit_result cfg W X k s) = []
  /\ gbest_pos (fst (fit_loops cfg W X k s)) = [].
Proof.
  intros Hks. assert (Hdim : k * s = 0) by (destruct Hks; subst; lia).
  split.
  - rewrite final_rng, Hdim.
    now rewrite !Nat.mul_0_r.
  - assert (Hsz : sized (effective_pop cfg) (k * s) (fst (fit_loops cfg W X k s))).
    { rewrite fit_loops_fst.
      apply (rounds_swarm_rng cfg W X k s (Z.to_nat (max_iters cfg))). }
    destruct Hsz as [_ _ _ _ _ _ _ _ Hg]. rewrite Hdim in Hg.
    assert (Hnil : gbest_pos (fst (fit_loops cfg W X k s)) = []).
    { now apply length_zero_iff_nil. }
    split; [|exact Hnil].
    unfold fit_result. rewrite build_H_buf; [exact Hnil|]. rewrite Hnil. simpl. lia.
Qed.

(** X12.  Every vector of the swarm keeps the size it was allocated with,
    after every prefix of the evaluations of a run: [population] rows of
    [dim] entries for positions, velocities and personal best positions,
    [population] costs, [dim] entries of the global best position; every
    particle index of an evaluation is below the population. *)
Theorem sizes_kept cfg W X k s (pre post : list event) :
  evaluations (effective_pop cfg) (Z.to_nat (max_iters cfg)) = pre ++ post ->
  sized (effective_pop cfg) (k * s) (swarm_after cfg W X k s pre)
  /\ Forall (fun e => event_index e < effective_pop cfg) pre.
Proof.
  intros Hsplit.
  pose proof (evaluations_index (effective_pop cfg) (Z.to_nat (max_iters cfg))) as Hidx.
  rewrite Hsplit in Hidx. apply Forall_app in Hidx. destruct Hidx as [Hpre _].
  split; [|exact Hpre].
  unfold swarm_after. apply run_sized; [apply fresh_swarm_sized|exact Hpre].
Qed.

(** ** Costs and bests along a run *)

Lemma init_particle_evaluated cfg W X k s (n : nat) st :
  n < effective_pop cfg ->
  evaluated cfg W X k s n st ->
  evaluated cfg W X k s (Datatypes.S n) (init_particle cfg W X k s (k * s) n st).
Proof.
  intros Hn [Hsz Hcost].
  pose proof (init_particle_sized cfg W X k s _ _ n st Hsz Hn) as Hsz'.
  destruct (init_particle_summary cfg W X k s _ _ n st Hsz Hn)
    as (p & v & Heq & _).
  rewrite Heq in *. clear Heq.
  pose proof Hsz as [Lp _ _ _ _ _ _ Lc _].
  split; [exact Hsz'|]. cbn [pos cost]. intros i Hi.
  destruct (Nat.eq_dec i n) as [->|Hne].
  - now rewrite !list_lookup_total_insert_eq by lia.
  - rewrite !list_lookup_total_insert_ne by congruence. apply Hcost. lia.
Qed.

Lemma init_swarm_evaluated cfg W X k s :
  evaluated cfg W X k s (effective_pop cfg) (init_swarm cfg W X k s).
Proof.
  unfold init_swarm.
  apply (for_loop_inv (fun n st => evaluated cfg W X k s n st)).
  - split; [apply fresh_swarm_sized|intros; lia].
  - intros i st Hi He. now apply init_particle_evaluated.
Qed.

Lemma update_particle_evaluated cfg W X k s (i : nat) st :
  i < effective_pop cfg ->
  evaluated cfg W X k s (effective_pop cfg) st ->
  evaluated cfg W X k s (effective_pop cfg) (update_particle cfg W X k s (k * s) i st).
Proof.
  intros Hi [Hsz Hcost].
  pose proof (update_particle_sized cfg W X k s _ _ i st Hsz Hi) as Hsz'.
  destruct (update_particle_summary cfg W X k s _ _ i st Hsz Hi)
    as (p & v & Heq & _).
  rewrite Heq in *. clear Heq.
  pose proof Hsz as [Lp _ _ _ _ _ _ Lc _].
  split; [exact Hsz'|]. intros j Hj. unfold tracked.
  destruct (ltb _ (pbest_cost st !!! i)); cbn [pos cost];
    (destruct (Nat.eq_dec j i) as [->|Hne];
     [now rewrite !list_lookup_total_insert_eq by lia
     |rewrite !list_lookup_total_insert_ne by congruence; now apply Hcost]).
Qed.

Lemma evaluated_after cfg W X k s (pre post : list event) :
  round_evaluations (effective_pop cfg) (Z.to_nat (max_iters cfg)) = pre ++ post ->
  evaluated cfg W X k s (effective_pop cfg)
    (swarm_after cfg W X k s (init_evaluations (effective_pop cfg) ++ pre)).
Proof.
  intros Hsplit.
  apply (rounds_inv cfg W X k s (evaluated cfg W X k s (effective_pop cfg)) pre post);
    [apply init_swarm_evaluated| |exact Hsplit].
  intros i st0 Hi H0. now apply update_particle_evaluated.
Qed.

(** X13.  At the end of the initialisation and after every later particle
    evaluation, [cost[i]] is the cost that the objective evaluator gives to
    the current position of particle [i], for every particle; this holds
    for any arithmetic. *)
Theorem current_costs cfg W X k s (pre post : list event) :
  round_evaluations (effective_pop cfg) (Z.to_nat (max_iters cfg)) = pre ++ post ->
  let st := swarm_after cfg W X k s (init_evaluations (effective_pop cfg) ++ pre) in
  forall i, i < effective_pop cfg ->
    cost st !!! i = eval_cost (lb cfg) W X k s (pos st !!! i).
Proof.
  intros Hsplit st. apply (evaluated_after cfg W X k s pre post Hsplit).
Qed.

Section MoreOrdered.
Hypothesis laws : OrderLaws.

Lemma init_swarm_ranked cfg W X k s :
  ranked cfg W X k s (init_swarm cfg W X k s).
Proof.
  pose proof (init_swarm_evaluated cfg W X k s) as He.
  destruct (init_swarm_initialised laws cfg W X k s) as [_ Hrows Hle _].
  split; [exact He| |exact Hle].
  intros i Hi. destruct (Hrows i Hi) as (Hp & Hc & _).
  destruct He as [_ Hcost]. rewrite (Hcost i Hi), Hc, Hp. apply leq_refl.
Qed.

Lemma update_particle_ranked cfg W X k s (i : nat) st :
  i < effective_pop cfg ->
  ranked cfg W X k s st ->
  ranked cfg W X k s (update_particle cfg W X k s (k * s) i st).
Proof.
  intros Hi [He Hpers Hglob].
  pose proof (update_particle_evaluated cfg W X k s i st Hi He) as He'.
  destruct He as [Hsz _].
  destruct (update_particle_summary cfg W X k s _ _ i st Hsz Hi)
    as (p & v & Heq & _).
  rewrite Heq in *. clear Heq. unfold tracked in *.
  set (f := cost_of cfg W X k s p) in *.
  pose proof Hsz as [_ _ _ _ _ _ Lb Lc _].
  destruct (ltb f (pbest_cost st !!! i)) eqn:Hpb;
    split; try exact He'; cbn [pbest_cost cost global_best_cost]; intros j Hj.
  - destruct (Nat.eq_dec j i) as [->|Hne].
    + rewrite !list_lookup_total_insert_eq by lia. apply leq_refl.
    + rewrite !list_lookup_total_insert_ne by congruence. now apply Hpers.
  - destruct (Nat.eq_dec j i) as [->|Hne].
    + rewrite list_lookup_total_insert_eq by lia.
      destruct (ltb f (global_best_cost st)) eqn:Hlt;
        [apply leq_refl|now apply (not_lt_leq laws)].
    + rewrite list_lookup_total_insert_ne by congruence.
      destruct (ltb f (global_best_cost st)) eqn:Hlt; [|now apply Hglob].
      left. eapply lt_leq_trans; [apply (ltb_trans laws)|exact Hlt|now apply Hglob].
  - destruct (Nat.eq_dec j i) as [->|Hne].
    + rewrite list_lookup_total_insert_eq by lia. now apply (not_lt_leq laws).
    + rewrite list_lookup_total_insert_ne by congruence. now apply Hpers.
  - now apply Hglob.
Qed.


End MoreOrdered.

(** The move of a particle lowers or keeps every personal best cost. *)
Lemma update_particle_personal_le cfg W X k s (i j : nat) st :
  sized (effective_pop cfg) (k * s) st ->
  i < effective_pop cfg -> j < effective_pop cfg ->
  leq (pbest_cost (update_particle cfg W X k s (k * s) i st) !!! j)
      (pbest_cost st !!! j).
Proof.
  intros Hsz Hi Hj.
  destruct (update_particle_summary cfg W X k s _ _ i st Hsz Hi)
    as (p & v & Heq & _).
  rewrite Heq. unfold tracked. pose proof Hsz as [_ _ _ _ _ _ Lb _ _].
  destruct (ltb _ (pbest_cost st !!! i)) eqn:Hpb; cbn [pbest_cost]; [|apply leq_refl].
  destruct (Nat.eq_dec j i) as [->|Hne].
  - rewrite list_lookup_total_insert_eq by lia. now left.
  - rewrite list_lookup_total_insert_ne by congruence. apply leq_refl.
Qed.

Section MoreTransitive.
Hypothesis ltb_transitive :
  forall x y z : num, ltb x y = true -> ltb y z = true -> ltb x z = true.

(** X15.  When [<] is transitive, as it is on doubles: once the
    initialisation is over, the personal best cost of a particle never goes
    up; after a longer prefix of the iterations it is below, or the same
    value as, what it was after a shorter one. *)
Theorem personal_best_cost_non_increasing cfg W X k s (p1 p2 p3 : list event) (j : nat) :
  round_evaluations (effective_pop cfg) (Z.to_nat (max_iters cfg)) = p1 ++ p2 ++ p3 ->
  j < effective_pop cfg ->
  leq (pbest_cost (swarm_after cfg W X k s
                     (init_evaluations (effective_pop cfg) ++ p1 ++ p2)) !!! j)
      (pbest_cost (swarm_after cfg W X k s
                     (init_evaluations (effective_pop cfg) ++ p1)) !!! j).
Proof.
  intros Hsplit Hj.
  pose proof (round_evaluations_index (effective_pop cfg) (Z.to_nat (max_iters cfg))) as Hidx.
  rewrite Hsplit in Hidx. apply Forall_app in Hidx. destruct Hidx as [_ Hidx].
  apply Forall_app in Hidx. destruct Hidx as [H2 _].
  assert (Hsz : sized (effective_pop cfg) (k * s)
                  (swarm_after cfg W X k s (init_evaluations (effective_pop cfg) ++ p1))).
  { apply (rounds_inv cfg W X k s (sized (effective_pop cfg) (k * s)) p1 (p2 ++ p3));
      [apply init_swarm_sized| |exact Hsplit].
    intros i st0 Hi H0. now apply update_particle_sized. }
  rewrite (app_assoc _ p1 p2), swarm_after_app.
  generalize dependent (swarm_after cfg W X k s (init_evaluations (effective_pop cfg) ++ p1)).
  clear Hsplit. induction p2 as [|e p2 IH]; intros st Hsz; [apply leq_refl|].
  pose proof (Forall_inv H2) as (i & -> & Hi). apply Forall_inv_tail in H2.
  cbn [fold_left exec].
  eapply leq_trans; [exact ltb_transitive| |].
  - apply IH; [exact H2|]. now apply update_particle_sized.
  - now apply update_particle_personal_le.
Qed.

(** The global best cost at the end of a later iteration is at most the one
    at the end of an earlier iteration. *)
Lemma rounds_best_le cfg W X k s (t1 t2 : nat) :
  t1 <= t2 ->
  leq (global_best_cost (rounds_swarm cfg W X k s t2))
      (global_best_cost (rounds_swarm cfg W X k s t1)).
Proof.
  induction 1 as [|t2 Hle IH]; [apply leq_refl|].
  eapply leq_trans; [exact ltb_transitive| |exact IH].
  unfold rounds_swarm at 1. rewrite for_loop_S. fold (rounds_swarm cfg W X k s t2).
  assert (Hstep : forall st,
            for_loop (effective_pop cfg) (update_particle cfg W X k s (k * s)) st
            = fold_left (fun st e => exec cfg W X k s e st)
                (map Update (seq 0 (effective_pop cfg))) st).
  { intros st. rewrite fold_left_map_event.
    apply (for_loop_fold _ (update_particle cfg W X k s (k * s))). }
  rewrite Hstep.
  apply (run_best_le ltb_transitive cfg W X k s (effective_pop cfg)).
  - apply rounds_swarm_rng.
  - apply Forall_forall. intros e He. apply list_elem_of_In, in_map_iff in He.
    destruct He as (i & <- & Hin). apply in_seq in Hin. simpl. lia.
Qed.

Lemma StronglySorted_seq (a n : nat) : StronglySorted lt (seq a n).
Proof.
  revert a. induction n as [|n IH]; intros a; simpl; constructor; [apply IH|].
  apply Forall_forall. intros x Hx. apply list_elem_of_In, in_seq in Hx. lia.
Qed.

Lemma StronglySorted_filter_map {A B : Type} (R : A -> A -> Prop) (R' : B -> B -> Prop)
    (p : A -> bool) (f : A -> B) (l : list A) :
  (forall a b, R a b -> R' (f a) (f b)) ->
  StronglySorted R l -> StronglySorted R' (map f (List.filter p l)).
Proof.
  intros Hf Hl. induction Hl as [|a l Hl IH Ha]; simpl; [constructor|].
  destruct (p a); simpl; [|exact IH]. constructor; [exact IH|].
  apply Forall_forall. intros y Hy. apply list_elem_of_In, in_map_iff in Hy.
  destruct Hy as (b & <- & Hb). apply List.filter_In in Hb. destruct Hb as [Hb _].
  apply Hf. rewrite Forall_forall in Ha. apply Ha. now apply list_elem_of_In.
Qed.

(** X16.  When [<] is transitive, as it is on doubles: the printed lines
    are in increasing order of iteration and their costs never go up; of
    any two lines, the later one has the larger iteration number and a cost
    that is below, or the same value as, the cost of the earlier one. *)
Theorem printed_costs_non_increasing cfg W X k s :
  StronglySorted (fun a b : nat * num => fst a < fst b /\ leq (snd b) (snd a))
                 (snd (fit_loops cfg W X k s)).
Proof.
  unfold fit_loops. fold (init_swarm cfg W X k s). rewrite iteration_loop. cbn [snd].
  apply (StronglySorted_filter_map lt); [|apply StronglySorted_seq].
  intros a b Hab. cbn [fst snd]. split; [exact Hab|].
  apply rounds_best_le. lia.
Qed.
End MoreTransitive.

End MoreProperties.

(** ** The further properties at the examples *)

Lemma fit_shape_witness :
  shape {| shape := [2; 2]%Z; buf := [Fin 983; Fin 4688; Fin 5642; Fin 4135] |}
  = [shape W0 !!! 1; shape X0 !!! 1].
Proof.
  assert (HW : in_int_range (shape W0 !!! 1)) by (vm_compute; split; [discriminate|reflexivity]).
  assert (HX : in_int_range (shape X0 !!! 1)) by (vm_compute; split; [discriminate|reflexivity]).
  assert (Hfit : fit cfg0 W0 X0
                 = Ok {| shape := [2; 2]%Z;
                         buf := [Fin 983; Fin 4688; Fin 5642; Fin 4135] |})
    by (vm_compute; reflexivity).
  exact (proj1 (fit_shape cfg0 W0 X0 _ HW HX Hfit)).
Defined.

Lemma returned_entry_witness :
  np_at (fit_result cfg0 (eigen_W W0) (eigen_X X0) 2 2) 1 0
  = gbest_pos (fst (fit_loops cfg0 (eigen_W W0) (eigen_X X0) 2 2)) !!! (1 * 2 + 0).
Proof.
  assert (Hi : 1 < 2) by lia. assert (Hj : 0 < 2) by lia.
  exact (proj1 (returned_entry cfg0 (eigen_W W0) (eigen_X X0) 2 2 1 0 Hi Hj)).
Defined.

Lemma eigen_maps_read_by_columns_witness :
  coeff (eigen_X X0) 0 1 = buf X0 !!! (1 * rows (eigen_X X0) + 0).
Proof.
  assert (HW : in_int_range (shape W0 !!! 1)) by (vm_compute; split; [discriminate|reflexivity]).
  assert (HX : in_int_range (shape X0 !!! 1)) by (vm_compute; split; [discriminate|reflexivity]).
  assert (Ha : 0 < rows (eigen_X X0)) by (vm_compute; lia).
  assert (Hb : 1 < cols (eigen_X X0)) by (vm_compute; lia).
  exact (proj1 (proj2 (eigen_maps_read_by_columns W0 X0 0 1 HW HX) Ha Hb)).
Defined.

Lemma nonpositive_max_iters_witness :
  fit (set_max_iters cfg0 (-3)) W0 X0 = fit (set_max_iters cfg0 0) W0 X0.
Proof.
  assert (Hm : (-3 <= 0)%Z) by lia.
  exact (proj2 (proj2 (nonpositive_max_iters cfg0 (-3) W0 X0 Hm))).
Defined.

Lemma first_and_last_line_witness :
  exists before,
    snd (fit_loops cfg0 (eigen_W W0) (eigen_X X0) 2 2)
    = before ++ [(Z.to_nat (max_iters cfg0) - 1,
                  global_best_cost (fst (fit_loops cfg0 (eigen_W W0) (eigen_X X0) 2 2)))].
Proof.
  assert (Hv : verbose cfg0 = true) by reflexivity.
  assert (Hpos : (0 < max_iters cfg0)%Z) by (simpl; lia).
  exact (proj2 (first_and_last_line cfg0 (eigen_W W0) (eigen_X X0) 2 2 Hv Hpos)).
Defined.

Lemma no_dimension_witness :
  buf (fit_result cfg0 (eigen_W W_wide) (eigen_X X_five) 0 1) = [].
Proof.
  assert (Hks : 0 = 0 \/ 1 = 0) by (left; reflexivity).
  exact (proj1 (proj2 (no_dimension cfg0 (eigen_W W_wide) (eigen_X X_five) 0 1 Hks))).
Defined.

Lemma sizes_kept_witness :
  sized (effective_pop cfg0) (2 * 2)
        (swarm_after cfg0 (eigen_W W0) (eigen_X X0) 2 2 [Init 0; Init 1]).
Proof.
  assert (Hsplit : evaluations (effective_pop cfg0) (Z.to_nat (max_iters cfg0))
                   = [Init 0; Init 1]
                     ++ [Init 2; Update 0; Update 1; Update 2; Update 0; Update 1; Update 2])
    by reflexivity.
  exact (proj1 (sizes_kept cfg0 (eigen_W W0) (eigen_X X0) 2 2 _ _ Hsplit)).
Defined.

Lemma rounds_split0 :
  round_evaluations (effective_pop cfg0) (Z.to_nat (max_iters cfg0))
  = [Update 0; Update 1] ++ [Update 2; Update 0; Update 1; Update 2].
Proof. reflexivity. Qed.

Lemma current_costs_witness :
  cost (swarm_after cfg0 (eigen_W W0) (eigen_X X0) 2 2
          (init_evaluations (effective_pop cfg0) ++ [Update 0; Update 1])) !!! 2
  = eval_cost (lb cfg0) (eigen_W W0) (eigen_X X0) 2 2
      (pos (swarm_after cfg0 (eigen_W W0) (eigen_X X0) 2 2
              (init_evaluations (effective_pop cfg0) ++ [Update 0; Update 1])) !!! 2).
Proof.
  assert (H2 : 2 < effective_pop cfg0) by (vm_compute; lia).
  exact (current_costs cfg0 (eigen_W W0) (eigen_X X0) 2 2 _ _ rounds_split0 2 H2).
Defined.


(** * The optimiser without a total order

    The properties of this part assume of [<] at most that it is
    irreflexive and transitive, and of [+] and [*] at most that squares
    and sums of numbers that are not below zero are not below zero; the
    last part proves these laws for doubles. *)

Section Unordered.
Context {num : Type} {AR : Arith num} {rng : Type} {RG : Rng num rng}.
Implicit Types (cfg : @PSOConfig num) (W X : @Matrix num) (k s : nat).
Implicit Types (st : @swarm num rng) (W_np X_np : @ndarray num).

(** ** The update rule along a run *)

Lemma round_evaluations_add (pop a b : nat) :
  round_evaluations pop (a + b) = round_evaluations pop a ++ round_evaluations pop b.
Proof. unfold round_evaluations. now rewrite replicate_add, concat_app. Qed.

Lemma round_evaluations_one (pop : nat) :
  round_evaluations pop 1 = map Update (seq 0 pop).
Proof. unfold round_evaluations. simpl. apply app_nil_r. Qed.

(** The evaluations of a run, cut where particle [i] moves in iteration [t]. *)
Lemma evaluations_at (pop iters t i : nat) :
  t < iters -> i < pop ->
  evaluations pop iters =
    (init_evaluations pop ++ round_evaluations pop t ++ map Update (seq 0 i))
    ++ Update i :: (map Update (seq (S i) (pop - S i))
                    ++ round_evaluations pop (iters - S t)).
Proof.
  intros Ht Hi. rewrite evaluations_split.
  assert (Hit : iters = t + (1 + (iters - S t))) by lia.
  assert (Hseq : seq 0 pop = seq 0 i ++ i :: seq (S i) (pop - S i)).
  { assert (Hpop : pop = i + S (pop - S i)) by lia.
    rewrite Hpop at 1. rewrite seq_app. reflexivity. }
  rewrite Hit at 1.
  rewrite !round_evaluations_add, round_evaluations_one, Hseq, map_app.
  simpl. now rewrite <- !app_assoc.
Qed.

(** The iterations hand the swarm from one particle to the next, and from
    the last particle of an iteration to the first of the next one. *)
Lemma evaluations_next (pop t i : nat) :
  i < pop ->
  (init_evaluations pop ++ round_evaluations pop t ++ map Update (seq 0 i)) ++ [Update i]
  = if Nat.eqb (S i) pop
    then init_evaluations pop ++ round_evaluations pop (S t) ++ map Update (seq 0 0)
    else init_evaluations pop ++ round_evaluations pop t ++ map Update (seq 0 (S i)).
Proof.
  intros Hi. destruct (Nat.eqb_spec (S i) pop) as [He|Hne].
  - simpl. rewrite app_nil_r. replace (S t) with (t + 1) by lia.
    rewrite round_evaluations_add, round_evaluations_one, <- !app_assoc.
    do 2 f_equal. subst pop. now rewrite seq_S, map_app.
  - rewrite seq_S, map_app, <- !app_assoc. reflexivity.
Qed.

(** Claim C3.  In iteration [t] of the loop of line 116 (any [t] below
    [max_iters]) and for each particle [i] in scan order, [st] being the
    swarm when the particle is reached and [st'] the swarm when it is done.
    For each dimension [d] the draws number [2d] and [2d+1] that [unif01]
    takes from the generator of [st] are [r1] and [r2]; the velocity
    becomes [inertia*vel + c1*r1*(pbest - pos) + c2*r2*(gbest - pos)] on
    the entries of [st]; the position becomes the old position plus the
    new velocity, set to [lb] when that is below [lb], and the result then
    set to [ub] when it is above [ub]; [2 * dim] draws are taken in all and
    the other particles are not touched.  The cost [f] of the moved
    position is stored; the personal best becomes [f] and the moved
    position exactly when [f] is below the personal best cost, and then
    the global best becomes [f] and the moved position exactly when [f] is
    below the global best cost.  [st'] is the swarm that the next particle
    of the iteration, or the first particle of the next iteration, is
    reached with, so that its move reads the global best just stored. *)
Theorem update_rule cfg W X k s (t i : nat) :
  (Z.of_nat t < max_iters cfg)%Z -> i < effective_pop cfg ->
  let pop := effective_pop cfg in
  let before :=
    init_evaluations pop ++ round_evaluations pop t ++ map Update (seq 0 i) in
  let st := swarm_after cfg W X k s before in
  let st' := swarm_after cfg W X k s (before ++ [Update i]) in
  let g := rng_st st in
  let v' d :=
    add (add (mul (inertia cfg) (get2 (vel st) i d))
             (mul (mul (c1 cfg) (draw (2 * d) g))
                  (sub (get2 (pbest_pos st) i d) (get2 (pos st) i d))))
        (mul (mul (c2 cfg) (draw (2 * d + 1) g))
             (sub (gbest_pos st !!! d) (get2 (pos st) i d))) in
  let q d := add (get2 (pos st) i d) (v' d) in
  let f := eval_cost (lb cfg) W X k s (pos st' !!! i) in
  let improves := ltb f (pbest_cost st !!! i) in
  let improves_global := improves && ltb f (global_best_cost st) in
  (exists rest,
     evaluations pop (Z.to_nat (max_iters cfg)) = before ++ Update i :: rest)
  /\ fst (fit_loops cfg W X k s)
     = swarm_after cfg W X k s (evaluations pop (Z.to_nat (max_iters cfg)))
  /\ (forall d, d < k * s ->
        get2 (vel st') i d = v' d
        /\ get2 (pos st') i d =
             (if ltb (ub cfg) (if ltb (q d) (lb cfg) then lb cfg else q d)
              then ub cfg
              else (if ltb (q d) (lb cfg) then lb cfg else q d)))
  /\ rng_st st' = rng_after (2 * (k * s)) g
  /\ (forall j, j <> i ->
        pos st' !!! j = pos st !!! j /\ vel st' !!! j = vel st !!! j
        /\ pbest_pos st' !!! j = pbest_pos st !!! j
        /\ pbest_cost st' !!! j = pbest_cost st !!! j
        /\ cost st' !!! j = cost st !!! j)
  /\ cost st' !!! i = f
  /\ pbest_cost st' !!! i = (if improves then f else pbest_cost st !!! i)
  /\ pbest_pos st' !!! i = (if improves then pos st' !!! i else pbest_pos st !!! i)
  /\ global_best_cost st' = (if improves_global then f else global_best_cost st)
  /\ gbest_pos st' = (if improves_global then pos st' !!! i else gbest_pos st)
  /\ st' = swarm_after cfg W X k s
             (if Nat.eqb (S i) pop
              then init_evaluations pop ++ round_evaluations pop (S t)
                   ++ map Update (seq 0 0)
              else init_evaluations pop ++ round_evaluations pop t
                   ++ map Update (seq 0 (S i))).
Proof.
  intros Ht Hi pop before st st' g v' q f improves improves_global.
  assert (Ht' : t < Z.to_nat (max_iters cfg)) by lia.
  pose proof (evaluations_at pop (Z.to_nat (max_iters cfg)) t i Ht' Hi) as Hcut.
  fold before in Hcut.
  assert (Hsz : sized pop (k * s) st).
  { pose proof (evaluations_index pop (Z.to_nat (max_iters cfg))) as Hidx.
    rewrite Hcut in Hidx. apply Forall_app in Hidx. destruct Hidx as [Hpre _].
    unfold st, swarm_after. apply run_sized; [apply fresh_swarm_sized|exact Hpre]. }
  assert (Hst' : st' = update_particle cfg W X k s (k * s) i st).
  { unfold st'. rewrite swarm_after_app. reflexivity. }
  destruct (update_particle_summary cfg W X k s _ _ i st Hsz Hi)
    as (p & v & Heq & Hp & Hv & Hmove).
  rewrite Heq in Hst'. unfold tracked in Hst'.
  pose proof Hsz as [Lp _ Lv _ Lb _ Lc Lk _].
  set (b := ltb (cost_of cfg W X k s p) (pbest_cost st !!! i)) in Hst'.
  assert (Hpi : pos st' !!! i = p).
  { rewrite Hst'. destruct b; cbn [pos]; apply list_lookup_total_insert_eq; lia. }
  assert (Hvi : vel st' !!! i = v).
  { rewrite Hst'. destruct b; cbn [vel]; apply list_lookup_total_insert_eq; lia. }
  assert (Hf : cost_of cfg W X k s p = f).
  { unfold f. now rewrite Hpi. }
  assert (Hb : b = improves).
  { unfold b, improves. now rewrite Hf. }
  clearbody b. subst b. rewrite Hf in Hst'.
  split; [eexists; exact Hcut|].
  split; [apply fit_loops_evaluations|].
  split.
  { intros d Hd. destruct (Hmove d Hd) as [Hvd Hpd].
    assert (Hgv : get2 (vel st') i d = v !!! d) by (unfold get2; now rewrite Hvi).
    assert (Hgp : get2 (pos st') i d = p !!! d) by (unfold get2; now rewrite Hpi).
    assert (Hv' : v !!! d = v' d) by exact Hvd.
    rewrite Hgv, Hgp. split; [exact Hv'|]. rewrite Hpd, Hv'. reflexivity. }
  split.
  { rewrite Hst'. destruct improves; reflexivity. }
  split.
  { intros j Hj. rewrite Hst'.
    destruct improves;
      cbn [pos vel pbest_pos pbest_cost cost];
      rewrite ?list_lookup_total_insert_ne by congruence; repeat split. }
  split.
  { rewrite Hst'. destruct improves; cbn [cost];
      apply list_lookup_total_insert_eq; lia. }
  split.
  { rewrite Hst'. destruct improves; cbn [pbest_cost]; [|reflexivity].
    apply list_lookup_total_insert_eq. lia. }
  split.
  { rewrite Hpi. rewrite Hst'. destruct improves; cbn [pbest_pos]; [|reflexivity].
    apply list_lookup_total_insert_eq. lia. }
  unfold improves_global.
  split.
  { rewrite Hst'. destruct improves; cbn [global_best_cost andb]; reflexivity. }
  split.
  { rewrite Hpi. rewrite Hst'. destruct improves; cbn [gbest_pos andb]; reflexivity. }
  unfold st', before. f_equal. now apply evaluations_next.
Qed.

(** ** The objective evaluator, entry by entry *)

Lemma for_loop_ext {S : Type} (n : nat) (f g : nat -> S -> S) (st : S) :
  (forall i x, i < n -> f i x = g i x) ->
  for_loop n f st = for_loop n g st.
Proof.
  intros H. induction n as [|n IH]; [reflexivity|].
  simpl. rewrite IH by (intros; apply H; lia). apply H. lia.
Qed.

(** The entries of [H] are the entries of the vector, raised to [lo]. *)
Lemma coeff_eval_cost_H (lo : num) k s (flatH : list num) (i j : nat) :
  i < k -> j < s ->
  coeff (eval_cost_H lo k s flatH) i j = clamp_low lo (flatH !!! (j * k + i)).
Proof.
  intros Hi Hj. destruct (eval_cost_H_inv lo k s flatH) as (Hr & _ & _ & He).
  unfold coeff. rewrite Hr. now apply He.
Qed.

(** A column-major list of [c] columns of [r] entries is determined by its
    entries. *)
Lemma blocks_eq {A : Type} `{Inhabited A} (f : nat -> nat -> A) (r c : nat) (l : list A) :
  length l = c * r ->
  (forall j a, j < c -> a < r -> l !!! (j * r + a) = f j a) ->
  l = flat_map (fun j => map (f j) (seq 0 r)) (seq 0 c).
Proof.
  intros Hlen Hent.
  apply (list_eq_same_length _ _ (c * r)); [apply length_blocks|exact Hlen|].
  intros n x y Hn Hx Hy.
  assert (Hr : 0 < r) by (destruct r; lia).
  assert (Hdiv : n = n / r * r + n mod r).
  { rewrite (Nat.div_mod_eq n r) at 1. lia. }
  assert (Ha : n mod r < r) by (apply Nat.mod_upper_bound; lia).
  assert (Hj : n / r < c) by (apply Nat.Div0.div_lt_upper_bound; lia).
  apply list_lookup_total_correct in Hx.
  rewrite Hdiv, (lookup_blocks f r c _ _ Ha Hj) in Hy.
  injection Hy as <-. rewrite <- Hx, Hdiv at 1. now apply Hent.
Qed.

(** [eval_cost] written out: the sum, from zero and column after column,
    of the squares of [X(a,j) - sum_i W(a,i) * h i j], the inner sum
    accumulated from zero, where [h i j] is the entry of flat index
    [j*k + i], raised to [lo] when it is below [lo]. *)
Lemma eval_cost_formula (lo : num) W X k s (flatH : list num) (h : nat -> nat -> num) :
  cols W = k -> rows X = rows W -> length (coeffs X) = s * rows W ->
  (forall i j, i < k -> j < s -> h i j = clamp_low lo (flatH !!! (j * k + i))) ->
  eval_cost lo W X k s flatH = residual_cost W X k s h.
Proof.
  intros Hk Hrows HX Hh.
  unfold eval_cost, squaredNorm, sum_squares, residual_cost. f_equal.
  destruct (eval_cost_H_inv lo k s flatH) as (Hr & Hc & Hl & _).
  set (H := eval_cost_H lo k s flatH) in *.
  assert (Hmul : length (coeffs (mat_mul W H)) = s * rows W).
  { simpl. now rewrite length_blocks, Hc. }
  apply (blocks_eq (fun j a => residual_entry W X k h a j)).
  - unfold mat_sub. cbn [coeffs]. rewrite length_zip_with, HX, Hmul. lia.
  - intros j a Hj Ha.
    assert (Hco : coeffs (mat_sub X (mat_mul W H)) !!! (j * rows W + a)
                  = coeff (mat_sub X (mat_mul W H)) a j).
    { unfold coeff. simpl. now rewrite Hrows. }
    rewrite Hco.
    rewrite coeff_mat_sub; [|simpl; congruence|rewrite HX, Hrows; nia|
                              rewrite Hmul, Hrows; nia].
    rewrite coeff_mat_mul by (try assumption; simpl; lia).
    unfold residual_entry, dot_row_col. f_equal. rewrite Hk.
    apply for_loop_ext. intros i acc Hi.
    unfold H. now rewrite coeff_eval_cost_H, Hh.
Qed.

Lemma sum_squares_not_negative (nn : NotNegative) (l : list num) (acc : num) :
  ltb acc zero = false ->
  ltb (fold_left (fun acc x => add acc (mul x x)) l acc) zero = false.
Proof.
  revert acc. induction l as [|x l IH]; intros acc Hacc; [exact Hacc|].
  simpl. apply IH. apply (sum_not_negative nn); [exact Hacc|].
  apply (square_not_negative nn).
Qed.

(** Claim C9.  [eval_cost] for a [g] by [k] matrix [W] and a [g] by [s]
    matrix [X], on a flat vector and the lower bound [lo].  The matrix [H]
    it builds has at row [i], column [j] the entry of flat index
    [j*k + i], set to [lo] when it is below [lo] and left as it is
    otherwise.  The result is the sum, accumulated from zero column after
    column, of the squares of the entries [X(a,j) - sum_i W(a,i) * H(i,j)]
    of the residual, the inner sum accumulated from zero.  An entry that is
    not below [lo] is kept even when it is above [ub], where the projection
    of the position update sets it to [ub].  The result is never below
    zero when no square and no sum of numbers that are not below zero is:
    on doubles it is at least zero or NaN. *)
Theorem eval_cost_spec (lo : num) W X k s (flatH : list num) :
  NotNegative ->
  cols W = k -> rows X = rows W -> length (coeffs X) = s * rows W ->
  let h i j :=
    if ltb (flatH !!! (j * k + i)) lo then lo else flatH !!! (j * k + i) in
  let r a j :=
    sub (coeff X a j)
        (for_loop k (fun i acc => add acc (mul (coeff W a i) (h i j))) zero) in
  (forall i j, i < k -> j < s -> coeff (eval_cost_H lo k s flatH) i j = h i j)
  /\ eval_cost lo W X k s flatH
     = fold_left (fun acc x => add acc (mul x x))
         (flat_map (fun j => map (fun a => r a j) (seq 0 (rows W))) (seq 0 s))
         zero
  /\ (forall cfg i j,
        lb cfg = lo ->
        ltb (flatH !!! (j * k + i)) lo = false ->
        ltb (ub cfg) (flatH !!! (j * k + i)) = true ->
        h i j = flatH !!! (j * k + i)
        /\ project cfg (flatH !!! (j * k + i)) = ub cfg)
  /\ ltb (eval_cost lo W X k s flatH) zero = false.
Proof.
  intros nn Hk Hrows HX h r.
  split; [intros i j Hi Hj; now apply coeff_eval_cost_H|].
  split; [now apply eval_cost_formula|].
  split.
  { intros cfg i j Hlo Hnot Habove. unfold h, project.
    rewrite Hlo, Hnot, Habove. split; reflexivity. }
  unfold eval_cost, squaredNorm, sum_squares.
  apply (sum_squares_not_negative nn). apply (zero_not_negative nn).
Qed.

(** ** The lower clamp of the objective evaluator *)

Lemma Matrix_eq (A B : @Matrix num) :
  rows A = rows B -> cols A = cols B -> coeffs A = coeffs B -> A = B.
Proof. destruct A, B; simpl; intros; subst; reflexivity. Qed.

(** The matrix [H] depends on the first [k*s] entries of the vector, raised
    to the lower bound, and on nothing else. *)
Lemma eval_cost_H_ext (lo : num) k s (f1 f2 : list num) :
  (forall n, n < k * s -> clamp_low lo (f1 !!! n) = clamp_low lo (f2 !!! n)) ->
  eval_cost_H lo k s f1 = eval_cost_H lo k s f2.
Proof.
  intros Hsame.
  destruct (eval_cost_H_inv lo k s f1) as (Hr1 & Hc1 & Hl1 & He1).
  destruct (eval_cost_H_inv lo k s f2) as (Hr2 & Hc2 & Hl2 & He2).
  apply Matrix_eq; try congruence.
  apply list_eq_lookup_total; [congruence|].
  intros n Hn. rewrite Hl1 in Hn.
  assert (Hk : 0 < k) by (destruct k; lia).
  assert (Hdiv : n = n / k * k + n mod k).
  { rewrite (Nat.div_mod_eq n k) at 1. lia. }
  assert (Hi : n mod k < k) by (apply Nat.mod_upper_bound; lia).
  assert (Hj : n / k < s).
  { apply Nat.Div0.div_lt_upper_bound. lia. }
  rewrite Hdiv.
  rewrite (He1 _ _ Hj Hi), (He2 _ _ Hj Hi). rewrite <- Hdiv.
  apply Hsame. lia.
Qed.

(** Raising twice is raising once, whatever [<] is. *)
Lemma clamp_low_twice (lo x : num) :
  clamp_low lo (clamp_low lo x) = clamp_low lo x.
Proof.
  unfold clamp_low. destruct (ltb x lo) eqn:Hx; [|now rewrite Hx].
  now destruct (ltb lo lo).
Qed.

Lemma lookup_total_map_clamp (lo : num) (flat : list num) (n : nat) :
  clamp_low lo (map (clamp_low lo) flat !!! n) = clamp_low lo (flat !!! n).
Proof.
  rewrite !list_lookup_total_alt.
  change (map (clamp_low lo) flat) with (clamp_low lo <$> flat).
  rewrite list_lookup_fmap. destruct (flat !! n) as [x|]; simpl; [|reflexivity].
  apply clamp_low_twice.
Qed.

(** X19.  The cost does not see how far below [lb] an entry is, nor any
    entry past the first [k*s]: a vector has the cost of the vector with
    every entry that is below [lb] set to [lb], and the cost of its first
    [k*s] entries.  This holds whatever [<] is, NaN entries included. *)
Theorem cost_of_raised lo W X k s (flatH : list num) :
  eval_cost lo W X k s (map (clamp_low lo) flatH) = eval_cost lo W X k s flatH
  /\ eval_cost lo W X k s (take (k * s) flatH) = eval_cost lo W X k s flatH.
Proof.
  unfold eval_cost. split.
  - rewrite (eval_cost_H_ext lo k s (map (clamp_low lo) flatH) flatH); [reflexivity|].
    intros n _. apply lookup_total_map_clamp.
  - rewrite (eval_cost_H_ext lo k s (take (k * s) flatH) flatH); [reflexivity|].
    intros n Hn. now rewrite lookup_total_take_lt.
Qed.

Lemma eval_cost_H_not_below lo k s (flatH : list num) :
  length flatH = k * s -> Forall (fun x => ltb x lo = false) flatH ->
  coeffs (eval_cost_H lo k s flatH) = flatH.
Proof.
  intros Hlen Hall.
  destruct (eval_cost_H_inv lo k s flatH) as (Hr & Hc & Hl & He).
  apply list_eq_lookup_total; [congruence|].
  intros n Hn. rewrite Hl in Hn.
  assert (Hk : 0 < k) by (destruct k; lia).
  assert (Hdiv : n = n / k * k + n mod k).
  { rewrite (Nat.div_mod_eq n k) at 1. lia. }
  assert (Hi : n mod k < k) by (apply Nat.mod_upper_bound; lia).
  assert (Hj : n / k < s).
  { apply Nat.Div0.div_lt_upper_bound. lia. }
  rewrite Hdiv at 1. rewrite (He _ _ Hj Hi), <- Hdiv.
  assert (Hn' : ltb (flatH !!! n) lo = false).
  { apply (Forall_entry (fun x => ltb x lo = false)); [exact Hall|lia]. }
  now rewrite Hn'.
Qed.

(** X20.  On a vector of [k*s] entries none of which is below [lb] (for
    doubles: each is at least [lb] or NaN), the lower clamp of the
    evaluator changes nothing: the entries of the matrix [H] it builds are
    the entries of the vector, and [H(i,j)] is the entry of flat index
    [j*k + i]. *)
Theorem clamp_idle lo k s (flatH : list num) :
  length flatH = k * s -> Forall (fun x => ltb x lo = false) flatH ->
  coeffs (eval_cost_H lo k s flatH) = flatH
  /\ forall i j, i < k -> j < s ->
       coeff (eval_cost_H lo k s flatH) i j = flatH !!! (j * k + i).
Proof.
  intros Hlen Hall.
  pose proof (eval_cost_H_not_below lo k s flatH Hlen Hall) as Hco.
  split; [exact Hco|]. intros i j Hi Hj.
  destruct (eval_cost_H_inv lo k s flatH) as (Hr & _).
  unfold coeff. now rewrite Hr, Hco.
Qed.

(** ** The projection *)

Lemma project_within cfg (q : num) :
  (forall x : num, ltb x x = false) ->
  ltb (ub cfg) (lb cfg) = false ->
  within (lb cfg) (ub cfg) (project cfg q).
Proof.
  intros Hirr Hbox. unfold project, within.
  destruct (ltb q (lb cfg)) eqn:Hlo.
  - rewrite Hbox. now rewrite Hirr.
  - destruct (ltb (ub cfg) q) eqn:Hhi; [now rewrite Hbox, Hirr|now rewrite Hlo, Hhi].
Qed.

Lemma project_fixes cfg (q : num) :
  within (lb cfg) (ub cfg) q -> project cfg q = q.
Proof. intros [Hlo Hhi]. unfold project. now rewrite Hlo, Hhi. Qed.

(** X17.  For a [<] that is irreflexive and transitive, as on doubles, and
    bounds with [ub] not below [lb]: the projection of lines 127-129
    returns a value that is not below [lb] and not above [ub]; it leaves a
    value that is neither below [lb] nor above [ub] as it is (for doubles:
    the values of [[lb, ub]], and NaN); projecting twice is projecting
    once; values below [lb] go to [lb] and values above [ub] go to [ub]. *)
Theorem project_box cfg (p : num) :
  PartialOrder -> ltb (ub cfg) (lb cfg) = false ->
  within (lb cfg) (ub cfg) (project cfg p)
  /\ (within (lb cfg) (ub cfg) p -> project cfg p = p)
  /\ project cfg (project cfg p) = project cfg p
  /\ (ltb p (lb cfg) = true -> project cfg p = lb cfg)
  /\ (ltb (ub cfg) p = true -> project cfg p = ub cfg).
Proof.
  intros po Hbox.
  pose proof (project_within cfg p (lt_irreflexive po) Hbox) as Hin.
  split; [exact Hin|]. split; [apply project_fixes|].
  split; [now apply project_fixes|]. split.
  - intros Hlt. unfold project. now rewrite Hlt, Hbox.
  - intros Hgt. unfold project.
    destruct (ltb p (lb cfg)) eqn:Hlo; [|now rewrite Hgt].
    pose proof (lt_transitive po _ _ _ Hgt Hlo) as H. congruence.
Qed.


(** ** The bests along a run *)

(** The row of a particle that an insertion at another index leaves alone. *)
Lemma lookup_total_insert_row (m : list (list num)) (i j : nat) (p : list num) :
  i < length m ->
  <[i := p]> m !!! j = if Nat.eqb i j then p else m !!! j.
Proof.
  intros Hi. destruct (Nat.eqb_spec i j) as [->|Hne].
  - now apply list_lookup_total_insert_eq.
  - now apply list_lookup_total_insert_ne.
Qed.

Lemma lookup_total_insert_entry (l : list num) (i j : nat) (c : num) :
  i < length l ->
  <[i := c]> l !!! j = if Nat.eqb i j then c else l !!! j.
Proof.
  intros Hi. destruct (Nat.eqb_spec i j) as [->|Hne].
  - now apply list_lookup_total_insert_eq.
  - now apply list_lookup_total_insert_ne.
Qed.

(** The cross-references hold while the initialisation runs and are kept
    by every move, whatever [<] is. *)
Lemma init_particle_linked cfg W X k s (n : nat) st :
  n < effective_pop cfg ->
  linked cfg W X k s n st ->
  linked cfg W X k s (Datatypes.S n) (init_particle cfg W X k s (k * s) n st).
Proof.
  intros Hn [Hsz Hpers Hglob].
  pose proof (init_particle_sized cfg W X k s _ _ n st Hsz Hn) as Hsz'.
  destruct (init_particle_summary cfg W X k s _ _ n st Hsz Hn)
    as (p & v & Heq & Hp & Hv & _).
  rewrite Heq in *. clear Heq. cbv zeta in *. unfold cost_of in *.
  set (c := eval_cost (lb cfg) W X k s p) in *.
  pose proof Hsz as [Lp _ _ _ Lb _ Lc Lk _].
  split; cbn [rng_st pos vel pbest_pos pbest_cost cost global_best_cost gbest_pos].
  - exact Hsz'.
  - intros i Hi.
    rewrite lookup_total_insert_row, lookup_total_insert_entry by lia.
    destruct (Nat.eqb_spec n i) as [->|Hne]; [reflexivity|apply Hpers; lia].
  - destruct (ltb c (global_best_cost st)) eqn:Hlt.
    + right. exists n.
      rewrite lookup_total_insert_row, lookup_total_insert_entry by lia.
      rewrite Nat.eqb_refl. repeat split. lia.
    + destruct Hglob as [(Hinf & Hz & Hnone)|(m & Hm & Hc & Hg)].
      * left. repeat split; try assumption.
        intros j Hj. rewrite lookup_total_insert_entry by lia.
        destruct (Nat.eqb_spec n j) as [->|Hne]; [now rewrite <- Hinf|].
        apply Hnone. lia.
      * right. exists m.
        rewrite lookup_total_insert_row, lookup_total_insert_entry by lia.
        destruct (Nat.eqb_spec n m) as [->|Hne]; [lia|].
        repeat split; try assumption. lia.
Qed.

Lemma init_swarm_linked cfg W X k s :
  linked cfg W X k s (effective_pop cfg) (init_swarm cfg W X k s).
Proof.
  unfold init_swarm.
  apply (for_loop_inv (fun n st => linked cfg W X k s n st)).
  - split; [apply fresh_swarm_sized|intros; lia|].
    left. repeat split. intros; lia.
  - intros i st Hi Hinv. now apply init_particle_linked.
Qed.

Lemma update_particle_linked cfg W X k s (i : nat) st :
  i < effective_pop cfg ->
  linked cfg W X k s (effective_pop cfg) st ->
  linked cfg W X k s (effective_pop cfg) (update_particle cfg W X k s (k * s) i st).
Proof.
  intros Hi [Hsz Hpers Hglob].
  pose proof (update_particle_sized cfg W X k s _ _ i st Hsz Hi) as Hsz'.
  destruct (update_particle_summary cfg W X k s _ _ i st Hsz Hi)
    as (p & v & Heq & _).
  rewrite Heq in *. clear Heq. unfold tracked, cost_of in *.
  set (f := eval_cost (lb cfg) W X k s p) in *.
  pose proof Hsz as [Lp _ _ _ Lb _ Lc Lk _].
  destruct (ltb f (pbest_cost st !!! i)) eqn:Hpb;
    split; try exact Hsz';
    cbn [rng_st pos vel pbest_pos pbest_cost cost global_best_cost gbest_pos];
    try assumption.
  - intros j Hj.
    rewrite lookup_total_insert_row, lookup_total_insert_entry by lia.
    destruct (Nat.eqb_spec i j) as [->|Hne]; [reflexivity|now apply Hpers].
  - destruct (ltb f (global_best_cost st)) eqn:Hlt.
    + right. exists i.
      rewrite lookup_total_insert_row, lookup_total_insert_entry by lia.
      rewrite Nat.eqb_refl. repeat split. exact Hi.
    + destruct Hglob as [(Hinf & Hz & Hnone)|(m & Hm & Hc & Hg)].
      * left. repeat split; try assumption.
        intros j Hj. rewrite lookup_total_insert_entry by lia.
        destruct (Nat.eqb_spec i j) as [->|Hne]; [now rewrite <- Hinf|].
        now apply Hnone.
      * right. exists m.
        rewrite lookup_total_insert_row, lookup_total_insert_entry by lia.
        destruct (Nat.eqb_spec i m) as [->|Hne]; [congruence|].
        repeat split; assumption.
Qed.

Lemma linked_after cfg W X k s (pre post : list event) :
  round_evaluations (effective_pop cfg) (Z.to_nat (max_iters cfg)) = pre ++ post ->
  linked cfg W X k s (effective_pop cfg)
    (swarm_after cfg W X k s (init_evaluations (effective_pop cfg) ++ pre)).
Proof.
  intros Hsplit.
  apply (rounds_inv cfg W X k s (linked cfg W X k s (effective_pop cfg)) pre post);
    [apply init_swarm_linked| |exact Hsplit].
  intros i st0 Hi H0. now apply update_particle_linked.
Qed.

(** ** Positions, evaluator and result *)

Lemma fit_result_buf cfg W X k s :
  buf (fit_result cfg W X k s) = gbest_pos (fst (fit_loops cfg W X k s))
  /\ length (buf (fit_result cfg W X k s)) = k * s.
Proof.
  assert (Hsz : sized (effective_pop cfg) (k * s) (fst (fit_loops cfg W X k s))).
  { rewrite fit_loops_fst.
    apply (rounds_swarm_rng cfg W X k s (Z.to_nat (max_iters cfg))). }
  destruct Hsz as [_ _ _ _ _ _ _ _ Hg].
  unfold fit_result. rewrite build_H_buf by exact Hg. split; [reflexivity|exact Hg].
Qed.

(** X23.  At the end of the initialisation and after every later particle
    evaluation the global best cost is the value the objective evaluator
    gives to the global best position, unless the global best is untouched
    (cost infinity, position the zero vector); at the end of the run the
    global best cost is the evaluator's value of the returned buffer,
    unless that buffer is the untouched zero vector.  This holds whatever
    [<] is. *)
Theorem best_cost_of_best_position cfg W X k s (pre post : list event) :
  round_evaluations (effective_pop cfg) (Z.to_nat (max_iters cfg)) = pre ++ post ->
  let st := swarm_after cfg W X k s (init_evaluations (effective_pop cfg) ++ pre) in
  let final := fst (fit_loops cfg W X k s) in
  ((global_best_cost st = infinity /\ gbest_pos st = replicate (k * s) zero)
   \/ global_best_cost st = eval_cost (lb cfg) W X k s (gbest_pos st))
  /\ ((global_best_cost final = infinity
       /\ buf (fit_result cfg W X k s) = replicate (k * s) zero)
      \/ global_best_cost final
         = eval_cost (lb cfg) W X k s (buf (fit_result cfg W X k s))).
Proof.
  intros Hsplit st final.
  assert (Hany : forall st0, linked cfg W X k s (effective_pop cfg) st0 ->
            (global_best_cost st0 = infinity /\ gbest_pos st0 = replicate (k * s) zero)
            \/ global_best_cost st0 = eval_cost (lb cfg) W X k s (gbest_pos st0)).
  { intros st0 [_ Hpers [(Hinf & Hz & _)|(m & Hm & Hc & Hg)]]; [now left|].
    right. now rewrite Hc, Hg, (Hpers m Hm). }
  split; [apply Hany; now apply (linked_after cfg W X k s pre post)|].
  destruct (fit_result_buf cfg W X k s) as [-> _].
  apply Hany. unfold final. rewrite fit_loops_evaluations, evaluations_split.
  apply (linked_after cfg W X k s _ []). now rewrite app_nil_r.
Qed.

Section Partial.
Hypothesis po : PartialOrder.

(** The invariant of the initialisation loop. *)
Lemma init_particle_started cfg W X k s (n : nat) st :
  n < effective_pop cfg ->
  started cfg W X k s n st ->
  started cfg W X k s (Datatypes.S n) (init_particle cfg W X k s (k * s) n st).
Proof.
  intros Hn [Hsz Hrows Hbest].
  pose proof (init_particle_sized cfg W X k s _ _ n st Hsz Hn) as Hsz'.
  destruct (init_particle_summary cfg W X k s _ _ n st Hsz Hn)
    as (p & v & Heq & Hp & Hv & _).
  rewrite Heq in *. clear Heq. cbv zeta in *.
  fold (eval_cost (lb cfg) W X k s p) in *.
  unfold cost_of in *.
  set (c := eval_cost (lb cfg) W X k s p) in *.
  pose proof Hsz as [Lp _ _ _ Lb _ Lc Lk _].
  split; cbn [rng_st pos vel pbest_pos pbest_cost cost global_best_cost gbest_pos].
  - exact Hsz'.
  - intros i Hi.
    rewrite !lookup_total_insert_row, !lookup_total_insert_entry by lia.
    destruct (Nat.eqb_spec n i) as [->|Hne]; [repeat split|apply Hrows; lia].
  - destruct (ltb c (global_best_cost st)) eqn:Hlt.
    + right. exists n.
      rewrite !lookup_total_insert_row, !lookup_total_insert_entry by lia.
      rewrite Nat.eqb_refl.
      assert (Hfin : ltb c infinity = true).
      { destruct Hbest as [(Hinf & _)|(m & _ & Hc & _ & Hm & _)].
        - now rewrite <- Hinf.
        - apply (lt_transitive po _ (pbest_cost st !!! m)); [now rewrite <- Hc|exact Hm]. }
      assert (Hothers : forall j, j < n -> ltb (pbest_cost st !!! j) c = false
                                         /\ pbest_cost st !!! j <> c).
      { intros j Hj.
        destruct Hbest as [(Hinf & _ & Hnone)|(m & Hm & Hc & _ & _ & Hleast & _)].
        - split.
          + destruct (ltb (pbest_cost st !!! j) c) eqn:Hjc; [|reflexivity].
            pose proof (lt_transitive po _ _ _ Hjc Hfin) as H.
            rewrite (Hnone j Hj) in H. discriminate.
          + intros He. pose proof (Hnone j Hj) as H. rewrite He in H. congruence.
        - rewrite Hc in Hlt. split.
          + destruct (ltb (pbest_cost st !!! j) c) eqn:Hjc; [|reflexivity].
            pose proof (lt_transitive po _ _ _ Hjc Hlt) as H.
            rewrite (Hleast j) in H by lia. discriminate.
          + intros He. pose proof (Hleast j) as H. rewrite He in H.
            rewrite H in Hlt by lia. discriminate. }
      repeat split; [lia|exact Hfin| |].
      * intros j Hj. rewrite lookup_total_insert_entry by lia.
        destruct (Nat.eqb_spec n j) as [->|Hne]; [apply (lt_irreflexive po)|].
        apply Hothers. lia.
      * intros j Hj. rewrite lookup_total_insert_entry by lia.
        destruct (Nat.eqb_spec n j) as [->|Hne]; [lia|]. now apply Hothers.
    + destruct Hbest as [(Hinf & Hz & Hnone)|(m & Hm & Hc & Hg & Hfin & Hleast & Hfirst)].
      * left. repeat split; try assumption.
        intros j Hj. rewrite lookup_total_insert_entry by lia.
        destruct (Nat.eqb_spec n j) as [->|Hne]; [now rewrite <- Hinf|].
        apply Hnone. lia.
      * right. exists m.
        rewrite !lookup_total_insert_row, !lookup_total_insert_entry by lia.
        destruct (Nat.eqb_spec n m) as [->|Hne]; [lia|].
        repeat split; try assumption; [lia| |].
        -- intros j Hj. rewrite lookup_total_insert_entry by lia.
           destruct (Nat.eqb_spec n j) as [->|Hnj]; [now rewrite <- Hc|].
           apply Hleast. lia.
        -- intros j Hj. rewrite lookup_total_insert_entry by lia.
           destruct (Nat.eqb_spec n j) as [->|Hnj]; [lia|]. now apply Hfirst.
Qed.

Lemma init_swarm_started cfg W X k s :
  started cfg W X k s (effective_pop cfg) (init_swarm cfg W X k s).
Proof.
  unfold init_swarm.
  apply (for_loop_inv (fun n st => started cfg W X k s n st)).
  - split; [apply fresh_swarm_sized|intros; lia|].
    left. repeat split. intros; lia.
  - intros i st Hi Hinv. now apply init_particle_started.
Qed.

(** After the initialisation no personal best cost is below the global
    best cost, and no move changes that. *)
Lemma started_lowest cfg W X k s (n : nat) st :
  started cfg W X k s n st -> lowest n st.
Proof.
  intros [_ _ Hbest] j Hj.
  destruct Hbest as [(Hinf & _ & Hnone)|(m & _ & Hc & _ & _ & Hleast & _)].
  - rewrite Hinf. now apply Hnone.
  - rewrite Hc. now apply Hleast.
Qed.

Lemma update_particle_lowest cfg W X k s (i : nat) st :
  i < effective_pop cfg ->
  sized (effective_pop cfg) (k * s) st ->
  lowest (effective_pop cfg) st ->
  lowest (effective_pop cfg) (update_particle cfg W X k s (k * s) i st).
Proof.
  intros Hi Hsz Hlow.
  destruct (update_particle_summary cfg W X k s _ _ i st Hsz Hi)
    as (p & v & Heq & _).
  rewrite Heq. clear Heq. unfold tracked, cost_of.
  set (f := eval_cost (lb cfg) W X k s p).
  pose proof Hsz as [_ _ _ _ _ _ Lc _ _].
  destruct (ltb f (pbest_cost st !!! i)) eqn:Hpb; [|exact Hlow].
  intros j Hj. cbn [pbest_cost global_best_cost].
  rewrite lookup_total_insert_entry by lia.
  destruct (ltb f (global_best_cost st)) eqn:Hlt.
  - destruct (Nat.eqb_spec i j) as [->|Hne]; [apply (lt_irreflexive po)|].
    destruct (ltb (pbest_cost st !!! j) f) eqn:Hjf; [|reflexivity].
    pose proof (lt_transitive po _ _ _ Hjf Hlt) as H.
    rewrite (Hlow j Hj) in H. discriminate.
  - destruct (Nat.eqb_spec i j) as [->|Hne]; [exact Hlt|now apply Hlow].
Qed.

Lemma lowest_after cfg W X k s (pre post : list event) :
  round_evaluations (effective_pop cfg) (Z.to_nat (max_iters cfg)) = pre ++ post ->
  lowest (effective_pop cfg)
    (swarm_after cfg W X k s (init_evaluations (effective_pop cfg) ++ pre)).
Proof.
  intros Hsplit.
  apply (rounds_inv cfg W X k s
           (fun st => sized (effective_pop cfg) (k * s) st
                      /\ lowest (effective_pop cfg) st) pre post);
    [| |exact Hsplit].
  - split; [apply init_swarm_sized|].
    apply (started_lowest cfg W X k s). apply init_swarm_started.
  - intros i st0 Hi [Hsz Hlow].
    split; [now apply update_particle_sized|now apply update_particle_lowest].
Qed.


(** Claim C8.  With [max_iters = 0] the loop over iterations does not run:
    the swarm [fit] ends with is the initial swarm and nothing is printed.
    For a [<] that is irreflexive and transitive, as on doubles: when the
    cost of some initial particle is below infinity, the buffer of the
    returned [k] by [s] array is the position of the initial particle [m]
    such that no particle's cost is below the cost of [m] and no particle
    before [m] has the cost of [m]; when no initial cost is below infinity,
    the returned buffer is all zeros. *)
Theorem zero_iterations cfg W X k s :
  max_iters cfg = 0%Z ->
  let st := init_swarm cfg W X k s in
  let c j := eval_cost (lb cfg) W X k s (pos st !!! j) in
  fit_loops cfg W X k s = (st, [])
  /\ shape (fit_result cfg W X k s) = [Z.of_nat k; Z.of_nat s]
  /\ (forall j, j < effective_pop cfg -> pbest_cost st !!! j = c j)
  /\ (((forall j, j < effective_pop cfg -> ltb (c j) infinity = false)
       /\ buf (fit_result cfg W X k s) = replicate (k * s) zero)
      \/ exists m, m < effective_pop cfg
           /\ buf (fit_result cfg W X k s) = pos st !!! m
           /\ ltb (c m) infinity = true
           /\ (forall j, j < effective_pop cfg -> ltb (c j) (c m) = false)
           /\ (forall j, j < m -> c j <> c m)).
Proof.
  intros Hit st c.
  assert (Hloops : fit_loops cfg W X k s = (st, [])).
  { unfold fit_loops. rewrite Hit. reflexivity. }
  split; [exact Hloops|]. split; [reflexivity|].
  destruct (init_swarm_started cfg W X k s) as [Hsz Hrows Hbest].
  fold st in Hsz, Hrows, Hbest.
  assert (Hcost : forall j, j < effective_pop cfg -> pbest_cost st !!! j = c j).
  { intros j Hj. now destruct (Hrows j Hj) as (_ & -> & _). }
  split; [exact Hcost|].
  assert (Hbuf : buf (fit_result cfg W X k s) = gbest_pos st).
  { unfold fit_result. rewrite Hloops. cbn [fst].
    apply build_H_buf. apply Hsz. }
  rewrite Hbuf.
  destruct Hbest as [(_ & Hz & Hnone)|(m & Hm & _ & Hg & Hfin & Hleast & Hfirst)].
  - left. split; [|exact Hz]. intros j Hj. rewrite <- Hcost by exact Hj. now apply Hnone.
  - right. exists m. rewrite <- !Hcost by lia.
    repeat split; try assumption.
    + intros j Hj. rewrite <- Hcost by exact Hj. now apply Hleast.
    + intros j Hj. rewrite <- Hcost by lia. now apply Hfirst.
Qed.

(** ** The box *)

Section Kept.
Variable cfg : @PSOConfig num.
Variables k s : nat.
Hypothesis not_crossed : ltb (ub cfg) (lb cfg) = false.
Hypothesis draws_within :
  forall n, n < effective_pop cfg * (k * s) ->
    within (lb cfg) (ub cfg)
      (init_draw (lb cfg) (ub cfg) (3 * n) (mt19937 (seed cfg) : rng)).

Lemma init_swarm_kept W X :
  kept cfg k s (effective_pop cfg) (init_swarm cfg W X k s).
Proof.
  destruct (init_swarm_drawn cfg W X k s) as [Hsz _ Hdraws].
  assert (Hpos : forall i, i < effective_pop cfg ->
            Forall (within (lb cfg) (ub cfg)) (pos (init_swarm cfg W X k s) !!! i)).
  { intros i Hi. apply Forall_entries. intros d Hd.
    destruct Hsz as [_ Rp _ _ _ _ _ _ _]. rewrite Rp in Hd by exact Hi.
    destruct (Hdraws i d Hi Hd) as [Hx _]. unfold get2 in Hx. rewrite Hx.
    unfold draws_before. apply draws_within. nia. }
  split; [exact Hsz|exact Hpos|].
  destruct (init_swarm_started cfg W X k s) as [_ _ Hbest].
  destruct Hbest as [(Hinf & Hz & _)|(m & Hm & _ & Hg & _)]; [now left|].
  right. rewrite Hg. now apply Hpos.
Qed.

Lemma update_particle_kept W X (i : nat) st :
  i < effective_pop cfg ->
  kept cfg k s (effective_pop cfg) st ->
  kept cfg k s (effective_pop cfg) (update_particle cfg W X k s (k * s) i st).
Proof.
  intros Hi [Hsz Hpos Hg].
  pose proof (update_particle_sized cfg W X k s _ _ i st Hsz Hi) as Hsz'.
  destruct (update_particle_summary cfg W X k s _ _ i st Hsz Hi)
    as (p & v & Heq & Hp & _ & Hmove).
  assert (Hbp : Forall (within (lb cfg) (ub cfg)) p).
  { apply Forall_entries. intros d Hd. rewrite Hp in Hd.
    destruct (Hmove d Hd) as [_ ->].
    apply project_within; [apply (lt_irreflexive po)|exact not_crossed]. }
  rewrite Heq in *. clear Heq. unfold tracked in *.
  pose proof Hsz as [Lp _ _ _ _ _ _ _ _].
  destruct (ltb (cost_of cfg W X k s p) (pbest_cost st !!! i));
    split; try exact Hsz'; cbn [pos global_best_cost gbest_pos]; try exact Hg.
  - intros j Hj. rewrite lookup_total_insert_row by lia.
    destruct (Nat.eqb i j); [exact Hbp|now apply Hpos].
  - destruct (ltb (cost_of cfg W X k s p) (global_best_cost st));
      [now right|exact Hg].
  - intros j Hj. rewrite lookup_total_insert_row by lia.
    destruct (Nat.eqb i j); [exact Hbp|now apply Hpos].
Qed.

Lemma kept_after W X (pre post : list event) :
  round_evaluations (effective_pop cfg) (Z.to_nat (max_iters cfg)) = pre ++ post ->
  kept cfg k s (effective_pop cfg)
    (swarm_after cfg W X k s (init_evaluations (effective_pop cfg) ++ pre)).
Proof.
  intros Hsplit.
  apply (rounds_inv cfg W X k s (kept cfg k s (effective_pop cfg)) pre post);
    [apply init_swarm_kept| |exact Hsplit].
  intros i st0 Hi H0. now apply update_particle_kept.
Qed.

(** Inside the move of particle [i], after any number of dimensions, the
    positions are within the bounds. *)
Lemma update_dims_kept (i n j : nat) st :
  kept cfg k s (effective_pop cfg) st -> i < effective_pop cfg -> n <= k * s ->
  j < effective_pop cfg ->
  Forall (within (lb cfg) (ub cfg)) (pos (for_loop n (update_dim cfg i) st) !!! j).
Proof.
  intros [Hsz Hpos _] Hi Hn Hj. pose proof Hsz as [Lp Rp Lv Rv _ _ _ _ _].
  destruct (update_dims cfg i (k * s) n st) as (p & v & Heq & Hp & Hv & Hlt & Hge);
    try lia; auto.
  rewrite Heq. cbn [pos]. rewrite lookup_total_insert_row by lia.
  destruct (Nat.eqb i j); [|now apply Hpos].
  apply Forall_entries. intros d Hd.
  destruct (Nat.lt_ge_cases d n) as [Hdn|Hdn].
  - destruct (Hlt d Hdn) as [_ ->].
    apply project_within; [apply (lt_irreflexive po)|exact not_crossed].
  - destruct (Hge d Hdn) as [-> _]. unfold get2.
    apply (Forall_entry (within (lb cfg) (ub cfg))); [now apply Hpos|].
    rewrite Rp by exact Hi. lia.
Qed.

End Kept.


(** X22.  Under the conditions of claim C5, and for a [g] by [k] matrix
    [W] and a [g] by [s] matrix [X]: the lower clamp of the objective
    evaluator never changes a position the optimiser evaluates.  The
    matrix [H] built from the position of particle [i] has the entries of
    the position, and [cost[i]] is the sum, accumulated from zero column
    after column, of the squares of
    [X(a,j) - sum_i' W(a,i') * pos[i][j*k + i']], the inner sum accumulated
    from zero. *)
Theorem evaluator_sees_positions cfg W X k s (pre post : list event) :
  ltb (ub cfg) (lb cfg) = false ->
  (forall n, n < effective_pop cfg * (k * s) ->
     within (lb cfg) (ub cfg)
       (init_draw (lb cfg) (ub cfg) (3 * n) (mt19937 (seed cfg) : rng))) ->
  cols W = k -> rows X = rows W -> length (coeffs X) = s * rows W ->
  round_evaluations (effective_pop cfg) (Z.to_nat (max_iters cfg)) = pre ++ post ->
  let st := swarm_after cfg W X k s (init_evaluations (effective_pop cfg) ++ pre) in
  forall i, i < effective_pop cfg ->
    let r a j :=
      sub (coeff X a j)
          (for_loop k (fun i' acc =>
             add acc (mul (coeff W a i') ((pos st !!! i) !!! (j * k + i')))) zero) in
    coeffs (eval_cost_H (lb cfg) k s (pos st !!! i)) = pos st !!! i
    /\ cost st !!! i
       = fold_left (fun acc x => add acc (mul x x))
           (flat_map (fun j => map (fun a => r a j) (seq 0 (rows W))) (seq 0 s))
           zero.
Proof.
  intros Hbox Hdraws Hk Hrows HX Hsplit st i Hi r.
  destruct (kept_after cfg k s Hbox Hdraws W X pre post Hsplit) as [Hsz Hpos _].
  fold st in Hsz, Hpos.
  assert (Hlow : Forall (fun x => ltb x (lb cfg) = false) (pos st !!! i)).
  { eapply Forall_impl; [now apply Hpos|]. intros x [Hlo _]. exact Hlo. }
  assert (Hlen : length (pos st !!! i) = k * s) by now apply Hsz.
  split; [now apply eval_cost_H_not_below|].
  unfold st. destruct (evaluated_after cfg W X k s pre post Hsplit) as [_ Hc].
  rewrite (Hc i Hi). fold st.
  apply (eval_cost_formula (lb cfg) W X k s (pos st !!! i)
           (fun i' j => (pos st !!! i) !!! (j * k + i'))); try assumption.
  intros i' j Hi' Hj. unfold clamp_low.
  assert (Hn : ltb ((pos st !!! i) !!! (j * k + i')) (lb cfg) = false).
  { apply (Forall_entry (fun x => ltb x (lb cfg) = false)); [exact Hlow|]. nia. }
  now rewrite Hn.
Qed.

End Partial.

End Unordered.

(** * The laws on IEEE binary64 *)

(** The specification of [<] on the decoded doubles never relates a number
    to itself. *)
Lemma SFltb_irrefl (x : spec_float) : SFltb x x = false.
Proof.
  unfold SFltb, SFcompare.
  destruct x as [s|s| |s m e]; try destruct s; try reflexivity;
    rewrite Z.compare_refl, Pos.compare_cont_refl; reflexivity.
Qed.

Lemma SFltb_trans (x y z : spec_float) :
  SFltb x y = true -> SFltb y z = true -> SFltb x z = true.
Proof.
  unfold SFltb, SFcompare.
  destruct x as [sx|sx| |sx mx ex], y as [sy|sy| |sy my ey], z as [sz|sz| |sz mz ez];
    try destruct sx; try destruct sy; try destruct sz;
    try discriminate; try reflexivity.
  - destruct (Z.compare_spec ex ey) as [Hxy|Hxy|Hxy]; try discriminate;
      destruct (Z.compare_spec ey ez) as [Hyz|Hyz|Hyz]; try discriminate;
      destruct (Z.compare_spec ex ez) as [Hxz|Hxz|Hxz]; try lia; try reflexivity.
    fold (Pos.compare mx my). fold (Pos.compare my mz). fold (Pos.compare mx mz).
    destruct (Pos.compare_spec mx my); try discriminate.
    destruct (Pos.compare_spec my mz); try discriminate.
    destruct (Pos.compare_spec mx mz); try lia; reflexivity.
  - destruct (Z.compare_spec ex ey) as [Hxy|Hxy|Hxy]; try discriminate;
      destruct (Z.compare_spec ey ez) as [Hyz|Hyz|Hyz]; try discriminate;
      destruct (Z.compare_spec ex ez) as [Hxz|Hxz|Hxz]; try lia; try reflexivity.
    fold (Pos.compare mx my). fold (Pos.compare my mz). fold (Pos.compare mx mz).
    destruct (Pos.compare_spec mx my); try discriminate.
    destruct (Pos.compare_spec my mz); try discriminate.
    destruct (Pos.compare_spec mx mz); try lia; reflexivity.
Qed.

Lemma binary64_partial_order : PartialOrder (num := float).
Proof.
  split; simpl.
  - intros x. rewrite FloatAxioms.ltb_spec. apply SFltb_irrefl.
  - intros x y z. rewrite !FloatAxioms.ltb_spec. apply SFltb_trans.
Qed.

(** Rounding keeps the sign it is given. *)
Lemma binary_round_aux_sign (sx : bool) (mx ex : Z) (lx : SpecFloat.location) :
  let r := binary_round_aux prec emax sx mx ex lx in
  r = S754_nan \/ r = S754_zero sx \/ r = S754_infinity sx
  \/ exists m e, r = S754_finite sx m e.
Proof.
  unfold binary_round_aux.
  destruct (shr_fexp prec emax mx ex lx) as [mrs' e'].
  destruct (shr_fexp prec emax _ e' loc_Exact) as [mrs'' e''].
  destruct (shr_m mrs'') as [|m|m]; [right; now left| |now left].
  destruct (Z.leb e'' (emax - prec)); right; right; [right; eauto|now left].
Qed.

Lemma binary_round_sign (sx : bool) (mx : positive) (ex : Z) :
  let r := binary_round prec emax sx mx ex in
  r = S754_nan \/ r = S754_zero sx \/ r = S754_infinity sx
  \/ exists m e, r = S754_finite sx m e.
Proof.
  unfold binary_round.
  destruct (shl_align mx ex _) as [mz ez]. apply binary_round_aux_sign.
Qed.

Lemma SFltb_zero (x : spec_float) :
  SFltb x (S754_zero false) = false <-> SF_not_negative x.
Proof.
  unfold SFltb, SFcompare, SF_not_negative.
  destruct x as [s|s| |s m e]; try destruct s; simpl; split; intros; try reflexivity;
    try exact I; discriminate.
Qed.

Lemma SF_not_negative_round (r : spec_float) :
  (r = S754_nan \/ r = S754_zero false \/ r = S754_infinity false
   \/ exists m e, r = S754_finite false m e) ->
  SF_not_negative r.
Proof. intros [->|[->|[->|(m & e & ->)]]]; simpl; auto. Qed.

Lemma SFmul_square (x : spec_float) : SF_not_negative (SFmul prec emax x x).
Proof.
  destruct x as [s|s| |s m e]; simpl; try destruct s; simpl; auto;
    apply SF_not_negative_round, binary_round_aux_sign.
Qed.

Lemma SFadd_not_negative (x y : spec_float) :
  SF_not_negative x -> SF_not_negative y -> SF_not_negative (SFadd prec emax x y).
Proof.
  destruct x as [sx|sx| |sx mx ex], y as [sy|sy| |sy my ey]; simpl;
    try (intros -> ->); try (intros -> _); try (intros _ ->); try (intros _ _);
    simpl; auto; try (destruct sx, sy; simpl; auto; fail);
    try (destruct sx; simpl; auto; fail); try (destruct sy; simpl; auto; fail).
  unfold binary_normalize. simpl.
  apply SF_not_negative_round, binary_round_sign.
Qed.

Lemma Prim2SF_zero : Prim2SF 0%float = S754_zero false.
Proof. reflexivity. Qed.

Lemma binary64_not_negative : NotNegative (num := float).
Proof.
  split; simpl.
  - reflexivity.
  - intros x. rewrite FloatAxioms.ltb_spec, FloatAxioms.mul_spec, Prim2SF_zero.
    apply SFltb_zero, SFmul_square.
  - intros x y. rewrite !FloatAxioms.ltb_spec, FloatAxioms.add_spec, Prim2SF_zero, !SFltb_zero.
    apply SFadd_not_negative.
Qed.

(** Comparing the other way round gives the opposite answer. *)
Lemma SFcompare_swap (a b : spec_float) :
  SFcompare b a = option_map CompOpp (SFcompare a b).
Proof.
  unfold SFcompare.
  destruct a as [sa|sa| |sa ma ea], b as [sb|sb| |sb mb eb];
    try destruct sa; try destruct sb; simpl; try reflexivity;
    rewrite (Z.compare_antisym ea eb); destruct (Z.compare ea eb); simpl;
    try reflexivity;
    pose proof (Pos.compare_cont_antisym ma mb Eq) as H; simpl in H;
    rewrite <- H; now destruct (Pos.compare_cont Eq ma mb).
Qed.

Lemma SFleb_of_not_ltb (a b : spec_float) :
  a <> S754_nan -> b <> S754_nan -> SFltb b a = false -> SFleb a b = true.
Proof.
  intros Ha Hb. unfold SFltb, SFleb. rewrite (SFcompare_swap a b).
  destruct (SFcompare a b) as [[| |]|] eqn:Hc; simpl; try reflexivity; try discriminate.
  destruct a as [sa|sa| |sa ma ea], b as [sb|sb| |sb mb eb]; simpl in Hc;
    try discriminate; congruence.
Qed.

Lemma SFleb_not_nan (a b : spec_float) :
  SFleb a b = true -> a <> S754_nan /\ b <> S754_nan.
Proof.
  unfold SFleb, SFcompare.
  destruct a as [sa|sa| |sa ma ea], b as [sb|sb| |sb mb eb]; simpl;
    try discriminate; intros _; split; discriminate.
Qed.

Lemma SFleb_not_ltb (a b : spec_float) : SFleb a b = true -> SFltb b a = false.
Proof.
  unfold SFltb, SFleb. rewrite (SFcompare_swap a b).
  destruct (SFcompare a b) as [[| |]|]; simpl; try reflexivity; discriminate.
Qed.

Lemma Prim2SF_nan (x : float) : Prim2SF x = S754_nan -> x = nan.
Proof. intros H. apply Prim2SF_inj. now rewrite H. Qed.

(** On doubles: [a <= b] is the same as "[b] is not below [a], and neither
    is NaN". *)
Lemma binary64_leb (a b : float) :
  PrimFloat.leb a b = true <-> (PrimFloat.ltb b a = false /\ a <> nan /\ b <> nan).
Proof.
  rewrite FloatAxioms.leb_spec, FloatAxioms.ltb_spec. split.
  - intros H. split; [now apply SFleb_not_ltb|].
    destruct (SFleb_not_nan _ _ H) as [Ha Hb].
    split; intros ->; [now apply Ha|now apply Hb].
  - intros (Hlt & Ha & Hb). apply SFleb_of_not_ltb; try assumption.
    + intros H. apply Ha. now apply Prim2SF_nan.
    + intros H. apply Hb. now apply Prim2SF_nan.
Qed.

Lemma binary64_nan_dec (x : float) : x = nan \/ x <> nan.
Proof.
  destruct (Prim2SF x) eqn:Hx; try (right; intros ->; discriminate).
  left. now apply Prim2SF_nan.
Qed.

(** X21.  On doubles, for bounds with [lb <= ub] and draws of [initDist]
    in [[lb, ub]]: at the end of the initialisation and after every later
    particle evaluation every component [x] of every position satisfies
    [lb <= x] and [x <= ub], or is NaN. *)
Theorem positions_in_box_binary64 {rng : Type} {RG : Rng float rng}
    (cfg : @PSOConfig float) (W X : @Matrix float) (k s : nat)
    (pre post : list event) :
  PrimFloat.leb (lb cfg) (ub cfg) = true ->
  (forall n, n < effective_pop cfg * (k * s) ->
     let x := init_draw (lb cfg) (ub cfg) (3 * n) (mt19937 (seed cfg) : rng) in
     PrimFloat.leb (lb cfg) x = true /\ PrimFloat.leb x (ub cfg) = true) ->
  round_evaluations (effective_pop cfg) (Z.to_nat (max_iters cfg)) = pre ++ post ->
  let st := swarm_after cfg W X k s (init_evaluations (effective_pop cfg) ++ pre) in
  forall i d, i < effective_pop cfg -> d < k * s ->
    let x := get2 (pos st) i d in
    (PrimFloat.leb (lb cfg) x = true /\ PrimFloat.leb x (ub cfg) = true) \/ x = nan.
Proof.
  intros Hbox Hdraws Hsplit st i d Hi Hd x.
  apply binary64_leb in Hbox. destruct Hbox as (Hnot & Hlb & Hub).
  assert (Hw : forall n, n < effective_pop cfg * (k * s) ->
            within (lb cfg) (ub cfg)
              (init_draw (lb cfg) (ub cfg) (3 * n) (mt19937 (seed cfg) : rng))).
  { intros n Hn. destruct (Hdraws n Hn) as [H1 H2].
    apply binary64_leb in H1, H2. split; [apply H1|apply H2]. }
  destruct (kept_after binary64_partial_order cfg k s Hnot Hw W X pre post Hsplit)
    as [Hsz Hpos _].
  fold st in Hsz, Hpos.
  assert (Hx : within (lb cfg) (ub cfg) x).
  { unfold x, get2. apply (Forall_entry (within (lb cfg) (ub cfg))); [now apply Hpos|].
    destruct Hsz as [_ Rp _ _ _ _ _ _ _]. now rewrite Rp. }
  destruct (binary64_nan_dec x) as [Hn|Hn]; [now right|left].
  destruct Hx as [Hlo Hhi].
  split; apply binary64_leb; repeat split; assumption.
Qed.

(** * The theorems on doubles *)

(** The twenty draws of [initDist] that become the positions of the five
    particles of the 2 by 2 example are in [[0, 10]]. *)
Lemma cfgD_draws_leb (n : nat) :
  n < effective_pop cfgD * (2 * 2) ->
  let x := init_draw (lb cfgD) (ub cfgD) (3 * n) (mt19937 (seed cfgD) : mt_state) in
  PrimFloat.leb (lb cfgD) x = true /\ PrimFloat.leb x (ub cfgD) = true.
Proof.
  intros Hn.
  do 20 (destruct n as [|n]; [vm_compute; split; reflexivity|]).
  vm_compute in Hn. lia.
Qed.

Lemma cfgD_draws (n : nat) :
  n < effective_pop cfgD * (2 * 2) ->
  within (lb cfgD) (ub cfgD)
    (init_draw (lb cfgD) (ub cfgD) (3 * n) (mt19937 (seed cfgD) : mt_state)).
Proof.
  intros Hn. destruct (cfgD_draws_leb n Hn) as [H1 H2].
  apply binary64_leb in H1, H2. split; [apply H1|apply H2].
Qed.

(** One iteration and two particles of the second one have been done. *)
Lemma cfgD_split :
  round_evaluations (effective_pop cfgD) (Z.to_nat (max_iters cfgD))
  = (round_evaluations 5 1 ++ [Update 0; Update 1])
    ++ ([Update 2; Update 3; Update 4] ++ round_evaluations 5 1).
Proof. reflexivity. Qed.

Lemma update_rule_witness :
  rng_st (swarm_after cfgD (eigen_W WD) (eigen_X XD) 2 2
            ((init_evaluations (effective_pop cfgD)
              ++ round_evaluations (effective_pop cfgD) 1 ++ map Update (seq 0 2))
             ++ [Update 2]))
  = rng_after (2 * (2 * 2))
      (rng_st (swarm_after cfgD (eigen_W WD) (eigen_X XD) 2 2
                 (init_evaluations (effective_pop cfgD)
                  ++ round_evaluations (effective_pop cfgD) 1
                  ++ map Update (seq 0 2)))).
Proof.
  assert (Ht : (Z.of_nat 1 < max_iters cfgD)%Z) by (vm_compute; reflexivity).
  assert (Hi : 2 < effective_pop cfgD) by (vm_compute; lia).
  pose proof (update_rule cfgD (eigen_W WD) (eigen_X XD) 2 2 1 2 Ht Hi) as H.
  cbv zeta in H. destruct H as (_ & _ & _ & H & _). exact H.
Defined.


Lemma zero_iterations_witness :
  ((forall j, j < effective_pop cfg_far0 ->
      ltb (eval_cost (lb cfg_far0) (eigen_W W_one) (eigen_X X_far) 1 1
             (pos (init_swarm cfg_far0 (eigen_W W_one) (eigen_X X_far) 1 1) !!! j))
          infinity = false)
   /\ buf (fit_result cfg_far0 (eigen_W W_one) (eigen_X X_far) 1 1)
      = replicate (1 * 1) zero)
  \/ exists m, m < effective_pop cfg_far0
       /\ buf (fit_result cfg_far0 (eigen_W W_one) (eigen_X X_far) 1 1)
          = pos (init_swarm cfg_far0 (eigen_W W_one) (eigen_X X_far) 1 1) !!! m
       /\ ltb (eval_cost (lb cfg_far0) (eigen_W W_one) (eigen_X X_far) 1 1
                 (pos (init_swarm cfg_far0 (eigen_W W_one) (eigen_X X_far) 1 1) !!! m))
              infinity = true
       /\ (forall j, j < effective_pop cfg_far0 ->
             ltb (eval_cost (lb cfg_far0) (eigen_W W_one) (eigen_X X_far) 1 1
                    (pos (init_swarm cfg_far0 (eigen_W W_one) (eigen_X X_far) 1 1) !!! j))
                 (eval_cost (lb cfg_far0) (eigen_W W_one) (eigen_X X_far) 1 1
                    (pos (init_swarm cfg_far0 (eigen_W W_one) (eigen_X X_far) 1 1) !!! m))
             = false)
       /\ (forall j, j < m ->
             eval_cost (lb cfg_far0) (eigen_W W_one) (eigen_X X_far) 1 1
               (pos (init_swarm cfg_far0 (eigen_W W_one) (eigen_X X_far) 1 1) !!! j)
             <> eval_cost (lb cfg_far0) (eigen_W W_one) (eigen_X X_far) 1 1
                  (pos (init_swarm cfg_far0 (eigen_W W_one) (eigen_X X_far) 1 1) !!! m)).
Proof.
  assert (Hit : max_iters cfg_far0 = 0%Z) by reflexivity.
  pose proof (zero_iterations binary64_partial_order cfg_far0
                (eigen_W W_one) (eigen_X X_far) 1 1 Hit) as H.
  cbv zeta in H. destruct H as (_ & _ & _ & H). exact H.
Defined.

Lemma eval_cost_spec_witness :
  ltb (eval_cost 2%float (eigen_W W_cancel) (eigen_X X_zero) 2 1 [3; 5]%float) zero
  = false.
Proof.
  assert (Hk : cols (eigen_W W_cancel) = 2) by reflexivity.
  assert (Hr : rows (eigen_X X_zero) = rows (eigen_W W_cancel)) by reflexivity.
  assert (Hx : length (coeffs (eigen_X X_zero)) = 1 * rows (eigen_W W_cancel))
    by reflexivity.
  pose proof (eval_cost_spec 2%float (eigen_W W_cancel) (eigen_X X_zero) 2 1
                [3; 5]%float binary64_not_negative Hk Hr Hx) as H.
  cbv zeta in H. destruct H as (_ & _ & _ & H). exact H.
Defined.


(** ** Where the claims fail on doubles *)


(** With [max_iters = 0], [W = [[1]]], [X = [[1e200]]] and the box
    [[1, 10]], [fit] returns the zero matrix, which is the position of no
    initial particle: every initial position is above zero. *)
Lemma zero_iterations_counterexample :
  fit cfg_far0 W_one X_far = Ok {| shape := [1; 1]%Z; buf := [0%float] |}
  /\ ~ In [0%float] (pos (init_swarm cfg_far0 (eigen_W W_one) (eigen_X X_far) 1 1)).
Proof.
  split; [vm_compute; reflexivity|].
  assert (Hall : Forall (fun p : list float => PrimFloat.ltb 0 (p !!! 0) = true)
                   (pos (init_swarm cfg_far0 (eigen_W W_one) (eigen_X X_far) 1 1))).
  { vm_compute. repeat constructor. }
  intros Hin. rewrite Forall_forall in Hall.
  apply list_elem_of_In, Hall in Hin. vm_compute in Hin. discriminate.
Qed.

(** For [W = [[1e308, -1e308]]], [X = [[0]]] and [lb = 2] the product
    [W * H] is [inf - inf]: the cost is NaN, and [0 <= NaN] is false. *)
Lemma eval_cost_spec_counterexample :
  eval_cost 2%float (eigen_W W_cancel) (eigen_X X_zero) 2 1 [3; 5]%float = nan
  /\ PrimFloat.leb 0 (eval_cost 2%float (eigen_W W_cancel) (eigen_X X_zero) 2 1
                        [3; 5]%float) = false.
Proof. split; vm_compute; reflexivity. Qed.


(** ** The further properties on doubles *)

Lemma personal_best_cost_non_increasing_witness :
  leq (pbest_cost (swarm_after cfgD (eigen_W WD) (eigen_X XD) 2 2
                     (init_evaluations (effective_pop cfgD)
                      ++ (round_evaluations 5 1 ++ [Update 0; Update 1])
                      ++ [Update 2; Update 3; Update 4])) !!! 2)
      (pbest_cost (swarm_after cfgD (eigen_W WD) (eigen_X XD) 2 2
                     (init_evaluations (effective_pop cfgD)
                      ++ (round_evaluations 5 1 ++ [Update 0; Update 1]))) !!! 2).
Proof.
  assert (Hj : 2 < effective_pop cfgD) by (vm_compute; lia).
  exact (personal_best_cost_non_increasing
           (lt_transitive binary64_partial_order)
           cfgD (eigen_W WD) (eigen_X XD) 2 2
           (round_evaluations 5 1 ++ [Update 0; Update 1])
           [Update 2; Update 3; Update 4] (round_evaluations 5 1) 2 cfgD_split Hj).
Defined.

Lemma printed_costs_non_increasing_witness :
  StronglySorted (fun a b : nat * float => fst a < fst b /\ leq (snd b) (snd a))
    (snd (fit_loops cfgD (eigen_W WD) (eigen_X XD) 2 2)).
Proof.
  exact (printed_costs_non_increasing (lt_transitive binary64_partial_order)
           cfgD (eigen_W WD) (eigen_X XD) 2 2).
Defined.

Lemma project_box_witness :
  within (lb cfgD) (ub cfgD) (project cfgD 0x1.9p+3%float)
  /\ project cfgD 0x1.9p+3%float = ub cfgD
  /\ project cfgD nan = nan.
Proof.
  assert (Hbox : ltb (ub cfgD) (lb cfgD) = false) by reflexivity.
  assert (Habove : ltb (ub cfgD) 0x1.9p+3%float = true) by reflexivity.
  assert (Hnan : within (lb cfgD) (ub cfgD) nan) by (split; reflexivity).
  pose proof (project_box cfgD 0x1.9p+3%float binary64_partial_order Hbox)
    as (H1 & _ & _ & _ & H2).
  pose proof (project_box cfgD nan binary64_partial_order Hbox) as (_ & H3 & _).
  split; [exact H1|]. split; [exact (H2 Habove)|exact (H3 Hnan)].
Defined.


Lemma clamp_idle_witness :
  coeffs (eval_cost_H 0%float 2 2 [1; 2; 0; nan]%float) = [1; 2; 0; nan]%float.
Proof.
  assert (Hlen : length [1; 2; 0; nan]%float = 2 * 2) by reflexivity.
  assert (Hall : Forall (fun x => ltb x 0%float = false) [1; 2; 0; nan]%float)
    by (repeat constructor).
  exact (proj1 (clamp_idle 0%float 2 2 _ Hlen Hall)).
Defined.

Lemma positions_in_box_binary64_witness :
  (PrimFloat.leb (lb cfgD)
     (get2 (pos (swarm_after cfgD (eigen_W WD) (eigen_X XD) 2 2
                   (init_evaluations (effective_pop cfgD)
                    ++ round_evaluations 5 1 ++ [Update 0; Update 1]))) 1 2) = true
   /\ PrimFloat.leb
        (get2 (pos (swarm_after cfgD (eigen_W WD) (eigen_X XD) 2 2
                      (init_evaluations (effective_pop cfgD)
                       ++ round_evaluations 5 1 ++ [Update 0; Update 1]))) 1 2)
        (ub cfgD) = true)
  \/ get2 (pos (swarm_after cfgD (eigen_W WD) (eigen_X XD) 2 2
                  (init_evaluations (effective_pop cfgD)
                   ++ round_evaluations 5 1 ++ [Update 0; Update 1]))) 1 2 = nan.
Proof.
  assert (Hbox : PrimFloat.leb (lb cfgD) (ub cfgD) = true) by reflexivity.
  assert (Hi : 1 < effective_pop cfgD) by (vm_compute; lia).
  assert (Hd : 2 < 2 * 2) by lia.
  exact (positions_in_box_binary64 cfgD (eigen_W WD) (eigen_X XD) 2 2 _ _
           Hbox cfgD_draws_leb cfgD_split 1 2 Hi Hd).
Defined.

Lemma evaluator_sees_positions_witness :
  coeffs (eval_cost_H (lb cfgD) 2 2
            (pos (swarm_after cfgD (eigen_W WD) (eigen_X XD) 2 2
                    (init_evaluations (effective_pop cfgD)
                     ++ round_evaluations 5 1 ++ [Update 0; Update 1])) !!! 3))
  = pos (swarm_after cfgD (eigen_W WD) (eigen_X XD) 2 2
           (init_evaluations (effective_pop cfgD)
            ++ round_evaluations 5 1 ++ [Update 0; Update 1])) !!! 3.
Proof.
  assert (Hbox : ltb (ub cfgD) (lb cfgD) = false) by reflexivity.
  assert (Hk : cols (eigen_W WD) = 2) by reflexivity.
  assert (Hr : rows (eigen_X XD) = rows (eigen_W WD)) by reflexivity.
  assert (Hx : length (coeffs (eigen_X XD)) = 2 * rows (eigen_W WD)) by reflexivity.
  assert (Hi : 3 < effective_pop cfgD) by (vm_compute; lia).
  pose proof (evaluator_sees_positions binary64_partial_order cfgD
                (eigen_W WD) (eigen_X XD) 2 2 _ _ Hbox cfgD_draws Hk Hr Hx
                cfgD_split 3 Hi) as H.
  cbv zeta in H. exact (proj1 H).
Defined.

Lemma best_cost_of_best_position_witness :
  (global_best_cost (fst (fit_loops cfgD (eigen_W WD) (eigen_X XD) 2 2)) = infinity
   /\ buf (fit_result cfgD (eigen_W WD) (eigen_X XD) 2 2) = replicate (2 * 2) zero)
  \/ global_best_cost (fst (fit_loops cfgD (eigen_W WD) (eigen_X XD) 2 2))
     = eval_cost (lb cfgD) (eigen_W WD) (eigen_X XD) 2 2
         (buf (fit_result cfgD (eigen_W WD) (eigen_X XD) 2 2)).
Proof.
  pose proof (best_cost_of_best_position cfgD (eigen_W WD) (eigen_X XD) 2 2 _ _
                cfgD_split) as H.
  cbv zeta in H. exact (proj2 H).
Defined.
